(** * Keyed scope reconciler: [useScopePerKey]

    A shallow embedding of the two variants of [useScopePerKey]
    (src/deep-reactivity.ts, built on [computed] + [watch] with
    [flush: 'sync'], and the [watchEffect] variant), together with the
    part of the reactive runtime they call.

    Layout: the data (keys, the watched object, the JS [Map], scopes,
    the state of a run); the effect-scope runtime the reconcilers call;
    handlers; the two reconcilers, a module each; the observations and
    relations the statements use; lemmas on the [Map], on scope
    disposal and on what a pass can change; the theorems, one block per
    property of the specification (C1 to C10); further properties of
    the two variants (X1 to X18), with the lemmas they need. *)

From stdpp Require Import base list strings.
From Stdlib Require Import Lia.

Open Scope string_scope.
Open Scope list_scope.

(** ** Data *)

Abbreviation Key := string.
Abbreviation ScopeId := nat.

(** The watched object [input.value]: its own enumerable string-keyed
    properties, in the order [Object.keys] lists them. *)
Definition Obj := list (Key * nat).

Definition Object_keys (o : Obj) : list Key := map fst o.

(** [Array.prototype.includes] on an array of keys. *)
Definition includes (key : Key) (l : list Key) : bool :=
  existsb (String.eqb key) l.

(** The JS [Map<key, scope>]: entries in insertion order, one entry per
    key. [set] on a present key keeps its position; [delete] leaves no
    entry for the key. *)
Module JsMap.

Definition t := list (Key * ScopeId).

Fixpoint has (key : Key) (m : t) : bool :=
  match m with
  | [] => false
  | (k, _) :: m' => if String.eqb k key then true else has key m'
  end.

Fixpoint get (key : Key) (m : t) : option ScopeId :=
  match m with
  | [] => None
  | (k, v) :: m' => if String.eqb k key then Some v else get key m'
  end.

Fixpoint set (key : Key) (v : ScopeId) (m : t) : t :=
  match m with
  | [] => [(key, v)]
  | (k, v') :: m' =>
      if String.eqb k key then (k, v) :: m' else (k, v') :: set key v m'
  end.

Fixpoint delete (key : Key) (m : t) : t :=
  match m with
  | [] => []
  | (k, v) :: m' =>
      if String.eqb k key then delete key m' else (k, v) :: delete key m'
  end.

Definition keys (m : t) : list Key := map fst m.

End JsMap.

(** A disposal callback registered with [onScopeDispose]. The closure
    the sync variant registers is [SelfRemove key]; callbacks registered
    by the caller's handler are opaque and only leave a mark in the
    trace when they fire. *)
Inductive Hook :=
| SelfRemove (key : Key)
| UserHook (n : nat).

(** The one reactive effect the reconciler itself creates: its top-level
    watcher ([computed] + [watch], or [watchEffect]). *)
Inductive Effect := TopLevelWatch.

Record EffectScope := mkScope {
  active : bool;
  parent : option ScopeId;
  effects : list Effect;
  cleanups : list Hook;
  scopes : list ScopeId
}.

(** What happens during a run, recorded oldest first. The trace is not
    read by the code; it makes handler calls, fired hooks and disposals
    observable in the statements. *)
Inductive Event :=
| ScopeCreated (s : ScopeId)
| Registered (key : Key) (s : ScopeId)
| Unregistered (key : Key)
| HandlerCalled (key : Key) (s : ScopeId)
| HookFired (s : ScopeId) (h : Hook)
| ScopeStopped (s : ScopeId)
| WatchStopped.

(** The state of a run: the value of the watched ref, the registry
    [childScopes], the scopes allocated so far (a scope's id is its
    index), the scope that is currently active, whether the top-level
    watcher is still watching, and the trace. *)
Record State := mkState {
  input : Obj;
  childScopes : JsMap.t;
  heap : list EffectScope;
  activeEffectScope : option ScopeId;
  watching : bool;
  trace : list Event
}.

Definition set_input (o : Obj) (st : State) : State :=
  mkState o (childScopes st) (heap st) (activeEffectScope st) (watching st) (trace st).

Definition set_childScopes (m : JsMap.t) (st : State) : State :=
  mkState (input st) m (heap st) (activeEffectScope st) (watching st) (trace st).

Definition set_heap (h : list EffectScope) (st : State) : State :=
  mkState (input st) (childScopes st) h (activeEffectScope st) (watching st) (trace st).

Definition set_activeEffectScope (a : option ScopeId) (st : State) : State :=
  mkState (input st) (childScopes st) (heap st) a (watching st) (trace st).

Definition set_watching (w : bool) (st : State) : State :=
  mkState (input st) (childScopes st) (heap st) (activeEffectScope st) w (trace st).

Definition emit (e : Event) (st : State) : State :=
  mkState (input st) (childScopes st) (heap st) (activeEffectScope st) (watching st)
          (trace st ++ [e]).

(** [childScopes.set(key, s)] and [childScopes.delete(key)]. *)
Definition childScopes_set (key : Key) (s : ScopeId) (st : State) : State :=
  emit (Registered key s) (set_childScopes (JsMap.set key s (childScopes st)) st).

Definition childScopes_delete (key : Key) (st : State) : State :=
  emit (Unregistered key) (set_childScopes (JsMap.delete key (childScopes st)) st).

(** An invocation either returns, throws, or never returns (a handler
    that keeps re-entering the sync watcher, a disposal that keeps
    re-entering itself; in JavaScript such a run ends when the call
    stack is used up). Mutations made before a throw persist. *)
Inductive Outcome :=
| Normal (st : State)
| Thrown (st : State)
| Diverged.

(** ** The effect-scope runtime

    Vue's [effectScope], [onScopeDispose], [getCurrentScope] and the
    watchers are imported from ['vue'] and are not part of this
    repository; they are modelled from the runtime contract the
    specification gives, with the field names Vue uses. *)

Definition is_active (s : ScopeId) (st : State) : bool :=
  match heap st !! s with
  | Some sc => active sc
  | None => false
  end.

Definition scope_cleanups (s : ScopeId) (st : State) : list Hook :=
  match heap st !! s with
  | Some sc => cleanups sc
  | None => []
  end.

Definition push_scope (c : ScopeId) (sc : EffectScope) : EffectScope :=
  mkScope (active sc) (parent sc) (effects sc) (cleanups sc) (scopes sc ++ [c]).

Definition push_cleanup (h : Hook) (sc : EffectScope) : EffectScope :=
  mkScope (active sc) (parent sc) (effects sc) (cleanups sc ++ [h]) (scopes sc).

Definition push_effect (e : Effect) (sc : EffectScope) : EffectScope :=
  mkScope (active sc) (parent sc) (effects sc ++ [e]) (cleanups sc) (scopes sc).

Definition deactivate (sc : EffectScope) : EffectScope :=
  mkScope false (parent sc) (effects sc) (cleanups sc) (scopes sc).

(** Modelled from the spec: [createScope] of the reactive-runtime
    contract (Vue's [effectScope()], which is not part of this
    repository). The new scope is live, empty, and collected by the
    scope that is active at the call, if any. *)
Definition effectScope (st : State) : ScopeId * State :=
  let s := length (heap st) in
  let sc := mkScope true (activeEffectScope st) [] [] [] in
  let h1 := heap st ++ [sc] in
  let h2 := match activeEffectScope st with
            | Some p => alter (push_scope s) p h1
            | None => h1
            end in
  (s, emit (ScopeCreated s) (set_heap h2 st)).

(** Modelled from the spec: [currentScope] of the runtime contract
    (Vue's [getCurrentScope()]). *)
Definition getCurrentScope (st : State) : option ScopeId := activeEffectScope st.

(** Modelled from the spec: [registerDisposalHook] of the runtime
    contract (Vue's [onScopeDispose]): the callback is appended to the
    hooks of the active scope; with no active scope nothing is
    registered. *)
Definition onScopeDispose (h : Hook) (st : State) : State :=
  match activeEffectScope st with
  | Some s => set_heap (alter (push_cleanup h) s (heap st)) st
  | None => st
  end.

(** Modelled from the spec: [runInScope] of the runtime contract (Vue's
    [scope.run(fn)]): [fn] runs with the scope as the active one, and the
    previously active scope is restored afterwards, also when [fn]
    throws. An inert scope does not run [fn]. *)
Definition EffectScope_run (s : ScopeId) (fn : State -> Outcome) (st : State) : Outcome :=
  if is_active s st then
    let prev := activeEffectScope st in
    match fn (set_activeEffectScope (Some s) st) with
    | Normal st' => Normal (set_activeEffectScope prev st')
    | Thrown st' => Thrown (set_activeEffectScope prev st')
    | Diverged => Diverged
    end
  else Normal st.

(** Modelled from the spec: cancelling a computation owned by a scope
    (the runtime contract's [disposeScope] cancels all of them). The
    only computation modelled is the reconciler's top-level watcher;
    stopping it twice is a no-op. *)
Definition stop_effect (e : Effect) (st : State) : State :=
  match e with
  | TopLevelWatch =>
      if watching st then emit WatchStopped (set_watching false st) else st
  end.

(** Running [f] on the elements of a list, in order; an invocation
    that does not return ends the run. *)
Fixpoint run_all {A} (f : A -> State -> Outcome) (l : list A) (st : State) : Outcome :=
  match l with
  | [] => Normal st
  | x :: l' =>
      match f x st with
      | Normal st' => run_all f l' st'
      | r => r
      end
  end.

(** The body of the closure registered in src/deep-reactivity.ts:
<<
    if (!childScopes.has(key)) return;
    childScopes.get(key)!.stop();
    childScopes.delete(key);
>>
    [stop] is the runtime's scope disposal; the entry is deleted when
    [stop] has returned. *)
Definition selfRemove (stop : ScopeId -> State -> Outcome) (key : Key) (st : State)
    : Outcome :=
  if negb (JsMap.has key (childScopes st)) then Normal st
  else
    match (match JsMap.get key (childScopes st) with
           | Some s => stop s st
           | None => Normal st
           end) with
    | Normal st1 => Normal (childScopes_delete key st1)
    | r => r
    end.

(** Firing one disposal hook of scope [owner]. *)
Definition run_hook (stop : ScopeId -> State -> Outcome) (owner : ScopeId) (h : Hook)
    (st : State) : Outcome :=
  let st1 := emit (HookFired owner h) st in
  match h with
  | SelfRemove key => selfRemove stop key st1
  | UserHook _ => Normal st1
  end.

(** Modelled from the spec: [disposeScope] of the runtime contract (Vue's
    [scope.stop()]), which is to "synchronously cancel all owned
    computations and run all registered disposal hooks, then mark the
    scope inert (idempotent)". So for a live scope: its effects are
    stopped, its hooks fire in registration order, its child scopes are
    disposed (the cascade from a parent scope), and then the scope is
    marked inert; an inert scope is left as it is. The scope is still
    live while its hooks run: a hook that asks for the disposal of the
    scope it belongs to, as the hook of src/deep-reactivity.ts does,
    starts that disposal again. Removing the scope from its parent's
    list of children is not modelled: the list is read by the cascade
    only, where a scope that is already inert is skipped. [fuel] bounds
    the depth to which disposals nest; a disposal that needs more does
    not return with this [fuel] ([stop_fuel_add]: one that returns,
    returns the same with any more). *)
Fixpoint stop_fuel (fuel : nat) (s : ScopeId) (st : State) : Outcome :=
  match fuel with
  | 0 => Diverged
  | S fuel' =>
      match heap st !! s with
      | Some sc =>
          if active sc then
            let st1 := fold_left (fun acc e => stop_effect e acc) (effects sc) st in
            match run_all (run_hook (stop_fuel fuel') s) (cleanups sc) st1 with
            | Normal st2 =>
                match run_all (stop_fuel fuel') (scopes sc) st2 with
                | Normal st3 =>
                    Normal (emit (ScopeStopped s)
                              (set_heap (alter deactivate s (heap st3)) st3))
                | r => r
                end
            | r => r
            end
          else Normal st
      | None => Normal st
      end
  end.

(** The state in which [handler(key)] starts to run in either variant:
    a fresh scope has been created, registered under [key], and made
    the active scope. *)
Definition handler_entry (key : Key) (st : State) : State :=
  let '(newScope, st1) := effectScope st in
  set_activeEffectScope (Some newScope) (childScopes_set key newScope st1).

(** ** Handlers

    The caller's [handler(key)] is described by what it does to the
    runtime, in order: register disposal hooks on the active scope,
    write the watched ref, throw. *)
Inductive Op :=
| OnScopeDispose (n : nat)
| Write (o : Obj)
| Throw.

Definition Handler := Key -> list Op.

(** Running a handler body. [notify] is what the runtime does
    synchronously when the watched ref is written; an exception that
    leaves it leaves the handler too. *)
Fixpoint run_ops (notify : State -> Outcome) (ops : list Op) (st : State) : Outcome :=
  match ops with
  | [] => Normal st
  | OnScopeDispose n :: ops' => run_ops notify ops' (onScopeDispose (UserHook n) st)
  | Write o :: ops' =>
      match notify (set_input o st) with
      | Normal st' => run_ops notify ops' st'
      | r => r
      end
  | Throw :: _ => Thrown st
  end.

(** [handler(key)], called with the key's scope active. *)
Definition call_handler (notify : State -> Outcome) (handler : Handler) (key : Key)
    (st : State) : Outcome :=
  match activeEffectScope st with
  | Some s => run_ops notify (handler key) (emit (HandlerCalled key s) st)
  | None => run_ops notify (handler key) st
  end.

(** Modelled from the spec: [onChange] of the runtime contract at
    subscription ([computed] + [watch], or [watchEffect]): the watcher
    is owned by the active scope, if any, and starts watching. *)
Definition create_watcher (st : State) : State :=
  let st1 := match activeEffectScope st with
             | Some s => set_heap (alter (push_effect TopLevelWatch) s (heap st)) st
             | None => st
             end in
  set_watching true st1.

(** A state in which nothing has run yet: the ref holds [o]. *)
Definition initial (o : Obj) : State := mkState o [] [] None false [].

(** What the caller does after [useScopePerKey] returned. *)
Inductive Call :=
| SetValue (o : Obj)
| Dispose.

(** ** src/deep-reactivity.ts: [computed] + [watch], [flush: 'sync'] *)
Module DeepReactivity.

(** [inputKeys.filter((key) => !childScopes.has(key))] *)
Definition keysToAdd (inputKeys : list Key) (st : State) : list Key :=
  List.filter (fun key => negb (JsMap.has key (childScopes st))) inputKeys.

(** The body passed to [newScope.run]: [handler(key)], then the
    registration of the self-removing hook. *)
Definition scope_body (notify : State -> Outcome) (handler : Handler) (key : Key)
    (st : State) : Outcome :=
  match call_handler notify handler key st with
  | Normal st' => Normal (onScopeDispose (SelfRemove key) st')
  | r => r
  end.

(** The body of the loop over [keysToAdd], for one key. *)
Definition add_key (notify : State -> Outcome) (handler : Handler) (key : Key)
    (st : State) : Outcome :=
  let '(newScope, st1) := effectScope st in
  let st2 := childScopes_set key newScope st1 in
  EffectScope_run newScope (scope_body notify handler key) st2.

(** [for (const key of keysToAdd) { ... }]: a throw leaves the loop. *)
Fixpoint add_loop (notify : State -> Outcome) (handler : Handler)
    (keys : list Key) (st : State) : Outcome :=
  match keys with
  | [] => Normal st
  | key :: rest =>
      match add_key notify handler key st with
      | Normal st' => add_loop notify handler rest st'
      | r => r
      end
  end.

(** The watch callback. With [flush: 'sync'] a write to the ref made
    while the callback runs re-enters it at once; [fuel] bounds the
    depth of that re-entrance (and, in [dispose], the depth to which
    disposals nest). *)
Fixpoint watch_callback (fuel : nat) (handler : Handler) (inputKeys : list Key)
    (st : State) : Outcome :=
  match fuel with
  | 0 => Diverged
  | S fuel' =>
      add_loop
        (fun s => if watching s
                  then watch_callback fuel' handler (Object_keys (input s)) s
                  else Normal s)
        handler (keysToAdd inputKeys st) st
  end.

(** Modelled from the spec: [onChange] with [flush: 'sync'] of the
    runtime contract. A write of the ref runs the callback at once,
    with the keys of the new value, while the watcher is not stopped;
    this is also so for a write made by a handler while the callback
    runs (the specification's "recursive reconciliation"). *)
Definition notify (fuel : nat) (handler : Handler) (st : State) : Outcome :=
  if watching st
  then watch_callback fuel handler (Object_keys (input st)) st
  else Normal st.

(** [useScopePerKey(input, handler)]: the id of [parentScope] (held by
    the returned closure) and the outcome of the setup, which runs the
    callback once ([immediate: true]). *)
Definition useScopePerKey (fuel : nat) (handler : Handler) (st : State)
    : ScopeId * Outcome :=
  let '(parentScope, st1) := effectScope st in
  let st2 := set_childScopes [] st1 in
  (parentScope,
   EffectScope_run parentScope
     (fun s => let s1 := create_watcher s in
               watch_callback fuel handler (Object_keys (input s1)) s1)
     st2).

(** The returned function: [() => parentScope.stop()]. *)
Definition dispose (fuel : nat) (parentScope : ScopeId) (st : State) : Outcome :=
  stop_fuel fuel parentScope st.

(** One call of the caller, outside any scope: a write of the ref, or
    the returned function. *)
Definition call (fuel : nat) (handler : Handler) (parentScope : ScopeId)
    (c : Call) (st : State) : Outcome :=
  match c with
  | SetValue o => notify fuel handler (set_input o st)
  | Dispose => dispose fuel parentScope st
  end.

Fixpoint calls (fuel : nat) (handler : Handler) (parentScope : ScopeId)
    (cs : list Call) (st : State) : Outcome :=
  match cs with
  | [] => Normal st
  | c :: cs' =>
      match call fuel handler parentScope c st with
      | Normal st' => calls fuel handler parentScope cs' st'
      | r => r
      end
  end.

(** A whole session: set up on a ref holding [o], then the calls. *)
Definition session (fuel : nat) (handler : Handler) (o : Obj) (cs : list Call)
    : Outcome :=
  match useScopePerKey fuel handler (initial o) with
  | (parentScope, Normal st) => calls fuel handler parentScope cs st
  | (_, r) => r
  end.

End DeepReactivity.

(** ** The [watchEffect] variant *)
Module WatchEffect.

(** [inputKeys.filter((key) => !runningKeys.includes(key))] *)
Definition keysToAdd (inputKeys runningKeys : list Key) : list Key :=
  List.filter (fun key => negb (includes key runningKeys)) inputKeys.

(** [runningKeys.filter((key) => !inputKeys.includes(key))] *)
Definition keysToRemove (inputKeys runningKeys : list Key) : list Key :=
  List.filter (fun key => negb (includes key inputKeys)) runningKeys.

(** The body of the loop over [keysToRemove], for one key. [fuel]
    bounds the depth to which disposals nest. *)
Definition remove_key (fuel : nat) (key : Key) (st : State) : Outcome :=
  if negb (JsMap.has key (childScopes st)) then Normal st
  else
    match (match JsMap.get key (childScopes st) with
           | Some s => stop_fuel fuel s st
           | None => Normal st
           end) with
    | Normal st1 => Normal (childScopes_delete key st1)
    | r => r
    end.

(** [for (const key of keysToRemove) { ... }] *)
Fixpoint remove_loop (fuel : nat) (keys : list Key) (st : State) : Outcome :=
  match keys with
  | [] => Normal st
  | key :: rest =>
      match remove_key fuel key st with
      | Normal st' => remove_loop fuel rest st'
      | r => r
      end
  end.

(** Modelled from the spec: [onChange] with batched flush of the
    runtime contract. The effect is re-run by the scheduler, never
    inside its own run: a write made by a handler during the pass
    starts no nested pass. *)
Definition notify (st : State) : Outcome := Normal st.

(** The body of the loop over [keysToAdd], for one key. The [!] on
    [childScopes.get(key)] is a type assertion: an absent entry would
    make [.run] throw. *)
Definition add_key (handler : Handler) (key : Key) (st : State) : Outcome :=
  if JsMap.has key (childScopes st) then Normal st
  else
    let '(s, st1) := effectScope st in
    let st2 := childScopes_set key s st1 in
    match JsMap.get key (childScopes st2) with
    | Some s' => EffectScope_run s' (call_handler notify handler key) st2
    | None => Thrown st2
    end.

(** [for (const key of keysToAdd) { ... }]: a throw leaves the loop. *)
Fixpoint add_loop (handler : Handler) (keys : list Key) (st : State) : Outcome :=
  match keys with
  | [] => Normal st
  | key :: rest =>
      match add_key handler key st with
      | Normal st' => add_loop handler rest st'
      | r => r
      end
  end.

(** The function passed to [watchEffect]: one reconciliation pass. *)
Definition effect_body (fuel : nat) (handler : Handler) (st : State) : Outcome :=
  let inputKeys := Object_keys (input st) in
  let runningKeys := JsMap.keys (childScopes st) in
  let toAdd := keysToAdd inputKeys runningKeys in
  let toRemove := keysToRemove inputKeys runningKeys in
  match remove_loop fuel toRemove st with
  | Normal st1 => add_loop handler toAdd st1
  | r => r
  end.

(** [useScopePerKey(input, handler)]: the scope the watcher was
    created in, and the outcome of the setup, which runs the effect
    once. *)
Definition useScopePerKey (fuel : nat) (handler : Handler) (st : State)
    : ScopeId * Outcome :=
  let '(currentScope, st1) :=
    match getCurrentScope st with
    | Some s => (s, st)
    | None => effectScope st
    end in
  let st2 := set_childScopes [] st1 in
  (currentScope,
   EffectScope_run currentScope
     (fun s => effect_body fuel handler (create_watcher s)) st2).

(** The returned function: the handle [watchEffect] returned, which
    stops that watcher. *)
Definition stop (st : State) : State := stop_effect TopLevelWatch st.

(** Modelled from the spec: [onChange] with batched flush. After a
    write of the ref the effect does not run at once: the scheduler
    re-runs it when the batch has settled, while it is not stopped. *)
Definition rerun (fuel : nat) (handler : Handler) (st : State) : Outcome :=
  if watching st then effect_body fuel handler st else Normal st.

(** One call of the caller, taken up to the point where the scheduler
    has flushed: a write of the ref together with the re-run of the
    effect that follows it, or the returned function. *)
Definition call (fuel : nat) (handler : Handler) (c : Call) (st : State) : Outcome :=
  match c with
  | SetValue o => rerun fuel handler (set_input o st)
  | Dispose => Normal (stop st)
  end.

Fixpoint calls (fuel : nat) (handler : Handler) (cs : list Call) (st : State) : Outcome :=
  match cs with
  | [] => Normal st
  | c :: cs' =>
      match call fuel handler c st with
      | Normal st' => calls fuel handler cs' st'
      | r => r
      end
  end.

(** A whole session: set up on a ref holding [o], then the calls, each
    write followed by the flush. *)
Definition session (fuel : nat) (handler : Handler) (o : Obj) (cs : list Call) : Outcome :=
  match useScopePerKey fuel handler (initial o) with
  | (_, Normal st) => calls fuel handler cs st
  | (_, r) => r
  end.

End WatchEffect.

(** ** Observations on a state *)

(** The scopes that were registered for [key] at some time, oldest
    first, read off the trace. *)
Fixpoint scopes_registered_for (key : Key) (tr : list Event) : list ScopeId :=
  match tr with
  | [] => []
  | Registered k s :: tr' =>
      if String.eqb k key then s :: scopes_registered_for key tr'
      else scopes_registered_for key tr'
  | _ :: tr' => scopes_registered_for key tr'
  end.

(** The scopes created for [key] that are live. *)
Definition live_scopes_for (key : Key) (st : State) : list ScopeId :=
  List.filter (fun s => is_active s st) (scopes_registered_for key (trace st)).

(** The hooks that have fired, oldest first, with the scope they
    belonged to. *)
Fixpoint hooks_fired (tr : list Event) : list (ScopeId * Hook) :=
  match tr with
  | [] => []
  | HookFired s h :: tr' => (s, h) :: hooks_fired tr'
  | _ :: tr' => hooks_fired tr'
  end.

(** The keys the handler was invoked for, oldest first. *)
Fixpoint handler_calls (tr : list Event) : list Key :=
  match tr with
  | [] => []
  | HandlerCalled k _ :: tr' => k :: handler_calls tr'
  | _ :: tr' => handler_calls tr'
  end.

(** The outcome carries a state related to [st] by [R]. *)
Definition outcome_rel (R : State -> State -> Prop) (st : State) (r : Outcome) : Prop :=
  match r with
  | Normal st' => R st st'
  | Thrown st' => R st st'
  | Diverged => True
  end.

(** A handler-made write: some handler body contains [Write o]. *)
Definition written_by (handler : Handler) (o : Obj) : Prop :=
  exists key, In (Write o) (handler key).

(** The watched value after is the one before, or one a handler wrote. *)
Definition input_frame (handler : Handler) (st st' : State) : Prop :=
  input st' = input st \/ written_by handler (input st').

(** The events a disposal can record. *)
Definition disposal_event (e : Event) : Prop :=
  match e with
  | ScopeStopped _ | HookFired _ _ | Unregistered _ | WatchStopped => True
  | _ => False
  end.

(** ** Relations between the states before and after *)

(** Every scope that is inert in [a] is inert in [b]. *)
Definition stays_inert (a b : State) : Prop :=
  forall x, is_active x a = false -> is_active x b = false.

(** A watcher that is stopped in [a] is stopped in [b]. *)
Definition stays_unwatched (a b : State) : Prop :=
  watching a = false -> watching b = false.

(** What a stretch of a pass can change, from its start [st] to its end
    [st'] (normal or by a throw): every scope that existed keeps its
    liveness and its hooks, up to hooks the handler registered on it;
    an entry of the registry whose key is not in [keys] is kept; the
    watched value is the one before or one a handler wrote. *)
Record frame_rel (handler : Handler) (keys : list Key) (st st' : State) : Prop := {
  fr_heap : forall s sc, heap st !! s = Some sc ->
      exists sc', heap st' !! s = Some sc' /\ active sc' = active sc /\
                  exists us, cleanups sc' = cleanups sc ++ map UserHook us;
  fr_registry : forall k s, ~ In k keys ->
      JsMap.get k (childScopes st) = Some s -> JsMap.get k (childScopes st') = Some s;
  fr_input : input_frame handler st st'
}.

(** The same, and the active scope is again the one it was. *)
Definition pass_rel (handler : Handler) (keys : list Key) (st st' : State) : Prop :=
  activeEffectScope st' = activeEffectScope st /\ frame_rel handler keys st st'.

(** The scope carries hooks of the handler only. *)
Definition user_hooks_only (sc : EffectScope) : Prop :=
  forall k, ~ In (SelfRemove k) (cleanups sc).

(** No scope carries a self-removing hook, as in every state the
    [watchEffect] variant reaches. *)
Definition no_self_remove (st : State) : Prop := Forall user_hooks_only (heap st).

(** Same registry, and the same hooks on every scope. *)
Definition same_registry (a b : State) : Prop :=
  childScopes b = childScopes a /\ forall x, scope_cleanups x b = scope_cleanups x a.

(** Same registry, and still no self-removing hook. *)
Definition keeps_registry (a b : State) : Prop :=
  childScopes b = childScopes a /\ (no_self_remove a -> no_self_remove b).

(** The same scopes have been registered, key by key. *)
Definition same_registered (a b : State) : Prop :=
  forall k, scopes_registered_for k (trace b) = scopes_registered_for k (trace a).

(** No scope carries a self-removing hook, every scope that was
    registered has been allocated, and a live scope that was registered
    for a key is the one the registry holds for that key. *)
Definition registry_owns_live (st : State) : Prop :=
  no_self_remove st
  /\ (forall k s, In s (scopes_registered_for k (trace st)) -> s < length (heap st))
  /\ (forall k s, In s (live_scopes_for k st) -> JsMap.get k (childScopes st) = Some s).

(** If the invocation ends, it ends in a state with [P]. *)
Definition outcome_sat (P : State -> Prop) (r : Outcome) : Prop :=
  match r with
  | Normal st' => P st'
  | Thrown st' => P st'
  | Diverged => True
  end.

(** The invocation returns or throws. *)
Definition ends (r : Outcome) : Prop := r <> Diverged.

(** Wherever [n1] ends, [n2] gives the same outcome. *)
Definition agrees (n1 n2 : State -> Outcome) : Prop :=
  forall s, ends (n1 s) -> n2 s = n1 s.

(** The invocation ends, normally or by a throw, in a state with [P]. *)
Definition ends_in (P : State -> Prop) (r : Outcome) : Prop :=
  match r with
  | Normal st' => P st'
  | Thrown st' => P st'
  | Diverged => False
  end.



(** The active scope, if any, has been allocated. *)
Definition active_allocated (st : State) : Prop :=
  forall p, activeEffectScope st = Some p -> p < length (heap st).


(** Scope [s] carries no self-removing hook. *)
Definition no_self_remove_hook (s : ScopeId) (st : State) : Prop :=
  forall k, ~ In (SelfRemove k) (scope_cleanups s st).

(** ** Scenarios *)

(** A handler that registers one disposal hook (a marker) on its scope. *)
Definition marking : Handler := fun _ => [OnScopeDispose 0].

(** A handler that, when called for ["a"], writes an object with one
    more key to the watched ref, and does nothing for other keys. *)
Definition writer : Handler :=
  fun key => if String.eqb key "a" then [Write [("a", 1); ("b", 2); ("c", 3)]] else [].

(** The state the sync variant is in after it was set up on
    [{a: 1, b: 2}] with [writer]. *)
Definition stale_state : State :=
  Eval vm_compute in
    match DeepReactivity.session 2 writer [("a", 1); ("b", 2)] [] with
    | Normal st => st
    | _ => initial []
    end.



(** The state the sync variant is in after it was set up on [{a: 1}]
    with [marking]. *)
Definition sync_state_a : State :=
  Eval vm_compute in
    match DeepReactivity.session 1 marking [("a", 1)] [] with
    | Normal st => st
    | _ => initial []
    end.

(** ** Reading a handler body, a scope and the trace *)

(** The disposal hooks a handler body registers, in order, up to the
    point where it throws. *)
Fixpoint hooks_of (ops : list Op) : list Hook :=
  match ops with
  | [] => []
  | OnScopeDispose n :: ops' => UserHook n :: hooks_of ops'
  | Write _ :: ops' => hooks_of ops'
  | Throw :: _ => []
  end.

(** The handler never writes the watched ref. *)
Definition write_free (handler : Handler) : Prop :=
  forall key o, ~ In (Write o) (handler key).

(** The caller writes objects whose keys are distinct, as
    [Object.keys] gives them. *)
Definition distinct_keys (c : Call) : Prop :=
  match c with
  | SetValue o => List.NoDup (Object_keys o)
  | Dispose => True
  end.

(** The hooks of scope [s] that have fired, oldest first. *)
Fixpoint hooks_fired_of (s : ScopeId) (tr : list Event) : list Hook :=
  match tr with
  | [] => []
  | HookFired x h :: tr' =>
      if Nat.eqb x s then h :: hooks_fired_of s tr' else hooks_fired_of s tr'
  | _ :: tr' => hooks_fired_of s tr'
  end.

(** The effects a scope owns, and its child scopes. *)
Definition scope_effects (s : ScopeId) (st : State) : list Effect :=
  match heap st !! s with
  | Some sc => effects sc
  | None => []
  end.

Definition scope_children (s : ScopeId) (st : State) : list ScopeId :=
  match heap st !! s with
  | Some sc => scopes sc
  | None => []
  end.

(** Recording several events. *)
Definition emit_all (es : list Event) (st : State) : State :=
  fold_left (fun acc e => emit e acc) es st.

(** ** What the adding loops keep *)

(** Every scope of [a] is a scope of [b], as live as it was, owning the
    same effects and at least the same child scopes. *)
Definition keeps_scopes (a b : State) : Prop :=
  forall s sc, heap a !! s = Some sc ->
    exists sc', heap b !! s = Some sc' /\ active sc' = active sc
                /\ effects sc' = effects sc
                /\ forall c, In c (scopes sc) -> In c (scopes sc').

(** Every key that has an entry in [a] has one in [b]. *)
Definition keeps_keys (a b : State) : Prop :=
  forall k, JsMap.has k (childScopes a) = true -> JsMap.has k (childScopes b) = true.

(** From [a] to [b] no disposal hook has fired, no scope was stopped,
    no entry was deleted, and the watcher is as it was. *)
Definition nothing_disposed (a b : State) : Prop :=
  watching b = watching a
  /\ exists es, trace b = trace a ++ es /\ Forall (fun e => ~ disposal_event e) es.

(** What every step of the adding loops keeps. *)
Definition pass_keeps (a b : State) : Prop :=
  keeps_scopes a b /\ keeps_keys a b /\ nothing_disposed a b.

(** From [st] to [st'] the hooks [hs] were registered on scope [a], in
    this order, and no other hook on a scope of [st]; the active scope
    is again the one it was. *)
Definition hooks_added (a : ScopeId) (hs : list Hook) (st st' : State) : Prop :=
  activeEffectScope st' = activeEffectScope st
  /\ forall s sc, heap st !! s = Some sc ->
       exists sc', heap st' !! s = Some sc' /\ active sc' = active sc
                   /\ cleanups sc' = cleanups sc ++ (if decide (s = a) then hs else []).

(** No hook was registered on a scope of [st]. *)
Definition hooks_kept (st st' : State) : Prop :=
  activeEffectScope st' = activeEffectScope st
  /\ forall s sc, heap st !! s = Some sc ->
       exists sc', heap st' !! s = Some sc' /\ active sc' = active sc
                   /\ cleanups sc' = cleanups sc.

(** What a handler body keeps in the [watchEffect] variant, where a
    write starts no nested pass: the registry, the active scope, the
    watcher, and of every scope all but its hooks. *)
Definition handler_keeps (a b : State) : Prop :=
  childScopes b = childScopes a
  /\ activeEffectScope b = activeEffectScope a
  /\ watching b = watching a
  /\ trace b = trace a
  /\ length (heap b) = length (heap a)
  /\ forall s sc, heap a !! s = Some sc ->
       exists sc', heap b !! s = Some sc' /\ active sc' = active sc
                   /\ effects sc' = effects sc /\ scopes sc' = scopes sc.

(** The registry has an entry for exactly the keys of the watched
    object. *)
Definition registry_covers (st : State) : Prop :=
  forall k, In k (JsMap.keys (childScopes st)) <-> In k (Object_keys (input st)).

(** Every key of the watched object has an entry. *)
Definition covers_input (st : State) : Prop :=
  forall k, In k (Object_keys (input st)) -> JsMap.has k (childScopes st) = true.

(** From [a] to [b] the watcher is as it was, keys keep an entry, and
    either the ref holds the value it held or every key of the value
    it holds now has an entry. *)
Definition tracks_input (a b : State) : Prop :=
  watching b = watching a /\ keeps_keys a b
  /\ (input b = input a \/ covers_input b).

(** ** What a disposal does *)

(** No key gets an entry, and an entry that is there was there. *)
Definition registry_shrinks (a b : State) : Prop :=
  forall k c, JsMap.get k (childScopes b) = Some c -> JsMap.get k (childScopes a) = Some c.

(** From [a] to [b] the hooks of scope [c] have fired, once each and
    in registration order, if [c] was live and has become inert, and
    none of them has fired otherwise; an inert [c] stays inert, and
    its hooks are the same. *)
Definition disposal_fires (c : ScopeId) (a b : State) : Prop :=
  (is_active c a = false -> is_active c b = false)
  /\ scope_cleanups c b = scope_cleanups c a
  /\ hooks_fired_of c (trace b)
     = hooks_fired_of c (trace a)
       ++ (if is_active c a && negb (is_active c b) then scope_cleanups c a else []).

(** In the sync variant: the scope registered for a key is live and
    carries the self-removing hook of that key. *)
Definition self_removing (st : State) : Prop :=
  forall k c, JsMap.get k (childScopes st) = Some c ->
    In (SelfRemove k) (scope_cleanups c st) /\ is_active c st = true.

(** A child scope was created after its parent: its id is larger. *)
Definition children_later (st : State) : Prop :=
  forall p sc, heap st !! p = Some sc -> Forall (fun c => p < c) (scopes sc).

(** Every registered scope is a child scope of [p]. *)
Definition owned_by (p : ScopeId) (st : State) : Prop :=
  forall k c, JsMap.get k (childScopes st) = Some c -> In c (scope_children p st).

(** ** The states of the [watchEffect] variant between two passes *)

(** The scope registered for a key is live, owns no effect and has no
    child scope, is registered for no other key, and is not the active
    scope. *)
Definition leaf_registry (st : State) : Prop :=
  forall k s, JsMap.get k (childScopes st) = Some s ->
    (exists sc, heap st !! s = Some sc /\ active sc = true
                /\ effects sc = [] /\ scopes sc = [])
    /\ activeEffectScope st <> Some s
    /\ forall k', JsMap.get k' (childScopes st) = Some s -> k' = k.

(** The invariant of the [watchEffect] variant. *)
Definition effect_inv (st : State) : Prop :=
  registry_owns_live st /\ leaf_registry st /\ active_allocated st.

(** ** More scenarios *)

(** The state the [watchEffect] variant is in after it was set up on
    [{a: 1, b: 2}] with [marking]; and after the value then became
    [{b: 2, c: 3}]. *)
Definition effect_state : State :=
  Eval vm_compute in
    match WatchEffect.session 1 marking [("a", 1); ("b", 2)] [] with
    | Normal st => st
    | _ => initial []
    end.

Definition effect_state_later : State :=
  Eval vm_compute in
    match WatchEffect.session 1 marking [("a", 1); ("b", 2)]
            [SetValue [("b", 2); ("c", 3)]] with
    | Normal st => st
    | _ => initial []
    end.

(** A caller that is inside a live scope of its own (a component),
    with the ref holding [{a: 1, b: 2}]; and the state after the
    [watchEffect] variant was set up there with [marking]. *)
Definition enclosing : State :=
  mkState [("a", 1); ("b", 2)] [] [mkScope true None [] [] []] (Some 0) false [].

Definition effect_state_enclosed : State :=
  Eval vm_compute in
    match WatchEffect.useScopePerKey 1 marking enclosing with
    | (_, Normal st) => st
    | _ => initial []
    end.

(** The state the sync variant is in after it was set up on
    [{a: 1, b: 2}] with [marking]; and after the value then became
    [{b: 2, c: 3}]. *)
Definition sync_state : State :=
  Eval vm_compute in
    match DeepReactivity.session 1 marking [("a", 1); ("b", 2)] [] with
    | Normal st => st
    | _ => initial []
    end.

Definition sync_state_later : State :=
  Eval vm_compute in
    match DeepReactivity.session 1 marking [("a", 1); ("b", 2)]
            [SetValue [("b", 2); ("c", 3)]] with
    | Normal st => st
    | _ => initial []
    end.

(** The state the sync variant is in after it was set up on [{}] with
    [marking], the value became [{a: 1}], and the returned function
    was then called. *)
Definition sync_state_disposed : State :=
  Eval vm_compute in
    match DeepReactivity.session 1 marking [] [SetValue [("a", 1)]; Dispose] with
    | Normal st => st
    | _ => initial []
    end.

(** The state the sync variant is in after it was set up on
    [{a: 1, b: 2}] with [marking], the key ["a"] was removed, and
    was added again. *)
Definition sync_state_readded : State :=
  Eval vm_compute in
    match DeepReactivity.session 1 marking [("a", 1); ("b", 2)]
            [SetValue [("b", 2)]; SetValue [("a", 1); ("b", 2)]] with
    | Normal st => st
    | _ => initial []
    end.

(** * Lemmas *)

(** ** The JS [Map] *)

Lemma includes_In (key : Key) (l : list Key) :
  includes key l = true <-> In key l.
Proof.
  unfold includes. rewrite existsb_exists. split.
  - intros (x & Hx & He). apply String.eqb_eq in He. by subst.
  - intros H. exists key. split; [done | apply String.eqb_refl].
Qed.

Module JsMapFacts.
Import JsMap.

Lemma has_In key (m : t) : has key m = true <-> In key (keys m).
Proof.
  induction m as [|[k v] m IH]; simpl.
  - split; [discriminate | tauto].
  - destruct (String.eqb_spec k key) as [->|Hne].
    + split; auto.
    + rewrite IH. split; [auto | intros [H|H]; [congruence | done]].
Qed.

Lemma has_get key (m : t) : has key m = true <-> exists s, get key m = Some s.
Proof.
  induction m as [|[k v] m IH]; simpl.
  - split; [discriminate | intros [s Hs]; discriminate].
  - destruct (String.eqb k key); [|done]. split; eauto.
Qed.

Lemma has_false_get key (m : t) : has key m = false <-> get key m = None.
Proof.
  induction m as [|[k v] m IH]; simpl; [done|].
  destruct (String.eqb k key); [|done]. split; discriminate.
Qed.

Lemma get_set_eq key v (m : t) : get key (set key v m) = Some v.
Proof.
  induction m as [|[k v'] m IH]; simpl.
  - by rewrite String.eqb_refl.
  - destruct (String.eqb k key) eqn:E; simpl; by rewrite E.
Qed.

Lemma get_set_ne key k' v (m : t) : k' <> key -> get k' (set key v m) = get k' m.
Proof.
  intros Hne. induction m as [|[k v'] m IH]; simpl.
  - destruct (String.eqb_spec key k'); congruence.
  - destruct (String.eqb_spec k key) as [->|Hk]; simpl.
    + destruct (String.eqb_spec key k'); congruence.
    + by rewrite IH.
Qed.

Lemma has_set_eq key v (m : t) : has key (set key v m) = true.
Proof. apply has_get. eexists. apply get_set_eq. Qed.

Lemma has_delete_eq key (m : t) : has key (delete key m) = false.
Proof.
  induction m as [|[k v] m IH]; simpl; [done|].
  destruct (String.eqb k key) eqn:E; simpl; [done | by rewrite E].
Qed.

Lemma get_delete_ne key k' (m : t) : k' <> key -> get k' (delete key m) = get k' m.
Proof.
  intros Hne. induction m as [|[k v] m IH]; simpl; [done|].
  destruct (String.eqb_spec k key) as [->|Hk]; simpl.
  - rewrite IH. destruct (String.eqb_spec key k'); congruence.
  - by rewrite IH.
Qed.

Lemma keys_delete_In key k' (m : t) :
  In k' (keys (delete key m)) <-> In k' (keys m) /\ k' <> key.
Proof.
  induction m as [|[k v] m IH]; simpl; [tauto|].
  destruct (String.eqb_spec k key) as [->|Hk]; simpl.
  - rewrite IH. split; [tauto | intros [[H|H] Hn]; [congruence | done]].
  - rewrite IH. split; [intros [H|H]; [subst; tauto | tauto] | tauto].
Qed.

Lemma keys_set_In key k' v (m : t) :
  In k' (keys (set key v m)) <-> k' = key \/ In k' (keys m).
Proof.
  induction m as [|[k v'] m IH]; simpl.
  - split; [intros [H|H]; [auto | done] | intros [H|H]; [auto | done]].
  - destruct (String.eqb_spec k key) as [->|Hk]; simpl.
    + split; [auto | intros [H|H]; auto].
    + rewrite IH. split; [intros [H|[H|H]]; auto | intros [H|[H|H]]; auto].
Qed.

End JsMapFacts.

(** ** Outcomes *)

Lemma outcome_rel_step (R : State -> State -> Prop) a b r :
  (forall x y z, R x y -> R y z -> R x z) ->
  R a b -> outcome_rel R b r -> outcome_rel R a r.
Proof. intros Ht Hab. destruct r; simpl; eauto. Qed.

(** A run over a list respects every reflexive, transitive relation
    that each of its steps respects. *)
Lemma run_all_rel {A} (R : State -> State -> Prop) (f : A -> State -> Outcome) :
  (forall st, R st st) -> (forall a b c, R a b -> R b c -> R a c) ->
  (forall x st, outcome_rel R st (f x st)) ->
  forall l st, outcome_rel R st (run_all f l st).
Proof.
  intros Hr Ht Hf l. induction l as [|x l IH]; intros st; simpl; [apply Hr|].
  pose proof (Hf x st) as H. destruct (f x st) as [st'|st'|]; simpl in *; [|done|done].
  eapply outcome_rel_step; [exact Ht | exact H | apply IH].
Qed.

(** Where the run with [f] ends, the run with [g] is the same, if this
    is so for each step. *)
Lemma run_all_agree {A} (f g : A -> State -> Outcome) l :
  (forall x st, ends (f x st) -> g x st = f x st) ->
  forall st, ends (run_all f l st) -> run_all g l st = run_all f l st.
Proof.
  intros Hfg. unfold ends in *. induction l as [|x l IH]; intros st; simpl; [done|].
  pose proof (Hfg x st) as H.
  destruct (f x st) as [st'|st'|] eqn:E; intros He.
  - rewrite H by done. by apply IH.
  - by rewrite H.
  - done.
Qed.

Lemma emit_all_eq es st :
  emit_all es st
  = mkState (input st) (childScopes st) (heap st) (activeEffectScope st) (watching st)
      (trace st ++ es).
Proof.
  unfold emit_all. revert st. induction es as [|e es IH]; intros st; simpl.
  - rewrite app_nil_r. by destruct st.
  - rewrite IH. simpl. by rewrite <- app_assoc.
Qed.

(** ** Scope disposal *)

Lemma stop_fuel_S fuel s st :
  stop_fuel (S fuel) s st =
  match heap st !! s with
  | Some sc =>
      if active sc then
        match run_all (run_hook (stop_fuel fuel) s) (cleanups sc)
                (fold_left (fun acc e => stop_effect e acc) (effects sc) st) with
        | Normal st2 =>
            match run_all (stop_fuel fuel) (scopes sc) st2 with
            | Normal st3 =>
                Normal (emit (ScopeStopped s)
                          (set_heap (alter deactivate s (heap st3)) st3))
            | r => r
            end
        | r => r
        end
      else Normal st
  | None => Normal st
  end.
Proof. done. Qed.

(** Disposal acts on the state only by four kinds of update (recording
    one of its events, marking a scope inert, stopping the watcher,
    deleting an entry); a reflexive, transitive relation that each of
    them respects holds between the state before a disposal and the
    state in which it returns. The same holds of the removing loop of
    the [watchEffect] variant, which disposes and deletes. *)
Section StopRule.
Variable R : State -> State -> Prop.
Hypothesis R_refl : forall st, R st st.
Hypothesis R_trans : forall a b c, R a b -> R b c -> R a c.
Hypothesis R_emit : forall st e, disposal_event e -> R st (emit e st).
Hypothesis R_deactivate :
  forall st s, R st (set_heap (alter deactivate s (heap st)) st).
Hypothesis R_unwatch : forall st, R st (set_watching false st).
Hypothesis R_delete :
  forall st key, R st (set_childScopes (JsMap.delete key (childScopes st)) st).

Lemma fold_left_rule {A} (f : State -> A -> State) :
  (forall st a, R st (f st a)) -> forall l st, R st (fold_left f l st).
Proof.
  intros Hf l. induction l as [|a l IH]; intros st; simpl; [apply R_refl|].
  eapply R_trans; [apply Hf | apply IH].
Qed.

Lemma stop_effect_rule e st : R st (stop_effect e st).
Proof.
  destruct e. unfold stop_effect. destruct (watching st); [|apply R_refl].
  eapply R_trans; [apply R_unwatch | by apply R_emit].
Qed.

Lemma childScopes_delete_rule key st : R st (childScopes_delete key st).
Proof. unfold childScopes_delete. eapply R_trans; [apply R_delete | by apply R_emit]. Qed.

Lemma selfRemove_rule stop key st :
  (forall s st', outcome_rel R st' (stop s st')) ->
  outcome_rel R st (selfRemove stop key st).
Proof.
  intros Hstop. unfold selfRemove.
  destruct (negb (JsMap.has key (childScopes st))); [apply R_refl|].
  destruct (JsMap.get key (childScopes st)) as [s|].
  - pose proof (Hstop s st) as H.
    destruct (stop s st) as [st1|st1|]; simpl in *; [|done|done].
    eapply R_trans; [exact H | apply childScopes_delete_rule].
  - simpl. apply childScopes_delete_rule.
Qed.

Lemma run_hook_rule stop owner h st :
  (forall s st', outcome_rel R st' (stop s st')) ->
  outcome_rel R st (run_hook stop owner h st).
Proof.
  intros Hstop. unfold run_hook.
  apply outcome_rel_step with (b := emit (HookFired owner h) st);
    [exact R_trans | by apply R_emit |].
  destruct h; [by apply selfRemove_rule | apply R_refl].
Qed.

Lemma stop_fuel_rule fuel : forall s st, outcome_rel R st (stop_fuel fuel s st).
Proof.
  induction fuel as [|fuel IH]; intros s st; [done|]. rewrite stop_fuel_S.
  destruct (heap st !! s) as [sc|]; [|apply R_refl].
  destruct (active sc); [|apply R_refl].
  set (st1 := fold_left (fun acc e => stop_effect e acc) (effects sc) st).
  assert (H1 : R st st1) by (apply fold_left_rule; intros; apply stop_effect_rule).
  pose proof (run_all_rel R (run_hook (stop_fuel fuel) s) R_refl R_trans
                (fun h a => run_hook_rule (stop_fuel fuel) s h a IH) (cleanups sc) st1) as H2.
  destruct (run_all (run_hook (stop_fuel fuel) s) (cleanups sc) st1) as [st2|st2|];
    simpl in *; [|eauto|done].
  pose proof (run_all_rel R (stop_fuel fuel) R_refl R_trans IH (scopes sc) st2) as H3.
  destruct (run_all (stop_fuel fuel) (scopes sc) st2) as [st3|st3|];
    simpl in *; [|eauto|done].
  eapply R_trans; [exact H1|]. eapply R_trans; [exact H2|]. eapply R_trans; [exact H3|].
  eapply R_trans; [apply R_deactivate | by apply R_emit].
Qed.

Lemma stop_fuel_Normal_rule fuel s st st' : stop_fuel fuel s st = Normal st' -> R st st'.
Proof. intros H. pose proof (stop_fuel_rule fuel s st) as Hr. by rewrite H in Hr. Qed.

Lemma remove_key_rule fuel key st :
  outcome_rel R st (WatchEffect.remove_key fuel key st).
Proof.
  unfold WatchEffect.remove_key.
  destruct (negb (JsMap.has key (childScopes st))); [apply R_refl|].
  destruct (JsMap.get key (childScopes st)) as [s|].
  - pose proof (stop_fuel_rule fuel s st) as H.
    destruct (stop_fuel fuel s st) as [st1|st1|]; simpl in *; [|done|done].
    eapply R_trans; [exact H | apply childScopes_delete_rule].
  - simpl. apply childScopes_delete_rule.
Qed.

Lemma remove_loop_rule fuel keys :
  forall st, outcome_rel R st (WatchEffect.remove_loop fuel keys st).
Proof.
  induction keys as [|key rest IH]; intros st; simpl; [apply R_refl|].
  pose proof (remove_key_rule fuel key st) as H.
  destruct (WatchEffect.remove_key fuel key st) as [st1|st1|]; simpl in *; [|done|done].
  eapply outcome_rel_step; [exact R_trans | exact H | apply IH].
Qed.

Lemma remove_loop_Normal_rule fuel keys st st' :
  WatchEffect.remove_loop fuel keys st = Normal st' -> R st st'.
Proof. intros H. pose proof (remove_loop_rule fuel keys st) as Hr. by rewrite H in Hr. Qed.

End StopRule.

(** A disposal returns or does not return: no hook of the model
    throws. *)
Lemma run_all_not_thrown {A} (f : A -> State -> Outcome) l :
  (forall x a b, f x a <> Thrown b) -> forall st st', run_all f l st <> Thrown st'.
Proof.
  intros Hf. induction l as [|x l IH]; intros st st'; simpl; [done|].
  pose proof (Hf x st) as H. destruct (f x st) as [a|a|]; [apply IH | by destruct (H a) | done].
Qed.

Lemma stop_fuel_not_thrown fuel : forall s st st', stop_fuel fuel s st <> Thrown st'.
Proof.
  induction fuel as [|fuel IH]; intros s st st'; [done|]. rewrite stop_fuel_S.
  destruct (heap st !! s) as [sc|]; [|done]. destruct (active sc); [|done].
  match goal with |- context [run_all (run_hook ?stop s) ?l ?a] =>
    pose proof (run_all_not_thrown (run_hook stop s) l) as H2;
    destruct (run_all (run_hook stop s) l a) as [st2|st2|] eqn:E2
  end; [| |done].
  - pose proof (run_all_not_thrown (stop_fuel fuel) (scopes sc) IH st2) as H3.
    destruct (run_all (stop_fuel fuel) (scopes sc) st2) as [st3|st3|]; [done| |done].
    by destruct (H3 st3).
  - exfalso. eapply H2; [|exact E2]. intros h a b. unfold run_hook.
    destruct h as [key|n]; [|done]. unfold selfRemove.
    destruct (negb _); [done|]. destruct (JsMap.get key _) as [x|]; [|done].
    pose proof (IH x (emit (HookFired s (SelfRemove key)) a)) as Hx.
    destruct (stop_fuel fuel x _) as [c|c|]; [done | by destruct (Hx c) | done].
Qed.

Lemma is_active_deactivate x s st :
  is_active x (set_heap (alter deactivate s (heap st)) st)
  = if decide (s = x) then false else is_active x st.
Proof.
  unfold is_active; simpl. destruct (decide (s = x)) as [->|Hne].
  - rewrite list_lookup_alter_eq. by destruct (heap st !! x).
  - by rewrite list_lookup_alter_ne.
Qed.

Lemma stop_fuel_input fuel s st st' :
  stop_fuel fuel s st = Normal st' -> input st' = input st.
Proof.
  apply (stop_fuel_Normal_rule (fun a b => input b = input a)); try done.
  intros a b c H1 H2. by rewrite H2.
Qed.

Lemma stop_fuel_heap_length fuel s st st' :
  stop_fuel fuel s st = Normal st' -> length (heap st') = length (heap st).
Proof.
  apply (stop_fuel_Normal_rule (fun a b => length (heap b) = length (heap a))); try done.
  - intros a b c H1 H2. by rewrite H2.
  - intros a x. simpl. apply length_alter.
Qed.

Lemma scope_cleanups_deactivate x s st :
  scope_cleanups x (set_heap (alter deactivate s (heap st)) st) = scope_cleanups x st.
Proof.
  unfold scope_cleanups; simpl. destruct (decide (s = x)) as [->|Hne].
  - rewrite list_lookup_alter_eq. by destruct (heap st !! x).
  - by rewrite list_lookup_alter_ne.
Qed.

Lemma stays_inert_refl st : stays_inert st st.
Proof. by intros x. Qed.

Lemma stays_inert_trans a b c : stays_inert a b -> stays_inert b c -> stays_inert a c.
Proof. intros H1 H2 x Hx. auto. Qed.

Lemma stays_inert_deactivate st s :
  stays_inert st (set_heap (alter deactivate s (heap st)) st).
Proof. intros x Hx. rewrite is_active_deactivate. by case_decide. Qed.

Lemma stays_inert_same_heap a b : heap b = heap a -> stays_inert a b.
Proof. intros H x. unfold is_active. by rewrite H. Qed.

Create HintDb inert.
#[local] Hint Resolve stays_inert_refl stays_inert_deactivate : inert.
#[local] Hint Extern 1 (stays_inert _ _) =>
  (apply stays_inert_same_heap; reflexivity) : inert.

Lemma stop_fuel_stays_inert fuel s st st' :
  stop_fuel fuel s st = Normal st' -> stays_inert st st'.
Proof. apply stop_fuel_Normal_rule; eauto using stays_inert_trans with inert. Qed.

(** Disposing an inert or unknown scope changes nothing. *)
Lemma stop_fuel_inactive fuel s st :
  is_active s st = false -> stop_fuel (S fuel) s st = Normal st.
Proof.
  unfold is_active. rewrite stop_fuel_S.
  destruct (heap st !! s) as [sc|]; [|done]. by intros ->.
Qed.

(** When its disposal has returned a scope is inert. *)
Lemma stop_fuel_stops fuel s st st' :
  stop_fuel fuel s st = Normal st' -> is_active s st' = false.
Proof.
  destruct fuel as [|fuel]; [done|]. rewrite stop_fuel_S. unfold is_active.
  destruct (heap st !! s) as [sc|] eqn:Hs; [|by intros [= <-]; rewrite Hs].
  destruct (active sc) eqn:Hact; [|by intros [= <-]; rewrite Hs].
  destruct (run_all (run_hook (stop_fuel fuel) s) _ _) as [st2|st2|]; [|done|done].
  destruct (run_all (stop_fuel fuel) _ st2) as [st3|st3|]; [|done|done].
  intros [= <-]. simpl. rewrite list_lookup_alter_eq. by destruct (heap st3 !! s).
Qed.

(** *** More fuel changes no disposal that returns

    The fuel bounds the depth to which disposals nest: a disposal that
    returns with some fuel returns in the same state with any more. *)

Lemma run_hook_agree stop1 stop2 owner h st :
  (forall s a, ends (stop1 s a) -> stop2 s a = stop1 s a) ->
  ends (run_hook stop1 owner h st) -> run_hook stop2 owner h st = run_hook stop1 owner h st.
Proof.
  intros Hag. unfold run_hook, ends in *. destruct h as [key|n]; [|done].
  unfold selfRemove. destruct (negb _); [done|].
  destruct (JsMap.get key _) as [x|]; [|done].
  pose proof (Hag x (emit (HookFired owner (SelfRemove key)) st)) as H.
  destruct (stop1 x _) as [a|a|] eqn:E; intros He; [by rewrite H | by rewrite H | done].
Qed.

Lemma stop_fuel_succ fuel :
  forall s st, ends (stop_fuel fuel s st) -> stop_fuel (S fuel) s st = stop_fuel fuel s st.
Proof.
  induction fuel as [|fuel IH]; intros s st; [intros H; by destruct H|].
  rewrite (stop_fuel_S (S fuel)), (stop_fuel_S fuel). unfold ends.
  destruct (heap st !! s) as [sc|]; [|done]. destruct (active sc); [|done].
  set (st1 := fold_left (fun acc e => stop_effect e acc) (effects sc) st).
  pose proof (run_all_agree (run_hook (stop_fuel fuel) s) (run_hook (stop_fuel (S fuel)) s)
                (cleanups sc)
                (fun h a => run_hook_agree (stop_fuel fuel) (stop_fuel (S fuel)) s h a IH)
                st1) as H2.
  unfold ends in H2.
  destruct (run_all (run_hook (stop_fuel fuel) s) (cleanups sc) st1) as [st2|st2|] eqn:E2;
    intros He; [|by rewrite H2|done].
  rewrite H2 by done.
  pose proof (run_all_agree (stop_fuel fuel) (stop_fuel (S fuel)) (scopes sc) IH st2) as H3.
  unfold ends in H3.
  destruct (run_all (stop_fuel fuel) (scopes sc) st2) as [st3|st3|] eqn:E3;
    [by rewrite H3 | by rewrite H3 | done].
Qed.

Lemma stop_fuel_add fuel n s st :
  ends (stop_fuel fuel s st) -> stop_fuel (fuel + n) s st = stop_fuel fuel s st.
Proof.
  intros He. induction n as [|n IH]; [by rewrite Nat.add_0_r|].
  rewrite Nat.add_succ_r, stop_fuel_succ; rewrite IH; done.
Qed.

(** *** Disposing a scope that carries hooks of the handler only *)

Lemma run_all_user_hooks stop s (l : list Hook) :
  (forall k, ~ In (SelfRemove k) l) ->
  forall st, run_all (run_hook stop s) l st = Normal (emit_all (map (HookFired s) l) st).
Proof.
  unfold emit_all. induction l as [|h l IH]; intros Hl st; [done|].
  cbn [run_all map fold_left]. destruct h as [k|n].
  - exfalso. apply (Hl k). by left.
  - cbn [run_hook]. apply IH. intros k Hk. apply (Hl k). by right.
Qed.

(** Disposing a live scope that owns no effect, has no child scope and
    carries hooks of the handler only: its hooks fire, once each, in
    registration order, and the scope is then marked inert; nothing
    else changes. *)
Lemma stop_leaf fuel s sc st :
  heap st !! s = Some sc -> active sc = true -> effects sc = [] -> scopes sc = [] ->
  user_hooks_only sc ->
  stop_fuel (S fuel) s st
  = Normal (mkState (input st) (childScopes st) (alter deactivate s (heap st))
              (activeEffectScope st) (watching st)
              (trace st ++ map (HookFired s) (cleanups sc) ++ [ScopeStopped s])).
Proof.
  intros Hs Hact He Hch Hu. rewrite stop_fuel_S, Hs, Hact, He, Hch. cbn [fold_left].
  rewrite run_all_user_hooks by done. cbn [run_all].
  rewrite emit_all_eq. unfold emit, set_heap. simpl. by rewrite <- app_assoc.
Qed.

(** ** What a pass can change *)

Section PassRel.
Variable handler : Handler.

Lemma frame_rel_refl keys st : frame_rel handler keys st st.
Proof.
  split; [| done | by left].
  intros s sc Hs. exists sc. repeat split; [done|]. exists []. simpl. by rewrite app_nil_r.
Qed.

Lemma frame_rel_trans keys a b c :
  frame_rel handler keys a b -> frame_rel handler keys b c -> frame_rel handler keys a c.
Proof.
  intros [H1 R1 I1] [H2 R2 I2]. split.
  - intros s sc Hs. destruct (H1 s sc Hs) as (sc1 & Hs1 & A1 & us1 & C1).
    destruct (H2 s sc1 Hs1) as (sc2 & Hs2 & A2 & us2 & C2).
    exists sc2. repeat split; [done | congruence |].
    exists (us1 ++ us2). rewrite C2, C1, map_app. by rewrite app_assoc.
  - intros k s Hk Hg. eauto.
  - unfold input_frame in *. destruct I2 as [I2|I2]; [|by right].
    rewrite I2. done.
Qed.

Lemma frame_rel_weaken keys keys' a b :
  (forall k, In k keys -> In k keys') ->
  frame_rel handler keys a b -> frame_rel handler keys' a b.
Proof. intros Hsub [H R I]. split; [done | | done]. intros k s Hk. apply R. auto. Qed.

Lemma frame_rel_same keys a b :
  heap b = heap a -> childScopes b = childScopes a -> input b = input a ->
  frame_rel handler keys a b.
Proof.
  intros Hh Hc Hi. split.
  - intros s sc Hs. exists sc. rewrite Hh. repeat split; [done|].
    exists []. simpl. by rewrite app_nil_r.
  - intros k s _. by rewrite Hc.
  - by left.
Qed.

Lemma frame_rel_effectScope keys st : frame_rel handler keys st (snd (effectScope st)).
Proof.
  split; [| done | by left].
  intros s sc Hs. simpl.
  assert (Hs1 : (heap st ++ [mkScope true (activeEffectScope st) [] [] []]) !! s = Some sc)
    by by apply lookup_app_l_Some.
  destruct (activeEffectScope st) as [p|].
  - destruct (decide (p = s)) as [->|Hne].
    + exists (push_scope (length (heap st)) sc). rewrite list_lookup_alter_eq, Hs1.
      repeat split. exists []. simpl. by rewrite app_nil_r.
    + exists sc. rewrite list_lookup_alter_ne by done.
      repeat split; [done|]. exists []. simpl. by rewrite app_nil_r.
  - exists sc. repeat split; [done|]. exists []. simpl. by rewrite app_nil_r.
Qed.

Lemma frame_rel_childScopes_set keys key s st :
  In key keys -> frame_rel handler keys st (childScopes_set key s st).
Proof.
  intros Hin. split; [| | by left].
  - intros x sc Hx. exists sc. repeat split; [done|].
    exists []. simpl. by rewrite app_nil_r.
  - intros k x Hk Hg. simpl. rewrite JsMapFacts.get_set_ne; [done|].
    intros ->. done.
Qed.

Lemma frame_rel_user_hook keys n st :
  frame_rel handler keys st (onScopeDispose (UserHook n) st).
Proof.
  unfold onScopeDispose. destruct (activeEffectScope st) as [a|]; [|apply frame_rel_refl].
  split; [| done | by left].
  intros s sc Hs. simpl. destruct (decide (a = s)) as [->|Hne].
  - exists (push_cleanup (UserHook n) sc). rewrite list_lookup_alter_eq, Hs.
    repeat split. by exists [n].
  - exists sc. rewrite list_lookup_alter_ne by done.
    repeat split; [done|]. exists []. simpl. by rewrite app_nil_r.
Qed.

(** A hook registered on a scope created after [st] changes nothing
    that [st] knew. *)
Lemma frame_rel_fresh_hook keys h st st' n :
  frame_rel handler keys st st' ->
  activeEffectScope st' = Some n -> length (heap st) <= n ->
  frame_rel handler keys st (onScopeDispose h st').
Proof.
  intros [H R I] Ha Hn. unfold onScopeDispose. rewrite Ha. split; [| done | done].
  intros s sc Hs. simpl.
  assert (s < length (heap st)) by (apply lookup_lt_is_Some; eauto).
  rewrite list_lookup_alter_ne by lia. eauto.
Qed.

Lemma frame_rel_write keys o st :
  written_by handler o -> frame_rel handler keys st (set_input o st).
Proof.
  intros Hw. split; [| done | by right].
  intros s sc Hs. exists sc. repeat split; [done|]. exists []. simpl. by rewrite app_nil_r.
Qed.

Lemma onScopeDispose_activeEffectScope h st :
  activeEffectScope (onScopeDispose h st) = activeEffectScope st.
Proof. unfold onScopeDispose. by destruct (activeEffectScope st) eqn:E. Qed.

Lemma pass_rel_refl keys st : pass_rel handler keys st st.
Proof. split; [done | apply frame_rel_refl]. Qed.

Lemma pass_rel_trans keys a b c :
  pass_rel handler keys a b -> pass_rel handler keys b c -> pass_rel handler keys a c.
Proof.
  intros [A1 F1] [A2 F2]. split; [congruence | by eapply frame_rel_trans].
Qed.

Lemma pass_rel_weaken keys keys' a b :
  (forall k, In k keys -> In k keys') ->
  pass_rel handler keys a b -> pass_rel handler keys' a b.
Proof. intros Hsub [A F]. split; [done | by eapply frame_rel_weaken]. Qed.

Lemma outcome_rel_trans keys a b r :
  pass_rel handler keys a b -> outcome_rel (pass_rel handler keys) b r ->
  outcome_rel (pass_rel handler keys) a r.
Proof. intros Hab. destruct r; simpl; eauto using pass_rel_trans. Qed.

Lemma outcome_rel_weaken keys keys' a r :
  (forall k, In k keys -> In k keys') ->
  outcome_rel (pass_rel handler keys) a r -> outcome_rel (pass_rel handler keys') a r.
Proof. intros Hsub. destruct r; simpl; eauto using pass_rel_weaken. Qed.

(** The scope [effectScope] returns is live in the state it returns. *)
Lemma effectScope_active st :
  is_active (fst (effectScope st)) (snd (effectScope st)) = true.
Proof.
  unfold is_active. simpl.
  assert (Hn : (heap st ++ [mkScope true (activeEffectScope st) [] [] []])
                 !! length (heap st)
               = Some (mkScope true (activeEffectScope st) [] [] [])).
  { rewrite lookup_app_r by lia. by rewrite Nat.sub_diag. }
  destruct (activeEffectScope st) as [p|]; [|by rewrite Hn].
  destruct (decide (p = length (heap st))) as [->|Hne].
  - by rewrite list_lookup_alter_eq, Hn.
  - by rewrite list_lookup_alter_ne, Hn.
Qed.

Lemma effectScope_cleanups st :
  scope_cleanups (fst (effectScope st)) (snd (effectScope st)) = [].
Proof.
  unfold scope_cleanups. simpl.
  assert (Hn : (heap st ++ [mkScope true (activeEffectScope st) [] [] []])
                 !! length (heap st)
               = Some (mkScope true (activeEffectScope st) [] [] [])).
  { rewrite lookup_app_r by lia. by rewrite Nat.sub_diag. }
  destruct (activeEffectScope st) as [p|]; [|by rewrite Hn].
  destruct (decide (p = length (heap st))) as [->|Hne].
  - by rewrite list_lookup_alter_eq, Hn.
  - by rewrite list_lookup_alter_ne, Hn.
Qed.

Section WithNotify.
Variable notify : State -> Outcome.
Hypothesis Hnotify : forall s, outcome_rel (pass_rel handler []) s (notify s).

Lemma run_ops_rel ops :
  (forall o, In (Write o) ops -> written_by handler o) ->
  forall st, outcome_rel (pass_rel handler []) st (run_ops notify ops st).
Proof.
  induction ops as [|op ops IH]; intros Hw st; simpl; [apply pass_rel_refl|].
  assert (Hw' : forall o, In (Write o) ops -> written_by handler o)
    by (intros o Ho; apply (Hw o); by right).
  destruct op as [n|o|].
  - eapply outcome_rel_trans; [|by apply IH].
    split; [apply onScopeDispose_activeEffectScope | apply frame_rel_user_hook].
  - assert (H0 : pass_rel handler [] st (set_input o st)).
    { split; [done|]. apply frame_rel_write, Hw. by left. }
    pose proof (Hnotify (set_input o st)) as Hn.
    destruct (notify (set_input o st)) as [st'| st'|]; simpl in *; [| |done].
    + eapply outcome_rel_trans; [|by apply IH]. eauto using pass_rel_trans.
    + eauto using pass_rel_trans.
  - apply pass_rel_refl.
Qed.

Lemma call_handler_rel key st :
  outcome_rel (pass_rel handler []) st (call_handler notify handler key st).
Proof.
  unfold call_handler.
  assert (Hw : forall o, In (Write o) (handler key) -> written_by handler o)
    by (intros o Ho; by exists key).
  destruct (activeEffectScope st) as [s|] eqn:Ha; [|by apply run_ops_rel].
  eapply outcome_rel_trans; [|by apply run_ops_rel].
  split; [done | by apply frame_rel_same].
Qed.

End WithNotify.

End PassRel.

(** ** The state in which a handler starts *)

Lemma handler_entry_eq key st :
  handler_entry key st
  = set_activeEffectScope (Some (length (heap st)))
      (childScopes_set key (length (heap st)) (snd (effectScope st))).
Proof. done. Qed.

Lemma handler_entry_activeEffectScope key st :
  activeEffectScope (handler_entry key st) = Some (length (heap st)).
Proof. done. Qed.

Lemma handler_entry_get key st :
  JsMap.get key (childScopes (handler_entry key st)) = Some (length (heap st)).
Proof. simpl. apply JsMapFacts.get_set_eq. Qed.

Lemma handler_entry_scope key st :
  exists sc, heap (handler_entry key st) !! length (heap st) = Some sc
             /\ active sc = true /\ cleanups sc = [].
Proof.
  pose proof (effectScope_active st) as Ha.
  pose proof (effectScope_cleanups st) as Hc.
  unfold is_active, scope_cleanups in *.
  change (heap (handler_entry key st)) with (heap (snd (effectScope st))).
  change (fst (effectScope st)) with (length (heap st)) in *.
  destruct (heap (snd (effectScope st)) !! length (heap st)) as [sc|]; [|done].
  by exists sc.
Qed.

Lemma handler_entry_frame handler key keys st :
  In key keys -> frame_rel handler keys st (handler_entry key st).
Proof.
  intros Hin. rewrite handler_entry_eq.
  eapply frame_rel_trans; [apply frame_rel_effectScope|].
  eapply frame_rel_trans; [by apply frame_rel_childScopes_set|].
  by apply frame_rel_same.
Qed.

Section HandlerExit.
Variable handler : Handler.
Variable notify : State -> Outcome.
Hypothesis Hnotify : forall s, outcome_rel (pass_rel handler []) s (notify s).

(** What is known when [handler(key)] has ended, in either way. *)
Lemma handler_exit key st r :
  call_handler notify handler key (handler_entry key st) = r ->
  outcome_rel (fun _ s' =>
    activeEffectScope s' = Some (length (heap st))
    /\ frame_rel handler [key] st s'
    /\ JsMap.get key (childScopes s') = Some (length (heap st))
    /\ is_active (length (heap st)) s' = true
    /\ exists us, scope_cleanups (length (heap st)) s' = map UserHook us) st r.
Proof.
  intros <-.
  pose proof (call_handler_rel handler notify Hnotify key (handler_entry key st)) as H.
  assert (Hgoal : forall s', pass_rel handler [] (handler_entry key st) s' ->
    activeEffectScope s' = Some (length (heap st))
    /\ frame_rel handler [key] st s'
    /\ JsMap.get key (childScopes s') = Some (length (heap st))
    /\ is_active (length (heap st)) s' = true
    /\ exists us, scope_cleanups (length (heap st)) s' = map UserHook us).
  { intros s' [Ha F]. split; [by rewrite Ha|]. split.
    { eapply frame_rel_trans; [apply handler_entry_frame; by left|].
      eapply frame_rel_weaken; [|exact F]. intros k []. }
    destruct F as [Hh Hr _]. split.
    { apply Hr; [by intros [] | apply handler_entry_get]. }
    destruct (handler_entry_scope key st) as (sc & Hsc & Hact & Hcl).
    destruct (Hh _ _ Hsc) as (sc' & Hsc' & Hact' & us & Hcl').
    unfold is_active, scope_cleanups. rewrite Hsc'. split; [congruence|].
    exists us. by rewrite Hcl', Hcl. }
  destruct (call_handler notify handler key (handler_entry key st)); simpl in *; auto.
Qed.

End HandlerExit.

(** ** The sync variant *)
Module DeepReactivityFacts.
Import DeepReactivity.

(** The loop body for one key, in terms of the handler's outcome. *)
Lemma sync_add_key_eq notify handler key st :
  add_key notify handler key st =
  match call_handler notify handler key (handler_entry key st) with
  | Normal s' =>
      Normal (set_activeEffectScope (activeEffectScope st)
                (onScopeDispose (SelfRemove key) s'))
  | Thrown s' => Thrown (set_activeEffectScope (activeEffectScope st) s')
  | Diverged => Diverged
  end.
Proof.
  unfold add_key, EffectScope_run.
  pose proof (effectScope_active st) as Ha. simpl in Ha.
  unfold is_active in *. simpl in *.
  destruct (_ !! length (heap st)) as [sc|]; [|done]. rewrite Ha.
  unfold scope_body, handler_entry. simpl.
  by destruct (call_handler notify handler key _).
Qed.


Lemma watch_callback_eq fuel handler inputKeys st :
  watch_callback (S fuel) handler inputKeys st
  = add_loop (notify fuel handler) handler (keysToAdd inputKeys st) st.
Proof. done. Qed.

Section SyncLoop.
Variable handler : Handler.
Variable notify : State -> Outcome.
Hypothesis Hnotify : forall s, outcome_rel (pass_rel handler []) s (notify s).

Lemma sync_add_loop_rel keys :
  forall st, outcome_rel (pass_rel handler keys) st (add_loop notify handler keys st).
Proof.
  induction keys as [|key rest IH]; intros st; [apply pass_rel_refl|].
  simpl. rewrite sync_add_key_eq.
  pose proof (handler_exit handler notify Hnotify key st _ eq_refl) as H.
  destruct (call_handler notify handler key (handler_entry key st)) as [s'|s'|];
    simpl in H; [| |done].
  - destruct H as (Ha & F & _).
    eapply outcome_rel_trans;
      [|eapply outcome_rel_weaken; [|apply IH]; intros k Hk; by right].
    split; [done|].
    apply frame_rel_trans with (b := onScopeDispose (SelfRemove key) s');
      [|by apply frame_rel_same].
    eapply frame_rel_weaken;
      [|eapply frame_rel_fresh_hook; [exact F | exact Ha | lia]].
    intros k [<-|[]]. by left.
  - destruct H as (Ha & F & _). split; [done|].
    apply frame_rel_trans with (b := s'); [|by apply frame_rel_same].
    eapply frame_rel_weaken; [|exact F]. intros k [<-|[]]. by left.
Qed.

End SyncLoop.

(** A key that is registered when the callback starts is not among
    the keys it adds. *)
Lemma keysToAdd_unregistered inputKeys st k :
  In k (keysToAdd inputKeys st) -> JsMap.get k (childScopes st) = None.
Proof.
  unfold keysToAdd. rewrite filter_In. intros [_ H].
  apply JsMapFacts.has_false_get. by destruct (JsMap.has k (childScopes st)).
Qed.

Lemma watch_callback_rel handler fuel :
  forall inputKeys st,
    outcome_rel (pass_rel handler []) st (watch_callback fuel handler inputKeys st).
Proof.
  induction fuel as [|fuel IH]; intros inputKeys st; simpl; [done|].
  match goal with |- outcome_rel _ _ (add_loop ?n _ _ _) => set (nfy := n) end.
  assert (Hn : forall s, outcome_rel (pass_rel handler []) s (nfy s)).
  { intros s. unfold nfy. destruct (watching s); [apply IH | apply pass_rel_refl]. }
  pose proof (sync_add_loop_rel handler nfy Hn (keysToAdd inputKeys st) st) as H.
  assert (Hstr : forall s', pass_rel handler (keysToAdd inputKeys st) st s' ->
                            pass_rel handler [] st s').
  { intros s' [Ha [Hh Hr Hi]]. split; [done|]. split; [done| |done].
    intros k s _ Hg. apply Hr; [|done].
    intros Hin. apply keysToAdd_unregistered in Hin. congruence. }
  destruct (add_loop nfy handler (keysToAdd inputKeys st) st); simpl in *; auto.
Qed.

Lemma sync_notify_rel handler fuel s :
  outcome_rel (pass_rel handler []) s (notify fuel handler s).
Proof.
  unfold notify. destruct (watching s); [apply watch_callback_rel | apply pass_rel_refl].
Qed.

End DeepReactivityFacts.

(** ** The [watchEffect] variant *)
Module WatchEffectFacts.
Import WatchEffect.

Lemma effect_notify_rel handler s : outcome_rel (pass_rel handler []) s (notify s).
Proof. apply pass_rel_refl. Qed.

(** The loop body for a key that has no entry, in terms of the
    handler's outcome. *)
Lemma effect_add_key_eq handler key st :
  JsMap.has key (childScopes st) = false ->
  add_key handler key st =
  match call_handler notify handler key (handler_entry key st) with
  | Normal s' => Normal (set_activeEffectScope (activeEffectScope st) s')
  | Thrown s' => Thrown (set_activeEffectScope (activeEffectScope st) s')
  | Diverged => Diverged
  end.
Proof.
  intros Hhas. unfold add_key, EffectScope_run. rewrite Hhas.
  cbn [effectScope childScopes_set childScopes emit set_childScopes set_heap].
  rewrite JsMapFacts.get_set_eq.
  pose proof (effectScope_active st) as Ha. simpl in Ha.
  unfold is_active in *. simpl in *.
  destruct (_ !! length (heap st)) as [sc|]; [|done]. by rewrite Ha.
Qed.

Lemma effect_add_key_skip handler key st :
  JsMap.has key (childScopes st) = true -> add_key handler key st = Normal st.
Proof. intros H. unfold add_key. by rewrite H. Qed.


Lemma effect_add_key_rel handler key st :
  outcome_rel (pass_rel handler [key]) st (add_key handler key st).
Proof.
  destruct (JsMap.has key (childScopes st)) eqn:Hhas.
  - rewrite effect_add_key_skip by done. apply pass_rel_refl.
  - rewrite effect_add_key_eq by done.
    pose proof (handler_exit handler notify (effect_notify_rel handler) key st _ eq_refl) as H.
    destruct (call_handler notify handler key (handler_entry key st)) as [s'|s'|];
      simpl in H; [| |done].
    + destruct H as (Ha & F & _). split; [done|].
      apply frame_rel_trans with (b := s'); [done | by apply frame_rel_same].
    + destruct H as (Ha & F & _). split; [done|].
      apply frame_rel_trans with (b := s'); [done | by apply frame_rel_same].
Qed.

Lemma effect_add_loop_rel handler keys :
  forall st, outcome_rel (pass_rel handler keys) st (add_loop handler keys st).
Proof.
  induction keys as [|key rest IH]; intros st; [apply pass_rel_refl|].
  simpl. pose proof (effect_add_key_rel handler key st) as H.
  destruct (add_key handler key st) as [st'|st'|]; simpl in H; [| |done].
  - eapply outcome_rel_trans.
    + eapply pass_rel_weaken; [|exact H]. intros k [<-|[]]. by left.
    + eapply outcome_rel_weaken; [|apply IH]. intros k Hk. by right.
  - simpl. eapply pass_rel_weaken; [|exact H]. intros k [<-|[]]. by left.
Qed.

Lemma remove_loop_input fuel keys st st' :
  remove_loop fuel keys st = Normal st' -> input st' = input st.
Proof.
  apply (remove_loop_Normal_rule (fun a b => input b = input a)); try done.
  intros a b c H1 H2. by rewrite H2.
Qed.

Lemma remove_key_absent fuel key st :
  JsMap.has key (childScopes st) = false -> remove_key fuel key st = Normal st.
Proof. intros H. unfold remove_key. by rewrite H. Qed.

(** The removing loop returns or does not return. *)
Lemma remove_loop_not_thrown fuel keys :
  forall st st', remove_loop fuel keys st <> Thrown st'.
Proof.
  induction keys as [|key rest IH]; intros st st'; simpl; [done|].
  assert (H : forall a, remove_key fuel key st <> Thrown a).
  { intros a. unfold remove_key. destruct (negb _); [done|].
    destruct (JsMap.get key _) as [x|]; [|done].
    pose proof (stop_fuel_not_thrown fuel x st) as Hx.
    destruct (stop_fuel fuel x st) as [c|c|]; [done | by destruct (Hx c) | done]. }
  destruct (remove_key fuel key st) as [a|a|]; [apply IH | by destruct (H a) | done].
Qed.

End WatchEffectFacts.

(** ** Coverage in the [watchEffect] variant

    The [watchEffect] variant registers no self-removing hook: while
    no scope carries one, a disposal leaves the registry alone, and a
    pass that ends normally leaves exactly the keys it read. *)

Lemma same_registry_refl a : same_registry a a.
Proof. by split. Qed.

Lemma same_registry_trans a b c :
  same_registry a b -> same_registry b c -> same_registry a c.
Proof. intros [H1 H2] [H3 H4]. split; [congruence|]. intros x. by rewrite H4. Qed.

Lemma no_self_remove_lookup st x k :
  no_self_remove st -> ~ In (SelfRemove k) (scope_cleanups x st).
Proof.
  intros Hst. unfold scope_cleanups. destruct (heap st !! x) as [sc|] eqn:Hx; [|by intros []].
  by apply (Forall_lookup_1 _ _ _ _ Hst Hx).
Qed.

Lemma same_registry_no_self_remove a b :
  same_registry a b -> no_self_remove a -> no_self_remove b.
Proof.
  intros [_ H] Ha. apply Forall_lookup_2. intros x sc Hx k.
  specialize (H x). unfold scope_cleanups at 1 in H. rewrite Hx in H. rewrite H.
  by apply no_self_remove_lookup.
Qed.

Lemma no_self_remove_same_heap a b :
  heap b = heap a -> no_self_remove a -> no_self_remove b.
Proof. unfold no_self_remove. by intros ->. Qed.

Lemma same_registry_same a b :
  heap b = heap a -> childScopes b = childScopes a -> same_registry a b.
Proof. intros Hh Hc. split; [done|]. intros x. unfold scope_cleanups. by rewrite Hh. Qed.

Lemma same_registry_deactivate st s :
  same_registry st (set_heap (alter deactivate s (heap st)) st).
Proof.
  split; [done|]. intros x. unfold scope_cleanups; simpl.
  destruct (decide (s = x)) as [->|Hne].
  - rewrite list_lookup_alter_eq. by destruct (heap st !! x).
  - by rewrite list_lookup_alter_ne.
Qed.

Lemma fold_stop_effect_frame (l : list Effect) :
  forall st,
    heap (fold_left (fun acc e => stop_effect e acc) l st) = heap st
    /\ childScopes (fold_left (fun acc e => stop_effect e acc) l st) = childScopes st.
Proof.
  induction l as [|e l IH]; intros st; [done|]. cbn [fold_left].
  destruct (IH (stop_effect e st)) as [-> ->]. destruct e. unfold stop_effect.
  by destruct (watching st).
Qed.

Lemma run_all_same_registry {A} (f : A -> State -> Outcome) l :
  (forall x a b, no_self_remove a -> f x a = Normal b -> same_registry a b) ->
  forall st st', no_self_remove st -> run_all f l st = Normal st' -> same_registry st st'.
Proof.
  intros Hf. induction l as [|x l IH]; intros st st' Hst; simpl.
  - intros [= <-]. apply same_registry_refl.
  - destruct (f x st) as [s1|s1|] eqn:E; [|done|done]. intros Hl.
    pose proof (Hf x st s1 Hst E) as H1.
    eapply same_registry_trans; [exact H1|].
    apply IH; [by eapply same_registry_no_self_remove | done].
Qed.

(** While no scope carries a self-removing hook, a disposal leaves the
    registry and the hooks as they are. *)
Lemma stop_fuel_same_registry fuel :
  forall s st st', no_self_remove st -> stop_fuel fuel s st = Normal st' ->
    same_registry st st'.
Proof.
  induction fuel as [|fuel IH]; intros s st st' Hst; [done|]. rewrite stop_fuel_S.
  destruct (heap st !! s) as [sc|] eqn:Hs; [|intros [= <-]; apply same_registry_refl].
  destruct (active sc); [|intros [= <-]; apply same_registry_refl].
  assert (Hsc : user_hooks_only sc) by apply (Forall_lookup_1 _ _ _ _ Hst Hs).
  rewrite run_all_user_hooks by exact Hsc. rewrite emit_all_eq.
  destruct (fold_stop_effect_frame (effects sc) st) as [Hh Hc].
  set (st1 := fold_left (fun acc e => stop_effect e acc) (effects sc) st) in *.
  set (st2 := mkState _ _ _ _ _ _).
  assert (H2 : same_registry st st2) by by apply same_registry_same.
  assert (N2 : no_self_remove st2) by by eapply same_registry_no_self_remove.
  destruct (run_all (stop_fuel fuel) (scopes sc) st2) as [st3|st3|] eqn:E3; [|done|done].
  intros [= <-].
  pose proof (run_all_same_registry (stop_fuel fuel) (scopes sc)
                (fun x a b => IH x a b) st2 st3 N2 E3) as H3.
  eapply same_registry_trans; [exact H2|].
  eapply same_registry_trans; [exact H3|].
  eapply same_registry_trans; [apply same_registry_deactivate | by apply same_registry_same].
Qed.

Lemma effectScope_no_self_remove st :
  no_self_remove st -> no_self_remove (snd (effectScope st)).
Proof.
  intros Hst. unfold no_self_remove. simpl.
  assert (H1 : Forall user_hooks_only
                 (heap st ++ [mkScope true (activeEffectScope st) [] [] []])).
  { apply Forall_app. split; [done|]. apply Forall_singleton. by intros k []. }
  destruct (activeEffectScope st); [|done].
  apply Forall_alter; [done|]. intros sc _ Hsc. exact Hsc.
Qed.

Lemma onScopeDispose_user_no_self_remove n st :
  no_self_remove st -> no_self_remove (onScopeDispose (UserHook n) st).
Proof.
  intros Hst. unfold onScopeDispose. destruct (activeEffectScope st); [|done].
  unfold no_self_remove. simpl. apply Forall_alter; [done|].
  intros sc _ Hsc k. simpl. rewrite in_app_iff. intros [H|[H|[]]]; [by apply Hsc in H | done].
Qed.

Module WatchEffectCoverage.
Import WatchEffect.

Lemma has_delete key k (m : JsMap.t) :
  JsMap.has k (JsMap.delete key m) = JsMap.has k m && negb (String.eqb k key).
Proof.
  induction m as [|[k' v] m IH]; simpl; [done|].
  destruct (String.eqb_spec k' key) as [->|Hne]; simpl.
  - rewrite IH. destruct (String.eqb_spec key k) as [->|Hk].
    + rewrite String.eqb_refl. by rewrite andb_false_r.
    + done.
  - rewrite IH. destruct (String.eqb_spec k' k) as [->|Hk]; [|done].
    destruct (String.eqb_spec k key); [congruence | done].
Qed.

Lemma has_set key k v (m : JsMap.t) :
  JsMap.has k (JsMap.set key v m) = JsMap.has k m || String.eqb k key.
Proof.
  induction m as [|[k' v'] m IH]; simpl.
  - rewrite String.eqb_sym. by destruct (String.eqb k key).
  - destruct (String.eqb_spec k' key) as [->|Hne]; simpl.
    + destruct (String.eqb_spec key k) as [->|Hk]; [done|].
      destruct (String.eqb_spec k key); [congruence|]. by rewrite orb_false_r.
    + rewrite IH. by destruct (String.eqb k' k).
Qed.

Lemma delete_absent key (m : JsMap.t) :
  JsMap.has key m = false -> JsMap.delete key m = m.
Proof.
  induction m as [|[k v] m IH]; simpl; [done|].
  destruct (String.eqb k key); [done|]. intros H. by rewrite IH.
Qed.

Lemma remove_key_registry fuel key st st' :
  no_self_remove st -> remove_key fuel key st = Normal st' ->
  childScopes st' = JsMap.delete key (childScopes st) /\ no_self_remove st'.
Proof.
  intros Hst. unfold remove_key.
  destruct (JsMap.has key (childScopes st)) eqn:Hhas; simpl;
    [|intros [= <-]; by rewrite delete_absent].
  destruct (JsMap.get key (childScopes st)) as [s|].
  - destruct (stop_fuel fuel s st) as [st1|st1|] eqn:E; [|done|done]. intros [= <-].
    pose proof (stop_fuel_same_registry fuel s st st1 Hst E) as Hsame.
    split; [simpl; by destruct Hsame as [-> _]|].
    apply (no_self_remove_same_heap st1); [done|].
    by apply (same_registry_no_self_remove st).
  - by intros [= <-].
Qed.

(** A key that had an entry has its scope disposed by the loop body. *)
Lemma remove_key_disposes fuel key s st st' :
  JsMap.get key (childScopes st) = Some s -> remove_key fuel key st = Normal st' ->
  is_active s st' = false /\ JsMap.has key (childScopes st') = false.
Proof.
  intros Hg. unfold remove_key.
  assert (Hhas : JsMap.has key (childScopes st) = true)
    by (apply JsMapFacts.has_get; eauto).
  rewrite Hhas, Hg. simpl.
  destruct (stop_fuel fuel s st) as [st1|st1|] eqn:E; [|done|done]. intros [= <-].
  split; [|apply JsMapFacts.has_delete_eq].
  change (is_active s st1 = false). by apply (stop_fuel_stops fuel s st).
Qed.

Lemma remove_loop_registry fuel keys :
  forall st st', no_self_remove st -> remove_loop fuel keys st = Normal st' ->
    no_self_remove st'
    /\ forall k, JsMap.has k (childScopes st')
                 = JsMap.has k (childScopes st) && negb (includes k keys).
Proof.
  induction keys as [|key rest IH]; intros st st' Hst; simpl.
  - intros [= <-]. split; [done|]. intros k. by rewrite andb_true_r.
  - destruct (remove_key fuel key st) as [s1|s1|] eqn:E; [|done|done]. intros Hl.
    destruct (remove_key_registry fuel key st s1 Hst E) as [Hc Hn].
    destruct (IH _ _ Hn Hl) as [Hn' Hhas]. split; [done|].
    intros k. rewrite Hhas, Hc, has_delete.
    destruct (JsMap.has k (childScopes st)); simpl; [|done].
    by destruct (String.eqb k key).
Qed.

Lemma run_ops_registry ops :
  forall st, outcome_rel keeps_registry st (run_ops notify ops st).
Proof.
  induction ops as [|op ops IH]; intros st; simpl; [done|].
  destruct op as [n|o|]; simpl; [| |done].
  - specialize (IH (onScopeDispose (UserHook n) st)).
    assert (H0 : keeps_registry st (onScopeDispose (UserHook n) st)).
    { split; [|apply onScopeDispose_user_no_self_remove].
      unfold onScopeDispose. by destruct (activeEffectScope st). }
    destruct H0 as [Hc Hn].
    destruct (run_ops notify ops (onScopeDispose (UserHook n) st)); simpl in *;
      [| |done]; destruct IH as [Hc' Hn']; split; try congruence; auto.
  - specialize (IH (set_input o st)).
    by destruct (run_ops notify ops (set_input o st)).
Qed.

Lemma add_key_registry handler key st st' :
  no_self_remove st -> add_key handler key st = Normal st' ->
  no_self_remove st'
  /\ forall k, JsMap.has k (childScopes st')
               = JsMap.has k (childScopes st) || String.eqb k key.
Proof.
  intros Hst. destruct (JsMap.has key (childScopes st)) eqn:Hhas.
  - rewrite WatchEffectFacts.effect_add_key_skip by done. intros [= <-]. split; [done|].
    intros k. destruct (String.eqb_spec k key) as [->|]; [|by rewrite orb_false_r].
    by rewrite Hhas.
  - rewrite WatchEffectFacts.effect_add_key_eq by done. unfold call_handler.
    rewrite handler_entry_activeEffectScope.
    match goal with |- context [run_ops notify ?ops ?s] =>
      pose proof (run_ops_registry ops s) as H; destruct (run_ops notify ops s)
    end; simpl in H; [|done|done].
    intros [= <-]. destruct H as [Hc Hn]. split.
    + apply (no_self_remove_same_heap st0); [done|].
      apply Hn. apply (no_self_remove_same_heap (snd (effectScope st))); [done|].
      by apply effectScope_no_self_remove.
    + intros k. simpl. rewrite Hc. simpl. apply has_set.
Qed.

Lemma add_loop_registry handler keys :
  forall st st', no_self_remove st -> add_loop handler keys st = Normal st' ->
    no_self_remove st'
    /\ forall k, JsMap.has k (childScopes st')
                 = JsMap.has k (childScopes st) || includes k keys.
Proof.
  induction keys as [|key rest IH]; intros st st' Hst; simpl.
  - intros [= <-]. split; [done|]. intros k. by rewrite orb_false_r.
  - destruct (add_key handler key st) as [s1| |] eqn:Hk; [|done|done].
    destruct (add_key_registry _ _ _ _ Hst Hk) as [Hn1 Hh1].
    intros Hrest. destruct (IH _ _ Hn1 Hrest) as [Hn2 Hh2]. split; [done|].
    intros k. rewrite Hh2, Hh1. unfold includes. simpl.
    by rewrite orb_assoc.
Qed.

(** After a pass of the [watchEffect] variant that ended normally, a
    key is in the registry exactly when it is a key of the object the
    pass read. *)
Lemma effect_body_coverage fuel handler st st' :
  no_self_remove st -> effect_body fuel handler st = Normal st' ->
  no_self_remove st'
  /\ forall k, In k (JsMap.keys (childScopes st')) <-> In k (Object_keys (input st)).
Proof.
  intros Hst. unfold effect_body.
  set (inputKeys := Object_keys (input st)).
  set (runningKeys := JsMap.keys (childScopes st)).
  destruct (remove_loop fuel (keysToRemove inputKeys runningKeys) st) as [st1|st1|] eqn:Hrm;
    [|done|done].
  destruct (remove_loop_registry fuel _ st st1 Hst Hrm) as [Hn1 Hh1].
  intros Hadd. destruct (add_loop_registry _ _ _ _ Hn1 Hadd) as [Hn2 Hh2].
  split; [done|]. intros k.
  rewrite <- JsMapFacts.has_In, Hh2, Hh1, <- includes_In.
  assert (Hrun : JsMap.has k (childScopes st) = includes k runningKeys).
  { apply eq_true_iff_eq. by rewrite JsMapFacts.has_In, includes_In. }
  assert (Hrem : includes k (keysToRemove inputKeys runningKeys)
                 = includes k runningKeys && negb (includes k inputKeys)).
  { apply eq_true_iff_eq. unfold keysToRemove.
    rewrite includes_In, filter_In, andb_true_iff, includes_In. done. }
  assert (Hhadd : includes k (keysToAdd inputKeys runningKeys)
                  = includes k inputKeys && negb (includes k runningKeys)).
  { apply eq_true_iff_eq. unfold keysToAdd.
    rewrite includes_In, filter_In, andb_true_iff, includes_In. done. }
  rewrite Hrun, Hrem, Hhadd. fold inputKeys.
  destruct (includes k runningKeys), (includes k inputKeys); simpl; split; done.
Qed.

End WatchEffectCoverage.

(** ** One live scope per key in the [watchEffect] variant

    In the [watchEffect] variant every step keeps [registry_owns_live]:
    the statements below hold for every list of keys and every handler
    body, hence at every point of a pass. *)

Lemma scopes_registered_for_snoc k tr e :
  scopes_registered_for k (tr ++ [e])
  = scopes_registered_for k tr ++ scopes_registered_for k [e].
Proof.
  induction tr as [|e' tr IH]; [done|].
  destruct e'; simpl; try apply IH.
  destruct (String.eqb key k); simpl; by rewrite IH.
Qed.

Lemma same_registered_emit e st :
  (forall k s, e <> Registered k s) -> same_registered st (emit e st).
Proof.
  intros He k. simpl. rewrite scopes_registered_for_snoc.
  destruct e; simpl; try apply app_nil_r. by destruct (He key s).
Qed.

Lemma same_registered_same a b : trace b = trace a -> same_registered a b.
Proof. intros H k. by rewrite H. Qed.

Lemma stop_fuel_same_registered fuel s st st' :
  stop_fuel fuel s st = Normal st' -> same_registered st st'.
Proof.
  apply stop_fuel_Normal_rule; try (intros; by apply same_registered_same).
  - intros a b c H1 H2 k. by rewrite H2.
  - intros a e He. apply same_registered_emit. intros k x ->. done.
Qed.

Lemma live_scopes_for_In k s st :
  In s (live_scopes_for k st)
  <-> In s (scopes_registered_for k (trace st)) /\ is_active s st = true.
Proof. unfold live_scopes_for. apply filter_In. Qed.

(** A step that registers nothing, keeps the entries and revives no
    scope keeps the invariant. *)
Lemma owns_live_shrink a b :
  registry_owns_live a -> no_self_remove b -> same_registered a b ->
  length (heap a) <= length (heap b) ->
  (forall s, s < length (heap a) -> is_active s b = true -> is_active s a = true) ->
  childScopes b = childScopes a ->
  registry_owns_live b.
Proof.
  intros (Hn & Hid & Hown) Hnb Hreg Hlen Hact Hc. repeat split; [done | |].
  - intros k s. rewrite Hreg. intros Hs. specialize (Hid k s Hs). lia.
  - intros k s. rewrite live_scopes_for_In, Hreg, Hc. intros [Hs Ha].
    apply Hown. apply live_scopes_for_In. split; [done|]. apply Hact; [|done].
    by apply (Hid k).
Qed.

Lemma stop_fuel_owns_live fuel s st st' :
  registry_owns_live st -> stop_fuel fuel s st = Normal st' -> registry_owns_live st'.
Proof.
  intros Hst Hstop. pose proof Hst as (Hn & _ & _).
  destruct (stop_fuel_same_registry fuel s st st' Hn Hstop) as [Hc Hh].
  apply (owns_live_shrink st); [done | | | | | done].
  - by apply (same_registry_no_self_remove st).
  - by apply (stop_fuel_same_registered fuel s).
  - by rewrite (stop_fuel_heap_length fuel s st st').
  - intros x _ Hx. destruct (is_active x st) eqn:E; [done|].
    by rewrite (stop_fuel_stays_inert fuel s st st' Hstop x E) in Hx.
Qed.

Lemma effectScope_is_active s st :
  s < length (heap st) -> is_active s (snd (effectScope st)) = is_active s st.
Proof.
  intros Hs. unfold is_active. simpl.
  assert (H1 : (heap st ++ [mkScope true (activeEffectScope st) [] [] []]) !! s
               = heap st !! s) by by apply lookup_app_l.
  destruct (activeEffectScope st) as [p|]; [|by rewrite H1].
  destruct (decide (p = s)) as [->|Hne].
  - rewrite list_lookup_alter_eq, H1. by destruct (heap st !! s).
  - by rewrite list_lookup_alter_ne, H1.
Qed.

Lemma effectScope_heap_length st :
  length (heap (snd (effectScope st))) = S (length (heap st)).
Proof.
  simpl. destruct (activeEffectScope st); rewrite ?length_alter, length_app; simpl; lia.
Qed.

Lemma effectScope_owns_live st :
  registry_owns_live st -> registry_owns_live (snd (effectScope st)).
Proof.
  intros Hst. pose proof Hst as (Hn & _ & _).
  apply (owns_live_shrink st); [done | | | | | done].
  - by apply effectScope_no_self_remove.
  - intros k. simpl. by rewrite scopes_registered_for_snoc, app_nil_r.
  - rewrite effectScope_heap_length. lia.
  - intros s Hs. by rewrite effectScope_is_active.
Qed.

Lemma childScopes_set_owns_live key s st :
  registry_owns_live st -> JsMap.has key (childScopes st) = false ->
  s < length (heap st) ->
  registry_owns_live (childScopes_set key s st).
Proof.
  intros (Hn & Hid & Hown) Hhas Hs. repeat split; [done | |].
  - intros k x. simpl. rewrite scopes_registered_for_snoc, in_app_iff. simpl.
    intros [Hx|Hx]; [by apply (Hid k)|].
    destruct (String.eqb key k); [|done]. destruct Hx as [<-|[]]. done.
  - intros k x. rewrite live_scopes_for_In. simpl.
    rewrite scopes_registered_for_snoc, in_app_iff. simpl.
    change (is_active x (childScopes_set key s st)) with (is_active x st).
    intros [[Hx|Hx] Ha].
    + assert (Hg : JsMap.get k (childScopes st) = Some x)
        by (apply Hown, live_scopes_for_In; done).
      destruct (String.eqb_spec k key) as [->|Hne].
      * apply JsMapFacts.has_false_get in Hhas. congruence.
      * by rewrite JsMapFacts.get_set_ne.
    + destruct (String.eqb_spec key k) as [<-|Hne]; [|done].
      destruct Hx as [<-|[]]. apply JsMapFacts.get_set_eq.
Qed.

Lemma childScopes_delete_owns_live key s st :
  registry_owns_live st -> JsMap.get key (childScopes st) = Some s ->
  is_active s st = false ->
  registry_owns_live (childScopes_delete key st).
Proof.
  intros (Hn & Hid & Hown) Hg Hs. repeat split; [done | |].
  - intros k x. simpl. rewrite scopes_registered_for_snoc, app_nil_r. by apply (Hid k).
  - intros k x. rewrite live_scopes_for_In. simpl.
    rewrite scopes_registered_for_snoc, app_nil_r.
    change (is_active x (childScopes_delete key st)) with (is_active x st).
    intros [Hx Ha].
    assert (Hgx : JsMap.get k (childScopes st) = Some x)
      by (apply Hown, live_scopes_for_In; done).
    destruct (String.eqb_spec k key) as [->|Hne].
    + congruence.
    + by rewrite JsMapFacts.get_delete_ne.
Qed.

Module WatchEffectUniqueness.
Import WatchEffect.

Lemma remove_key_owns_live fuel key st :
  registry_owns_live st -> outcome_sat registry_owns_live (remove_key fuel key st).
Proof.
  intros Hst. unfold remove_key.
  destruct (JsMap.has key (childScopes st)) eqn:Hhas; simpl; [|done].
  apply JsMapFacts.has_get in Hhas. destruct Hhas as [s Hs]. rewrite Hs.
  pose proof (stop_fuel_not_thrown fuel s st) as Hnt.
  destruct (stop_fuel fuel s st) as [st1|st1|] eqn:E; simpl; [|by destruct (Hnt st1)|done].
  apply (childScopes_delete_owns_live key s).
  - by apply (stop_fuel_owns_live fuel s st).
  - pose proof Hst as (Hn & _ & _).
    destruct (stop_fuel_same_registry fuel s st st1 Hn E) as [Hc _]. by rewrite Hc.
  - by apply (stop_fuel_stops fuel s st).
Qed.

Lemma remove_loop_owns_live fuel keys :
  forall st, registry_owns_live st ->
    outcome_sat registry_owns_live (remove_loop fuel keys st).
Proof.
  induction keys as [|key rest IH]; intros st Hst; simpl; [done|].
  pose proof (remove_key_owns_live fuel key st Hst) as H.
  destruct (remove_key fuel key st); simpl in *; [by apply IH | done | done].
Qed.

Lemma handler_entry_owns_live key st :
  registry_owns_live st -> JsMap.has key (childScopes st) = false ->
  registry_owns_live (handler_entry key st).
Proof.
  intros Hst Hhas. rewrite handler_entry_eq.
  apply (owns_live_shrink
           (childScopes_set key (length (heap st)) (snd (effectScope st))));
    [| | done | done | done | done].
  - apply childScopes_set_owns_live; [by apply effectScope_owns_live | done |].
    rewrite effectScope_heap_length. lia.
  - apply (no_self_remove_same_heap (snd (effectScope st))); [done|].
    apply effectScope_no_self_remove. by destruct Hst.
Qed.

Lemma run_ops_owns_live ops :
  forall st, registry_owns_live st ->
    outcome_sat registry_owns_live (run_ops notify ops st).
Proof.
  induction ops as [|op ops IH]; intros st Hst; simpl; [done|].
  destruct op as [n|o|]; simpl; [| |done].
  - apply IH. pose proof Hst as (Hn & _ & _).
    apply (owns_live_shrink st); [done | | | | | ].
    + by apply onScopeDispose_user_no_self_remove.
    + apply same_registered_same. unfold onScopeDispose.
      by destruct (activeEffectScope st).
    + unfold onScopeDispose. destruct (activeEffectScope st); simpl;
        rewrite ?length_alter; lia.
    + intros s _. unfold onScopeDispose, is_active.
      destruct (activeEffectScope st) as [a|]; [|done]. simpl.
      destruct (decide (a = s)) as [->|Hne].
      * rewrite list_lookup_alter_eq. by destruct (heap st !! s).
      * by rewrite list_lookup_alter_ne.
    + unfold onScopeDispose. by destruct (activeEffectScope st).
  - apply IH. pose proof Hst as (Hn & _ & _). by apply (owns_live_shrink st).
Qed.

Lemma call_handler_owns_live handler key st :
  registry_owns_live st ->
  outcome_sat registry_owns_live (call_handler notify handler key st).
Proof.
  intros Hst. unfold call_handler.
  destruct (activeEffectScope st) as [s|]; [|by apply run_ops_owns_live].
  apply run_ops_owns_live. pose proof Hst as (Hn & _ & _).
  apply (owns_live_shrink st); [done | done | | done | done | done].
  apply same_registered_emit. by intros k x.
Qed.

Lemma add_key_owns_live handler key st :
  registry_owns_live st -> outcome_sat registry_owns_live (add_key handler key st).
Proof.
  intros Hst. destruct (JsMap.has key (childScopes st)) eqn:Hhas.
  - by rewrite WatchEffectFacts.effect_add_key_skip.
  - rewrite WatchEffectFacts.effect_add_key_eq by done.
    pose proof (call_handler_owns_live handler key (handler_entry key st)
                  (handler_entry_owns_live key st Hst Hhas)) as H.
    destruct (call_handler notify handler key (handler_entry key st)) as [s'|s'|];
      simpl in *; [| |done]; pose proof H as (Hn & _ & _);
      by apply (owns_live_shrink s').
Qed.

Lemma add_loop_owns_live handler keys :
  forall st, registry_owns_live st ->
    outcome_sat registry_owns_live (add_loop handler keys st).
Proof.
  induction keys as [|key rest IH]; intros st Hst; simpl; [done|].
  pose proof (add_key_owns_live handler key st Hst) as H.
  destruct (add_key handler key st); simpl in *; [by apply IH | done | done].
Qed.

(** A pass of the [watchEffect] variant keeps the invariant, whether it
    ends normally or by a throw. *)
Lemma effect_body_owns_live fuel handler st :
  registry_owns_live st -> outcome_sat registry_owns_live (effect_body fuel handler st).
Proof.
  intros Hst. unfold effect_body.
  match goal with |- context [remove_loop fuel ?ks st] =>
    pose proof (remove_loop_owns_live fuel ks st Hst) as H;
    destruct (remove_loop fuel ks st)
  end; simpl in *; [by apply add_loop_owns_live | done | done].
Qed.

Lemma stop_owns_live st : registry_owns_live st -> registry_owns_live (stop st).
Proof.
  intros Hst. pose proof Hst as (Hn & _ & _). unfold stop, stop_effect.
  destruct (watching st); [|done].
  apply (owns_live_shrink st); [done | done | | done | done | done].
  intros k. simpl. by rewrite scopes_registered_for_snoc, app_nil_r.
Qed.

Lemma calls_owns_live fuel handler cs :
  forall st, registry_owns_live st ->
    outcome_sat registry_owns_live (calls fuel handler cs st).
Proof.
  induction cs as [|c cs IH]; intros st Hst; simpl; [done|].
  assert (H : outcome_sat registry_owns_live (call fuel handler c st)).
  { destruct c as [o|]; simpl; [|by apply stop_owns_live].
    unfold rerun. simpl.
    assert (Hin : registry_owns_live (set_input o st)).
    { pose proof Hst as (Hn & _ & _). by apply (owns_live_shrink st). }
    destruct (watching st); [by apply effect_body_owns_live | done]. }
  destruct (call fuel handler c st); simpl in *; [by apply IH | done | done].
Qed.

(** Every state a session of the [watchEffect] variant ends in has the
    invariant. *)
Lemma session_owns_live fuel handler o cs :
  outcome_sat registry_owns_live (session fuel handler o cs).
Proof.
  unfold session.
  assert (H0 : registry_owns_live (initial o)).
  { repeat split; [apply Forall_nil_2 | |]; by intros k s []. }
  assert (H : outcome_sat registry_owns_live
                (snd (useScopePerKey fuel handler (initial o)))).
  { unfold useScopePerKey. simpl. unfold EffectScope_run. simpl.
    match goal with |- context [effect_body fuel handler ?s] =>
      assert (Hs : registry_owns_live s);
      [|pose proof (effect_body_owns_live fuel handler s Hs) as Hb;
        destruct (effect_body fuel handler s) as [s'|s'|]; simpl in *; [| |done];
        pose proof Hb as (Hn & _ & _); by apply (owns_live_shrink s')]
    end.
    repeat split.
    - apply Forall_singleton. by intros k [].
    - intros k s [].
    - intros k s []. }
  destruct (useScopePerKey fuel handler (initial o)) as [p [st|st|]]; simpl in *;
    [by apply calls_owns_live | done | done].
Qed.

End WatchEffectUniqueness.

(** Under the invariant the scope the next [effectScope()] returns was
    never registered before, for any key: a scope is not reused. *)
Lemma owns_live_fresh_scope st k :
  registry_owns_live st -> ~ In (length (heap st)) (scopes_registered_for k (trace st)).
Proof. intros (_ & Hid & _) Hin. apply Hid in Hin. lia. Qed.

(** Under the invariant a key has at most one live scope. *)
Lemma owns_live_at_most_one st k s1 s2 :
  registry_owns_live st ->
  In s1 (live_scopes_for k st) -> In s2 (live_scopes_for k st) -> s1 = s2.
Proof.
  intros (_ & _ & Hown) H1 H2. apply Hown in H1, H2. congruence.
Qed.

(** ** Disposing a scope of the [watchEffect] variant

    In the states of the [watchEffect] variant a registered scope is a
    leaf that carries hooks of the handler only: its disposal needs no
    nesting and can be written down. *)

Lemma user_hooks_only_lookup st s sc :
  no_self_remove st -> heap st !! s = Some sc -> user_hooks_only sc.
Proof. intros Hn Hs. by apply (Forall_lookup_1 _ _ _ _ Hn Hs). Qed.

Module WatchEffectLeaf.
Import WatchEffect.

(** The loop body of the removing loop, in a state of the
    [watchEffect] variant, for a key that has an entry: the hooks of
    its scope fire in registration order, the scope is marked inert,
    the entry is deleted. *)
Lemma remove_key_leaf fuel key s st :
  effect_inv st -> JsMap.get key (childScopes st) = Some s ->
  remove_key (S fuel) key st
  = Normal (mkState (input st) (JsMap.delete key (childScopes st))
              (alter deactivate s (heap st)) (activeEffectScope st) (watching st)
              (trace st ++ map (HookFired s) (scope_cleanups s st)
                        ++ [ScopeStopped s; Unregistered key])).
Proof.
  intros ((Hn & _ & _) & Hleaf & _) Hg.
  destruct (Hleaf key s Hg) as ((sc & Hs & Hact & He & Hch) & _).
  unfold remove_key.
  assert (Hhas : JsMap.has key (childScopes st) = true)
    by (apply JsMapFacts.has_get; eauto).
  rewrite Hhas, Hg. cbn [negb].
  rewrite (stop_leaf _ s sc st Hs Hact He Hch (user_hooks_only_lookup st s sc Hn Hs)).
  unfold childScopes_delete, emit, set_childScopes, scope_cleanups.
  rewrite Hs. simpl. by rewrite <- !app_assoc.
Qed.

Lemma remove_key_inv fuel key st :
  effect_inv st -> outcome_sat effect_inv (remove_key fuel key st).
Proof.
  intros Hst. destruct (JsMap.get key (childScopes st)) as [s|] eqn:Hg;
    [|rewrite WatchEffectFacts.remove_key_absent;
      [done | by apply JsMapFacts.has_false_get]].
  pose proof (WatchEffectUniqueness.remove_key_owns_live fuel key st (proj1 Hst)) as Hown.
  destruct fuel as [|fuel].
  { unfold remove_key. rewrite Hg.
    by destruct (negb (JsMap.has key (childScopes st))). }
  rewrite (remove_key_leaf fuel key s st Hst Hg) in *. simpl in Hown |- *.
  destruct Hst as (_ & Hleaf & Hamb). split; [done|]. split.
  - intros k' s' Hg'. simpl in Hg'.
    assert (Hne : k' <> key).
    { intros ->. pose proof (JsMapFacts.has_delete_eq key (childScopes st)) as Hd.
      apply JsMapFacts.has_false_get in Hd. congruence. }
    rewrite JsMapFacts.get_delete_ne in Hg' by done.
    destruct (Hleaf k' s' Hg') as ((sc' & Hs' & Hrest) & Ha & Hinj).
    assert (Hss : s <> s').
    { intros ->. destruct (Hleaf key s' Hg) as (_ & _ & Hinj2). apply Hne. by apply Hinj2. }
    simpl. repeat split; [| done |].
    + exists sc'. by rewrite list_lookup_alter_ne.
    + intros k'' Hg''.
      destruct (String.eqb_spec k'' key) as [->|Hne''].
      * pose proof (JsMapFacts.has_delete_eq key (childScopes st)) as Hd.
        apply JsMapFacts.has_false_get in Hd. congruence.
      * rewrite JsMapFacts.get_delete_ne in Hg'' by done. by apply Hinj.
  - intros p Hp. simpl in *. rewrite length_alter. by apply Hamb.
Qed.

Lemma remove_loop_inv fuel keys :
  forall st, effect_inv st -> outcome_sat effect_inv (remove_loop fuel keys st).
Proof.
  induction keys as [|key rest IH]; intros st Hst; simpl; [done|].
  pose proof (remove_key_inv fuel key st Hst) as H.
  destruct (remove_key fuel key st); simpl in *; [by apply IH | done | done].
Qed.

(** In a state of the [watchEffect] variant the loop body returns. *)
Lemma remove_key_returns fuel key st :
  effect_inv st -> exists st', remove_key (S fuel) key st = Normal st'.
Proof.
  intros Hst. destruct (JsMap.get key (childScopes st)) as [s|] eqn:Hg.
  - rewrite (remove_key_leaf fuel key s st Hst Hg). eauto.
  - rewrite WatchEffectFacts.remove_key_absent; [eauto|].
    by apply JsMapFacts.has_false_get.
Qed.

(** In a state of the [watchEffect] variant the removing loop returns,
    in a state of the variant. *)
Lemma remove_loop_returns fuel keys :
  forall st, effect_inv st ->
    exists st', remove_loop (S fuel) keys st = Normal st' /\ effect_inv st'.
Proof.
  induction keys as [|key rest IH]; intros st Hst; simpl; [eauto|].
  pose proof (remove_key_inv (S fuel) key st Hst) as Hinv.
  destruct (remove_key_returns fuel key st Hst) as [s1 E]. rewrite E in *.
  by apply IH.
Qed.

End WatchEffectLeaf.

(** ** Passes that end

    A pass of the sync variant can fail to end only through a handler
    that keeps re-entering the sync watcher by writing the ref; a pass
    of the [watchEffect] variant that starts in a state of the variant
    ends. *)

Lemma run_ops_ends notify ops :
  (forall o, In (Write o) ops -> forall s, ends (notify s)) ->
  forall st, ends (run_ops notify ops st).
Proof.
  unfold ends. induction ops as [|op ops IH]; intros Hw st; simpl; [done|].
  assert (Hw' : forall o, In (Write o) ops -> forall s, notify s <> Diverged)
    by (intros o Ho; apply (Hw o); by right).
  destruct op as [n|o|]; [by apply IH | | done].
  pose proof (Hw o (or_introl eq_refl) (set_input o st)) as Hn.
  destruct (notify (set_input o st)); [by apply IH | done | done].
Qed.

Lemma call_handler_ends notify handler key st :
  (forall o, In (Write o) (handler key) -> forall s, ends (notify s)) ->
  ends (call_handler notify handler key st).
Proof.
  intros Hw. unfold call_handler.
  destruct (activeEffectScope st); by apply run_ops_ends.
Qed.

Module Termination.

Lemma sync_add_loop_ends notify handler keys :
  (forall key o, In key keys -> In (Write o) (handler key) -> forall s, ends (notify s)) ->
  forall st, ends (DeepReactivity.add_loop notify handler keys st).
Proof.
  induction keys as [|key rest IH]; intros Hw st; simpl; [done|].
  rewrite DeepReactivityFacts.sync_add_key_eq.
  pose proof (call_handler_ends notify handler key (handler_entry key st)) as Hk.
  destruct (call_handler notify handler key (handler_entry key st)).
  - apply IH. intros k o Hin. apply Hw. by right.
  - done.
  - apply Hk. intros o. apply (Hw key o). by left.
Qed.

(** With a handler that never writes the ref the sync callback ends,
    whatever the fuel. *)
Lemma watch_callback_ends fuel handler inputKeys st :
  (forall key o, ~ In (Write o) (handler key)) ->
  ends (DeepReactivity.watch_callback (S fuel) handler inputKeys st).
Proof.
  intros Hno. rewrite DeepReactivityFacts.watch_callback_eq.
  apply sync_add_loop_ends. intros key o _ Hin. by apply Hno in Hin.
Qed.

Lemma effect_add_loop_ends handler keys :
  forall st, ends (WatchEffect.add_loop handler keys st).
Proof.
  induction keys as [|key rest IH]; intros st; simpl; [done|].
  destruct (JsMap.has key (childScopes st)) eqn:Hhas.
  - rewrite WatchEffectFacts.effect_add_key_skip by done. apply IH.
  - rewrite WatchEffectFacts.effect_add_key_eq by done.
    pose proof (call_handler_ends WatchEffect.notify handler key (handler_entry key st))
      as Hk.
    destruct (call_handler WatchEffect.notify handler key (handler_entry key st));
      [apply IH | done | by apply Hk].
Qed.

(** A pass of the [watchEffect] variant that starts in a state of the
    variant ends, with any fuel but none. *)
Lemma effect_body_ends fuel handler st :
  effect_inv st -> ends (WatchEffect.effect_body (S fuel) handler st).
Proof.
  intros Hst. unfold WatchEffect.effect_body.
  match goal with |- context [WatchEffect.remove_loop _ ?ks st] =>
    destruct (WatchEffectLeaf.remove_loop_returns fuel ks st Hst) as (st1 & -> & _)
  end.
  apply effect_add_loop_ends.
Qed.

End Termination.

(** *** More fuel changes no outcome

    The fuel bounds the depth of re-entrance of the sync callback and
    the depth to which disposals nest, nothing else: an outcome reached
    with some fuel is the outcome with any more. *)

Lemma run_ops_agree n1 n2 ops :
  agrees n1 n2 ->
  forall st, ends (run_ops n1 ops st) -> run_ops n2 ops st = run_ops n1 ops st.
Proof.
  intros Hag. induction ops as [|op ops IH]; intros st; simpl; [done|].
  destruct op as [n|o|]; [apply IH | | done].
  pose proof (Hag (set_input o st)) as H. unfold ends in *.
  destruct (n1 (set_input o st)) as [st'|st'|] eqn:E.
  - rewrite H by done. apply IH.
  - by rewrite H.
  - done.
Qed.

Lemma call_handler_agree n1 n2 handler key st :
  agrees n1 n2 -> ends (call_handler n1 handler key st) ->
  call_handler n2 handler key st = call_handler n1 handler key st.
Proof.
  intros Hag. unfold call_handler.
  destruct (activeEffectScope st); by apply run_ops_agree.
Qed.

Lemma sync_add_key_agree n1 n2 handler key st :
  agrees n1 n2 -> ends (DeepReactivity.add_key n1 handler key st) ->
  DeepReactivity.add_key n2 handler key st = DeepReactivity.add_key n1 handler key st.
Proof.
  intros Hag. rewrite !DeepReactivityFacts.sync_add_key_eq.
  pose proof (call_handler_agree n1 n2 handler key (handler_entry key st) Hag) as H.
  unfold ends in *.
  destruct (call_handler n1 handler key (handler_entry key st)) eqn:E;
    intros He; [by rewrite H | by rewrite H | done].
Qed.

Lemma sync_add_loop_agree n1 n2 handler keys :
  agrees n1 n2 ->
  forall st, ends (DeepReactivity.add_loop n1 handler keys st) ->
    DeepReactivity.add_loop n2 handler keys st = DeepReactivity.add_loop n1 handler keys st.
Proof.
  intros Hag. induction keys as [|key rest IH]; intros st; simpl; [done|].
  pose proof (sync_add_key_agree n1 n2 handler key st Hag) as H. unfold ends in *.
  destruct (DeepReactivity.add_key n1 handler key st) eqn:E; intros He.
  - rewrite H by done. by apply IH.
  - by rewrite H.
  - done.
Qed.

Lemma notify_fuel_succ handler fuel :
  agrees (DeepReactivity.notify fuel handler) (DeepReactivity.notify (S fuel) handler).
Proof.
  induction fuel as [|fuel IH]; intros s; unfold DeepReactivity.notify;
    destruct (watching s); try done.
  rewrite !DeepReactivityFacts.watch_callback_eq. by apply sync_add_loop_agree.
Qed.

Lemma notify_fuel_add handler fuel n :
  agrees (DeepReactivity.notify fuel handler) (DeepReactivity.notify (fuel + n) handler).
Proof.
  induction n as [|n IH]; intros s He.
  - by rewrite Nat.add_0_r.
  - rewrite Nat.add_succ_r, notify_fuel_succ; rewrite IH; done.
Qed.

Lemma watch_callback_fuel_add handler fuel n inputKeys st :
  ends (DeepReactivity.watch_callback fuel handler inputKeys st) ->
  DeepReactivity.watch_callback (fuel + n) handler inputKeys st
  = DeepReactivity.watch_callback fuel handler inputKeys st.
Proof.
  destruct fuel as [|fuel]; [intros H; exfalso; by apply H|].
  change (S fuel + n) with (S (fuel + n)).
  rewrite !DeepReactivityFacts.watch_callback_eq.
  apply sync_add_loop_agree, notify_fuel_add.
Qed.

Lemma calls_fuel_add handler fuel n p cs :
  forall st, ends (DeepReactivity.calls fuel handler p cs st) ->
    DeepReactivity.calls (fuel + n) handler p cs st
    = DeepReactivity.calls fuel handler p cs st.
Proof.
  induction cs as [|c cs IH]; intros st; simpl; [done|].
  assert (H : ends (DeepReactivity.call fuel handler p c st) ->
              DeepReactivity.call (fuel + n) handler p c st
              = DeepReactivity.call fuel handler p c st).
  { destruct c; simpl; [apply notify_fuel_add | apply stop_fuel_add]. }
  unfold ends in *.
  destruct (DeepReactivity.call fuel handler p c st) eqn:E; intros He.
  - rewrite H by done. by apply IH.
  - by rewrite H.
  - done.
Qed.

Lemma useScopePerKey_fuel_add handler fuel n st :
  ends (snd (DeepReactivity.useScopePerKey fuel handler st)) ->
  DeepReactivity.useScopePerKey (fuel + n) handler st
  = DeepReactivity.useScopePerKey fuel handler st.
Proof.
  unfold DeepReactivity.useScopePerKey.
  destruct (effectScope st) as [p st1]. cbn [snd]. unfold EffectScope_run.
  destruct (is_active p (set_childScopes [] st1)); [|done].
  match goal with
  | |- context [DeepReactivity.watch_callback fuel handler ?ks ?s] =>
      pose proof (watch_callback_fuel_add handler fuel n ks s) as H;
      destruct (DeepReactivity.watch_callback fuel handler ks s) eqn:E
  end; unfold ends in *; intros He; [by rewrite H | by rewrite H | done].
Qed.

(** A session that ends with some fuel ends in the same way with any
    more. *)
Lemma session_fuel_add handler fuel n o cs :
  ends (DeepReactivity.session fuel handler o cs) ->
  DeepReactivity.session (fuel + n) handler o cs = DeepReactivity.session fuel handler o cs.
Proof.
  unfold DeepReactivity.session.
  pose proof (useScopePerKey_fuel_add handler fuel n (initial o)) as H.
  destruct (DeepReactivity.useScopePerKey fuel handler (initial o)) as [p r].
  cbn [snd] in H. unfold ends in *.
  destruct r as [st|st|]; intros He; rewrite H by done; [|done|done].
  by apply calls_fuel_add.
Qed.

Lemma remove_loop_fuel_add fuel n keys :
  forall st, ends (WatchEffect.remove_loop fuel keys st) ->
    WatchEffect.remove_loop (fuel + n) keys st = WatchEffect.remove_loop fuel keys st.
Proof.
  unfold ends. induction keys as [|key rest IH]; intros st; simpl; [done|].
  assert (H : ends (WatchEffect.remove_key fuel key st) ->
              WatchEffect.remove_key (fuel + n) key st = WatchEffect.remove_key fuel key st).
  { unfold WatchEffect.remove_key, ends. destruct (negb _); [done|].
    destruct (JsMap.get key (childScopes st)) as [x|]; [|done].
    pose proof (stop_fuel_add fuel n x st) as Hx. unfold ends in Hx.
    destruct (stop_fuel fuel x st) eqn:E; intros He; [by rewrite Hx | by rewrite Hx | done]. }
  unfold ends in H.
  destruct (WatchEffect.remove_key fuel key st) eqn:E; intros He.
  - rewrite H by done. by apply IH.
  - by rewrite H.
  - done.
Qed.

Lemma effect_body_fuel_add fuel n handler st :
  ends (WatchEffect.effect_body fuel handler st) ->
  WatchEffect.effect_body (fuel + n) handler st = WatchEffect.effect_body fuel handler st.
Proof.
  unfold WatchEffect.effect_body, ends.
  match goal with |- context [WatchEffect.remove_loop fuel ?ks st] =>
    pose proof (remove_loop_fuel_add fuel n ks st) as H; unfold ends in H;
    destruct (WatchEffect.remove_loop fuel ks st) eqn:E
  end; intros He; [by rewrite H | by rewrite H | done].
Qed.

Lemma effect_calls_fuel_add fuel n handler cs :
  forall st, ends (WatchEffect.calls fuel handler cs st) ->
    WatchEffect.calls (fuel + n) handler cs st = WatchEffect.calls fuel handler cs st.
Proof.
  induction cs as [|c cs IH]; intros st; simpl; [done|].
  assert (H : ends (WatchEffect.call fuel handler c st) ->
              WatchEffect.call (fuel + n) handler c st = WatchEffect.call fuel handler c st).
  { destruct c; simpl; [|done]. unfold WatchEffect.rerun.
    destruct (watching _); [apply effect_body_fuel_add | done]. }
  unfold ends in *.
  destruct (WatchEffect.call fuel handler c st) eqn:E; intros He.
  - rewrite H by done. by apply IH.
  - by rewrite H.
  - done.
Qed.

Lemma effect_useScopePerKey_fuel_add fuel n handler st :
  ends (snd (WatchEffect.useScopePerKey fuel handler st)) ->
  WatchEffect.useScopePerKey (fuel + n) handler st
  = WatchEffect.useScopePerKey fuel handler st.
Proof.
  unfold WatchEffect.useScopePerKey.
  destruct (match getCurrentScope st with
            | Some s => (s, st)
            | None => effectScope st
            end) as [p st1].
  cbn [snd]. unfold EffectScope_run.
  destruct (is_active p (set_childScopes [] st1)); [|done].
  match goal with
  | |- context [WatchEffect.effect_body fuel handler ?s] =>
      pose proof (effect_body_fuel_add fuel n handler s) as H;
      destruct (WatchEffect.effect_body fuel handler s) eqn:E
  end; unfold ends in *; intros He; [by rewrite H | by rewrite H | done].
Qed.

(** A session of the [watchEffect] variant that ends with some fuel
    ends in the same way with any more. *)
Lemma effect_session_fuel_add fuel n handler o cs :
  ends (WatchEffect.session fuel handler o cs) ->
  WatchEffect.session (fuel + n) handler o cs = WatchEffect.session fuel handler o cs.
Proof.
  unfold WatchEffect.session.
  pose proof (effect_useScopePerKey_fuel_add fuel n handler (initial o)) as H.
  destruct (WatchEffect.useScopePerKey fuel handler (initial o)) as [p r].
  cbn [snd] in H. unfold ends in *.
  destruct r as [st|st|]; intros He; rewrite H by done; [|done|done].
  by apply effect_calls_fuel_add.
Qed.

(** ** Stopping the watcher *)

Lemma fold_stop_effect_stays (l : list Effect) :
  forall st, watching st = false ->
    watching (fold_left (fun acc e => stop_effect e acc) l st) = false.
Proof.
  induction l as [|e l IH]; intros st Hst; [done|].
  cbn [fold_left]. apply IH. destruct e. unfold stop_effect. by rewrite Hst.
Qed.

Lemma fold_stop_effect_unwatch (l : list Effect) st :
  In TopLevelWatch l ->
  watching (fold_left (fun acc e => stop_effect e acc) l st) = false.
Proof.
  destruct l as [|[] l]; [done|]. intros _. cbn [fold_left].
  apply fold_stop_effect_stays. unfold stop_effect. by destruct (watching st) eqn:E.
Qed.

(** A disposal starts no watcher. *)
Lemma stop_fuel_stays_unwatched fuel s st :
  outcome_rel stays_unwatched st (stop_fuel fuel s st).
Proof.
  apply (stop_fuel_rule stays_unwatched).
  - intros a H. exact H.
  - intros a b c H1 H2 H. auto.
  - intros a e _ H. exact H.
  - intros a x H. exact H.
  - intros a _. reflexivity.
  - intros a key H. exact H.
Qed.

(** When the disposal of a live scope that owns the watcher returns,
    the watcher is stopped. *)
Lemma dispose_stops_watcher fuel p sc st st' :
  heap st !! p = Some sc -> active sc = true -> In TopLevelWatch (effects sc) ->
  stop_fuel fuel p st = Normal st' -> watching st' = false.
Proof.
  intros Hp Hact Hin. destruct fuel as [|fuel]; [done|].
  rewrite stop_fuel_S, Hp, Hact.
  set (st1 := fold_left (fun acc e => stop_effect e acc) (effects sc) st).
  assert (H1 : watching st1 = false) by by apply fold_stop_effect_unwatch.
  assert (Hr : forall a, stays_unwatched a a) by (intros a H; exact H).
  assert (Ht : forall a b c, stays_unwatched a b -> stays_unwatched b c ->
                             stays_unwatched a c)
    by (intros a b c Hab Hbc H; auto).
  assert (Hs : forall x a, outcome_rel stays_unwatched a (stop_fuel fuel x a))
    by (intros x a; apply stop_fuel_stays_unwatched).
  pose proof (run_all_rel stays_unwatched (run_hook (stop_fuel fuel) p) Hr Ht
                (fun h a => run_hook_rule stays_unwatched Hr Ht
                              (fun b e _ H => H) (fun b k H => H)
                              (stop_fuel fuel) p h a Hs)
                (cleanups sc) st1) as H2.
  destruct (run_all (run_hook (stop_fuel fuel) p) (cleanups sc) st1) as [st2|st2|];
    [|done|done].
  pose proof (run_all_rel stays_unwatched (stop_fuel fuel) Hr Ht Hs (scopes sc) st2) as H3.
  destruct (run_all (stop_fuel fuel) (scopes sc) st2) as [st3|st3|]; [|done|done].
  intros [= <-]. simpl in *. auto.
Qed.

(** Once the watcher is stopped, a write of the ref runs no pass in
    either variant. *)
Lemma stopped_watcher_ignores_writes fuel handler p o st :
  watching st = false ->
  DeepReactivity.call fuel handler p (SetValue o) st = Normal (set_input o st)
  /\ WatchEffect.call fuel handler (SetValue o) st = Normal (set_input o st).
Proof.
  intros Hw. unfold DeepReactivity.call, DeepReactivity.notify, WatchEffect.call,
    WatchEffect.rerun. simpl. by rewrite Hw.
Qed.

Lemma watch_effect_stop_unwatch st : watching (WatchEffect.stop st) = false.
Proof. unfold WatchEffect.stop, stop_effect. by destruct (watching st) eqn:E. Qed.

(** ** Disposing a scope of the sync variant

    In the sync variant the scope registered for a key carries the
    self-removing hook of the key. That hook calls [stop] on the scope
    registered for its key; and while the hooks of a scope run, the
    scope is not yet inert. So the disposal of a registered scope
    starts the disposal of a registered scope, and does not return. *)

Lemma self_removing_ext a b :
  childScopes b = childScopes a -> heap b = heap a ->
  self_removing a -> self_removing b.
Proof.
  intros Hc Hh H k c Hg. rewrite Hc in Hg. unfold scope_cleanups, is_active.
  rewrite Hh. by apply H.
Qed.

(** The hooks of a scope, fired in a state with the scopes and the
    registry of [st], by a [stop] that does not return on a registered
    scope: a self-removing hook whose key has an entry does not return,
    and any other hook leaves the scopes and the registry alone. *)
Section RegisteredHooks.
Variable stop : ScopeId -> State -> Outcome.
Variable st : State.
Hypothesis Hstop :
  forall k c a, heap a = heap st -> childScopes a = childScopes st ->
    JsMap.get k (childScopes st) = Some c -> stop c a = Diverged.

Lemma run_hook_registered owner h a :
  heap a = heap st -> childScopes a = childScopes st ->
  match run_hook stop owner h a with
  | Normal b => heap b = heap st /\ childScopes b = childScopes st
                /\ forall k, h = SelfRemove k -> JsMap.has k (childScopes st) = false
  | Thrown _ => False
  | Diverged => True
  end.
Proof.
  intros Hh Hc. unfold run_hook. destruct h as [key|n]; [|by simpl].
  unfold selfRemove. cbn [childScopes emit]. rewrite Hc.
  destruct (JsMap.has key (childScopes st)) eqn:Hhas; cbn [negb].
  - apply JsMapFacts.has_get in Hhas. destruct Hhas as [c Hg]. rewrite Hg.
    by rewrite (Hstop key c).
  - simpl. repeat split; try done. by intros k [= <-].
Qed.

Lemma run_hooks_registered owner l :
  forall a, heap a = heap st -> childScopes a = childScopes st ->
    match run_all (run_hook stop owner) l a with
    | Normal b => heap b = heap st /\ childScopes b = childScopes st
                  /\ forall k, In (SelfRemove k) l -> JsMap.has k (childScopes st) = false
    | Thrown _ => False
    | Diverged => True
    end.
Proof.
  induction l as [|h l IH]; intros a Hh Hc; simpl; [by repeat split|].
  pose proof (run_hook_registered owner h a Hh Hc) as H.
  destruct (run_hook stop owner h a) as [b|b|]; [|done|done].
  destruct H as (Hh1 & Hc1 & Hk). specialize (IH b Hh1 Hc1).
  destruct (run_all (run_hook stop owner) l b) as [d|d|]; [|done|done].
  destruct IH as (Hh2 & Hc2 & Hk'). repeat split; try done.
  intros k [->|Hin]; [by apply Hk | by apply Hk'].
Qed.

End RegisteredHooks.

(** The disposal of a registered scope of the sync variant does not
    return, whatever the fuel. *)
Lemma stop_fuel_registered_diverges fuel :
  forall st k c, self_removing st -> JsMap.get k (childScopes st) = Some c ->
    stop_fuel fuel c st = Diverged.
Proof.
  induction fuel as [|fuel IH]; intros st k c Hst Hg; [done|].
  destruct (Hst k c Hg) as [Hin Hact]. rewrite stop_fuel_S.
  unfold scope_cleanups, is_active in *. destruct (heap st !! c) as [sc|] eqn:Hs; [|done].
  rewrite Hact.
  destruct (fold_stop_effect_frame (effects sc) st) as [Hh Hc].
  assert (Hdiv : forall k' c' a, heap a = heap st -> childScopes a = childScopes st ->
                   JsMap.get k' (childScopes st) = Some c' -> stop_fuel fuel c' a = Diverged).
  { intros k' c' a Ha Hca Hg'. apply (IH a k' c'); [|by rewrite Hca].
    by apply (self_removing_ext st). }
  pose proof (run_hooks_registered (stop_fuel fuel) st Hdiv c (cleanups sc) _ Hh Hc) as H.
  destruct (run_all (run_hook (stop_fuel fuel) c) (cleanups sc) _) as [b|b|];
    [|done|done].
  destruct H as (_ & _ & Hk). specialize (Hk k Hin).
  apply JsMapFacts.has_false_get in Hk. congruence.
Qed.

Lemma run_all_keeps_self_removing (f : ScopeId -> State -> Outcome) l :
  (forall s a b, self_removing a -> f s a = Normal b ->
     childScopes b = childScopes a /\ self_removing b) ->
  forall st st', self_removing st -> run_all f l st = Normal st' ->
    childScopes st' = childScopes st /\ self_removing st'.
Proof.
  intros Hf. induction l as [|x l IH]; intros st st' Hst; simpl.
  - by intros [= <-].
  - destruct (f x st) as [s1|s1|] eqn:E; [|done|done]. intros Hl.
    destruct (Hf x st s1 Hst E) as [Hc1 Hs1].
    destruct (IH s1 st' Hs1 Hl) as [Hc2 Hs2]. split; [congruence | done].
Qed.

(** A disposal of the sync variant that returns has disposed no
    registered scope and has left the registry as it was. *)
Lemma stop_fuel_keeps_self_removing fuel :
  forall s st st', self_removing st -> stop_fuel fuel s st = Normal st' ->
    childScopes st' = childScopes st /\ self_removing st'.
Proof.
  induction fuel as [|fuel IH]; intros s st st' Hst Hstop; [done|].
  assert (Hnot : forall k, JsMap.get k (childScopes st) <> Some s).
  { intros k Hg. by rewrite (stop_fuel_registered_diverges (S fuel) st k s Hst Hg) in Hstop. }
  rewrite stop_fuel_S in Hstop.
  destruct (heap st !! s) as [sc|] eqn:Hs; [|by injection Hstop as <-].
  destruct (active sc); [|by injection Hstop as <-].
  destruct (fold_stop_effect_frame (effects sc) st) as [Hh Hc].
  assert (Hdiv : forall k' c' a, heap a = heap st -> childScopes a = childScopes st ->
                   JsMap.get k' (childScopes st) = Some c' -> stop_fuel fuel c' a = Diverged).
  { intros k' c' a Ha Hca Hg'.
    apply (stop_fuel_registered_diverges fuel a k' c'); [|by rewrite Hca].
    by apply (self_removing_ext st). }
  pose proof (run_hooks_registered (stop_fuel fuel) st Hdiv s (cleanups sc) _ Hh Hc) as H.
  destruct (run_all (run_hook (stop_fuel fuel) s) (cleanups sc) _) as [st2|st2|];
    [|done|done].
  destruct H as (Hh2 & Hc2 & _).
  assert (Hs2 : self_removing st2) by by apply (self_removing_ext st).
  destruct (run_all (stop_fuel fuel) (scopes sc) st2) as [st3|st3|] eqn:E3; [|done|done].
  injection Hstop as <-.
  destruct (run_all_keeps_self_removing (stop_fuel fuel) (scopes sc)
              (fun x a b => IH x a b) st2 st3 Hs2 E3) as [Hc3 Hs3].
  split; [simpl; congruence|].
  intros k c Hg. simpl in Hg. destruct (Hs3 k c Hg) as [Hin Hact].
  assert (Hne : s <> c).
  { intros ->. apply (Hnot k). congruence. }
  split.
  - change (In (SelfRemove k)
              (scope_cleanups c (set_heap (alter deactivate s (heap st3)) st3))).
    by rewrite scope_cleanups_deactivate.
  - change (is_active c (set_heap (alter deactivate s (heap st3)) st3) = true).
    rewrite is_active_deactivate. by destruct (decide (s = c)).
Qed.

Lemma run_all_stop_registered fuel l :
  forall st k c, self_removing st -> JsMap.get k (childScopes st) = Some c -> In c l ->
    run_all (stop_fuel fuel) l st = Diverged.
Proof.
  induction l as [|x l IH]; intros st k c Hst Hg Hin; [done|]. simpl.
  destruct Hin as [->|Hin].
  - by rewrite (stop_fuel_registered_diverges fuel st k c).
  - pose proof (stop_fuel_not_thrown fuel x st) as Hnt.
    destruct (stop_fuel fuel x st) as [st1|st1|] eqn:E; [|by destruct (Hnt st1)|done].
    destruct (stop_fuel_keeps_self_removing fuel x st st1 Hst E) as [Hc Hs1].
    apply (IH st1 k c); [done | by rewrite Hc | done].
Qed.

(** The disposal of a live scope that has a registered scope of the
    sync variant among its child scopes does not return, whatever the
    fuel. *)
Lemma stop_fuel_owner_diverges fuel p sc st k c :
  self_removing st -> heap st !! p = Some sc -> active sc = true ->
  JsMap.get k (childScopes st) = Some c -> In c (scopes sc) ->
  stop_fuel fuel p st = Diverged.
Proof.
  intros Hst Hp Hact Hg Hin. destruct fuel as [|fuel]; [done|].
  rewrite stop_fuel_S, Hp, Hact.
  destruct (fold_stop_effect_frame (effects sc) st) as [Hh Hc].
  assert (Hdiv : forall k' c' a, heap a = heap st -> childScopes a = childScopes st ->
                   JsMap.get k' (childScopes st) = Some c' -> stop_fuel fuel c' a = Diverged).
  { intros k' c' a Ha Hca Hg'.
    apply (stop_fuel_registered_diverges fuel a k' c'); [|by rewrite Hca].
    by apply (self_removing_ext st). }
  pose proof (run_hooks_registered (stop_fuel fuel) st Hdiv p (cleanups sc) _ Hh Hc) as H.
  destruct (run_all (run_hook (stop_fuel fuel) p) (cleanups sc) _) as [st2|st2|];
    [|done|done].
  destruct H as (Hh2 & Hc2 & _).
  rewrite (run_all_stop_registered fuel (scopes sc) st2 k c); [done | | by rewrite Hc2 | done].
  by apply (self_removing_ext st).
Qed.

(** ** Auxiliary facts *)

Lemma filter_nil {A} (f : A -> bool) (l : list A) :
  (forall x, In x l -> f x = false) -> List.filter f l = [].
Proof.
  induction l as [|x l IH]; intros H; simpl; [done|].
  rewrite (H x) by (by left). apply IH. intros y Hy. apply H. by right.
Qed.

Lemma onScopeDispose_cleanups h n st :
  activeEffectScope st = Some n -> is_active n st = true ->
  scope_cleanups n (onScopeDispose h st) = scope_cleanups n st ++ [h].
Proof.
  intros Ha Hact. unfold onScopeDispose, scope_cleanups, is_active in *. rewrite Ha. simpl.
  rewrite list_lookup_alter_eq. by destruct (heap st !! n).
Qed.

Lemma map_UserHook_no_SelfRemove us k : ~ In (SelfRemove k) (map UserHook us).
Proof. rewrite in_map_iff. by intros (n & Hn & _). Qed.


(** Hooks that a later stretch of the sync callback leaves on a scope
    that had none but the handler's. *)
Lemma pass_rel_no_self_remove_hook handler keys s st st' :
  pass_rel handler keys st st' -> is_active s st = true ->
  no_self_remove_hook s st -> no_self_remove_hook s st'.
Proof.
  intros [_ [Hh _ _]] Hact Hno k. unfold is_active, scope_cleanups, no_self_remove_hook in *.
  destruct (heap st !! s) as [sc|] eqn:Hs; [|done].
  destruct (Hh _ _ Hs) as (sc' & Hs' & _ & us & Hc). rewrite Hs', Hc, in_app_iff.
  intros [H|H]; [apply (Hno k); unfold scope_cleanups; by rewrite Hs|].
  by apply map_UserHook_no_SelfRemove in H.
Qed.

(** A state of the sync variant in which the returned function does
    not return: the parent scope is live and a registered scope is
    among its child scopes. *)
Lemma sync_dispose_diverges fuel handler p sc st k c cs :
  self_removing st -> heap st !! p = Some sc -> active sc = true ->
  JsMap.get k (childScopes st) = Some c -> In c (scopes sc) ->
  DeepReactivity.calls fuel handler p (Dispose :: cs) st = Diverged.
Proof.
  intros Hst Hp Hact Hg Hin. simpl. unfold DeepReactivity.dispose.
  by rewrite (stop_fuel_owner_diverges fuel p sc st k c).
Qed.

(** Going through the entries of a registry that is written out. *)
Ltac by_entries H :=
  cbn [JsMap.get] in H;
  repeat match type of H with
         | (if String.eqb ?a ?k then _ else _) = Some _ =>
             destruct (String.eqb_spec a k) as [<-|_];
             [injection H as <-; vm_compute; auto|]
         end;
  try done.

Lemma self_removing_sync_state_a : self_removing sync_state_a.
Proof.
  intros k c Hg. change (childScopes sync_state_a) with [("a", 1)] in Hg.
  by_entries Hg.
Qed.

Lemma self_removing_sync_state : self_removing sync_state.
Proof.
  intros k c Hg. change (childScopes sync_state) with [("a", 1); ("b", 2)] in Hg.
  by_entries Hg.
Qed.


(** ** What the adding loops can change

    The loops over [keysToAdd] act on the state only by creating a
    scope, setting an entry, switching the active scope, registering a
    hook, recording a handler call and, through the handler, writing
    the ref; a reflexive, transitive relation that each of these
    respects holds between the states before and after. *)
Section AddRule.
Variable R : State -> State -> Prop.
Hypothesis R_refl : forall st, R st st.
Hypothesis R_trans : forall a b c, R a b -> R b c -> R a c.
Hypothesis R_effectScope : forall st, R st (snd (effectScope st)).
Hypothesis R_set : forall st key s, R st (childScopes_set key s st).
Hypothesis R_active : forall st a, R st (set_activeEffectScope a st).
Hypothesis R_hook : forall st h, R st (onScopeDispose h st).
Hypothesis R_called : forall st key s, R st (emit (HandlerCalled key s) st).
Hypothesis R_input : forall st o, R st (set_input o st).

Lemma outcome_rule_trans a b r : R a b -> outcome_rel R b r -> outcome_rel R a r.
Proof. intros Hab. destruct r; simpl; eauto. Qed.

Lemma handler_entry_rule key st : R st (handler_entry key st).
Proof.
  rewrite handler_entry_eq.
  eapply R_trans; [apply R_effectScope|].
  eapply R_trans; [apply R_set | apply R_active].
Qed.

Section WithNotifyRule.
Variable notify : State -> Outcome.
Hypothesis Hnotify : forall s, outcome_rel R s (notify s).

Lemma run_ops_rule ops : forall st, outcome_rel R st (run_ops notify ops st).
Proof.
  induction ops as [|op ops IH]; intros st; simpl; [apply R_refl|].
  destruct op as [n|o|].
  - eapply outcome_rule_trans; [apply R_hook | apply IH].
  - pose proof (Hnotify (set_input o st)) as Hn.
    destruct (notify (set_input o st)) as [st'|st'|]; simpl in *; [| |done].
    + eapply outcome_rule_trans; [|apply IH]. eapply R_trans; [apply R_input | done].
    + eapply R_trans; [apply R_input | done].
  - apply R_refl.
Qed.

Lemma call_handler_rule handler key st :
  outcome_rel R st (call_handler notify handler key st).
Proof.
  unfold call_handler. destruct (activeEffectScope st) as [s|]; [|apply run_ops_rule].
  eapply outcome_rule_trans; [apply R_called | apply run_ops_rule].
Qed.

Lemma sync_add_key_rule handler key st :
  outcome_rel R st (DeepReactivity.add_key notify handler key st).
Proof.
  rewrite DeepReactivityFacts.sync_add_key_eq.
  pose proof (call_handler_rule handler key (handler_entry key st)) as H.
  pose proof (handler_entry_rule key st) as He.
  destruct (call_handler notify handler key (handler_entry key st)) as [s'|s'|];
    simpl in *; [| |done].
  - eapply R_trans; [exact He|]. eapply R_trans; [exact H|].
    eapply R_trans; [apply R_hook | apply R_active].
  - eapply R_trans; [exact He|]. eapply R_trans; [exact H | apply R_active].
Qed.

Lemma sync_add_loop_rule handler keys :
  forall st, outcome_rel R st (DeepReactivity.add_loop notify handler keys st).
Proof.
  induction keys as [|key rest IH]; intros st; simpl; [apply R_refl|].
  pose proof (sync_add_key_rule handler key st) as H.
  destruct (DeepReactivity.add_key notify handler key st) as [s'|s'|]; simpl in *;
    [| done | done].
  eapply outcome_rule_trans; [exact H | apply IH].
Qed.

End WithNotifyRule.

Lemma watch_callback_rule handler fuel :
  forall inputKeys st,
    outcome_rel R st (DeepReactivity.watch_callback fuel handler inputKeys st).
Proof.
  induction fuel as [|fuel IH]; intros inputKeys st; simpl; [done|].
  apply sync_add_loop_rule. intros s. destruct (watching s); [apply IH | apply R_refl].
Qed.

Lemma sync_notify_rule handler fuel s :
  outcome_rel R s (DeepReactivity.notify fuel handler s).
Proof.
  unfold DeepReactivity.notify.
  destruct (watching s); [apply watch_callback_rule | apply R_refl].
Qed.

Lemma effect_add_key_rule handler key st :
  outcome_rel R st (WatchEffect.add_key handler key st).
Proof.
  destruct (JsMap.has key (childScopes st)) eqn:Hhas.
  - rewrite WatchEffectFacts.effect_add_key_skip by done. apply R_refl.
  - rewrite WatchEffectFacts.effect_add_key_eq by done.
    assert (Hn : forall s, outcome_rel R s (WatchEffect.notify s)) by (intros s; apply R_refl).
    pose proof (call_handler_rule WatchEffect.notify Hn handler key (handler_entry key st))
      as H.
    pose proof (handler_entry_rule key st) as He.
    destruct (call_handler WatchEffect.notify handler key (handler_entry key st))
      as [s'|s'|]; simpl in *; [| |done];
      (eapply R_trans; [exact He|]; eapply R_trans; [exact H | apply R_active]).
Qed.

Lemma effect_add_loop_rule handler keys :
  forall st, outcome_rel R st (WatchEffect.add_loop handler keys st).
Proof.
  induction keys as [|key rest IH]; intros st; simpl; [apply R_refl|].
  pose proof (effect_add_key_rule handler key st) as H.
  destruct (WatchEffect.add_key handler key st) as [s'|s'|]; simpl in *; [| done | done].
  eapply outcome_rule_trans; [exact H | apply IH].
Qed.

End AddRule.

(** ** Three relations the adding loops respect *)

Lemma keeps_scopes_refl st : keeps_scopes st st.
Proof. intros s sc Hs. exists sc. by repeat split. Qed.

Lemma keeps_scopes_trans a b c : keeps_scopes a b -> keeps_scopes b c -> keeps_scopes a c.
Proof.
  intros H1 H2 s sc Hs. destruct (H1 s sc Hs) as (sc1 & Hs1 & A1 & E1 & C1).
  destruct (H2 s sc1 Hs1) as (sc2 & Hs2 & A2 & E2 & C2).
  exists sc2. repeat split; [done | congruence | congruence | auto].
Qed.

Lemma keeps_scopes_same_heap a b : heap b = heap a -> keeps_scopes a b.
Proof. intros H s sc Hs. exists sc. rewrite H. by repeat split. Qed.

Lemma keeps_scopes_alter (f : EffectScope -> EffectScope) x st :
  (forall sc, active (f sc) = active sc /\ effects (f sc) = effects sc
              /\ forall c, In c (scopes sc) -> In c (scopes (f sc))) ->
  keeps_scopes st (set_heap (alter f x (heap st)) st).
Proof.
  intros Hf s sc Hs. simpl. destruct (decide (x = s)) as [->|Hne].
  - exists (f sc). rewrite list_lookup_alter_eq, Hs. split; [done|]. apply Hf.
  - exists sc. rewrite list_lookup_alter_ne by done. by repeat split.
Qed.

Lemma keeps_scopes_effectScope st : keeps_scopes st (snd (effectScope st)).
Proof.
  intros s sc Hs. simpl.
  assert (Hs1 : (heap st ++ [mkScope true (activeEffectScope st) [] [] []]) !! s = Some sc)
    by by apply lookup_app_l_Some.
  destruct (activeEffectScope st) as [p|]; [|exists sc; by repeat split].
  destruct (decide (p = s)) as [->|Hne].
  - exists (push_scope (length (heap st)) sc). rewrite list_lookup_alter_eq, Hs1.
    repeat split. intros c Hc. simpl. apply in_or_app. by left.
  - exists sc. rewrite list_lookup_alter_ne by done. by repeat split.
Qed.

Lemma keeps_scopes_onScopeDispose h st : keeps_scopes st (onScopeDispose h st).
Proof.
  unfold onScopeDispose. destruct (activeEffectScope st) as [a|];
    [|apply keeps_scopes_refl].
  apply keeps_scopes_alter. intros sc. by repeat split.
Qed.

Lemma keeps_keys_refl st : keeps_keys st st.
Proof. by intros k. Qed.

Lemma keeps_keys_trans a b c : keeps_keys a b -> keeps_keys b c -> keeps_keys a c.
Proof. intros H1 H2 k Hk. auto. Qed.

Lemma keeps_keys_same a b : childScopes b = childScopes a -> keeps_keys a b.
Proof. intros H k. by rewrite H. Qed.

Lemma keeps_keys_set key s st : keeps_keys st (childScopes_set key s st).
Proof. intros k Hk. simpl. rewrite WatchEffectCoverage.has_set, Hk. done. Qed.

Lemma keeps_keys_onScopeDispose h st : keeps_keys st (onScopeDispose h st).
Proof.
  apply keeps_keys_same. unfold onScopeDispose. by destruct (activeEffectScope st).
Qed.

Lemma nothing_disposed_refl st : nothing_disposed st st.
Proof. split; [done|]. exists []. by rewrite app_nil_r. Qed.

Lemma nothing_disposed_trans a b c :
  nothing_disposed a b -> nothing_disposed b c -> nothing_disposed a c.
Proof.
  intros [W1 (es1 & T1 & F1)] [W2 (es2 & T2 & F2)]. split; [congruence|].
  exists (es1 ++ es2). rewrite T2, T1, app_assoc. split; [done|].
  apply Forall_app. done.
Qed.

Lemma nothing_disposed_same a b :
  watching b = watching a -> trace b = trace a -> nothing_disposed a b.
Proof. intros Hw Ht. split; [done|]. exists []. by rewrite app_nil_r. Qed.

Lemma nothing_disposed_emit e st : ~ disposal_event e -> nothing_disposed st (emit e st).
Proof. intros He. split; [done|]. exists [e]. split; [done|]. by apply Forall_singleton. Qed.

Lemma nothing_disposed_onScopeDispose h st : nothing_disposed st (onScopeDispose h st).
Proof.
  apply nothing_disposed_same; unfold onScopeDispose; by destruct (activeEffectScope st).
Qed.

Lemma nothing_disposed_effectScope st : nothing_disposed st (snd (effectScope st)).
Proof.
  split; [done|]. exists [ScopeCreated (length (heap st))]. split; [done|].
  apply Forall_singleton. intros H. exact H.
Qed.

Lemma hooks_fired_app tr1 tr2 :
  hooks_fired (tr1 ++ tr2) = hooks_fired tr1 ++ hooks_fired tr2.
Proof.
  induction tr1 as [|e tr1 IH]; [done|]. destruct e; simpl; try apply IH. by rewrite IH.
Qed.

Lemma handler_calls_app tr1 tr2 :
  handler_calls (tr1 ++ tr2) = handler_calls tr1 ++ handler_calls tr2.
Proof.
  induction tr1 as [|e tr1 IH]; [done|]. destruct e; simpl; try apply IH. by rewrite IH.
Qed.

Lemma nothing_disposed_hooks_fired a b :
  nothing_disposed a b -> hooks_fired (trace b) = hooks_fired (trace a).
Proof.
  intros [_ (es & -> & Hes)]. rewrite hooks_fired_app.
  assert (H : hooks_fired es = []).
  { induction Hes as [|e es He _ IH]; [done|]. destruct e; simpl in *; done. }
  by rewrite H, app_nil_r.
Qed.

Lemma pass_keeps_refl a : pass_keeps a a.
Proof.
  split; [apply keeps_scopes_refl|].
  split; [apply keeps_keys_refl | apply nothing_disposed_refl].
Qed.

Lemma pass_keeps_trans a b c : pass_keeps a b -> pass_keeps b c -> pass_keeps a c.
Proof.
  intros (S1 & K1 & N1) (S2 & K2 & N2).
  split; [by eapply keeps_scopes_trans|].
  split; [by eapply keeps_keys_trans | by eapply nothing_disposed_trans].
Qed.

Lemma pass_keeps_effectScope a : pass_keeps a (snd (effectScope a)).
Proof.
  split; [apply keeps_scopes_effectScope|].
  split; [by apply keeps_keys_same | apply nothing_disposed_effectScope].
Qed.

Lemma pass_keeps_set a key s : pass_keeps a (childScopes_set key s a).
Proof.
  split; [by apply keeps_scopes_same_heap|].
  split; [apply keeps_keys_set|].
  split; [done|]. exists [Registered key s]. split; [done|].
  apply Forall_singleton. intros H. exact H.
Qed.

Lemma pass_keeps_active a x : pass_keeps a (set_activeEffectScope x a).
Proof.
  split; [by apply keeps_scopes_same_heap|].
  split; [by apply keeps_keys_same | by apply nothing_disposed_same].
Qed.

Lemma pass_keeps_hook a h : pass_keeps a (onScopeDispose h a).
Proof.
  split; [apply keeps_scopes_onScopeDispose|].
  split; [apply keeps_keys_onScopeDispose | apply nothing_disposed_onScopeDispose].
Qed.

Lemma pass_keeps_called a key s : pass_keeps a (emit (HandlerCalled key s) a).
Proof.
  split; [by apply keeps_scopes_same_heap|].
  split; [by apply keeps_keys_same|].
  apply nothing_disposed_emit. intros H. exact H.
Qed.

Lemma pass_keeps_input a o : pass_keeps a (set_input o a).
Proof.
  split; [by apply keeps_scopes_same_heap|].
  split; [by apply keeps_keys_same | by apply nothing_disposed_same].
Qed.

Create HintDb keeps.
#[local] Hint Resolve pass_keeps_refl pass_keeps_effectScope pass_keeps_set
  pass_keeps_active pass_keeps_hook pass_keeps_called pass_keeps_input : keeps.

(** The sync callback, whatever the handler does and however it ends:
    scopes keep their liveness, their effects and their children, keys
    keep an entry, and nothing is disposed. *)
Lemma watch_callback_keeps fuel handler inputKeys st :
  outcome_rel pass_keeps st (DeepReactivity.watch_callback fuel handler inputKeys st).
Proof. apply watch_callback_rule; eauto using pass_keeps_trans with keeps. Qed.

Lemma sync_notify_keeps fuel handler st :
  outcome_rel pass_keeps st (DeepReactivity.notify fuel handler st).
Proof. apply sync_notify_rule; eauto using pass_keeps_trans with keeps. Qed.

Lemma effect_add_loop_keeps handler keys st :
  outcome_rel pass_keeps st (WatchEffect.add_loop handler keys st).
Proof. apply effect_add_loop_rule; eauto using pass_keeps_trans with keeps. Qed.

Lemma keeps_scopes_is_active a b s :
  keeps_scopes a b -> is_active s a = true -> is_active s b = true.
Proof.
  intros H. unfold is_active. destruct (heap a !! s) as [sc|] eqn:Hs; [|done].
  destruct (H s sc Hs) as (sc' & -> & -> & _). done.
Qed.

(** ** Keys the sync callback registers *)

Section SyncRegisters.
Variable notify : State -> Outcome.
Hypothesis Hnotify : forall s, outcome_rel pass_keeps s (notify s).

Lemma sync_add_key_registers handler key st st' :
  DeepReactivity.add_key notify handler key st = Normal st' ->
  JsMap.has key (childScopes st') = true.
Proof.
  rewrite DeepReactivityFacts.sync_add_key_eq.
  pose proof (call_handler_rule pass_keeps pass_keeps_refl pass_keeps_trans
                pass_keeps_hook pass_keeps_called pass_keeps_input
                notify Hnotify handler key (handler_entry key st)) as H.
  destruct (call_handler notify handler key (handler_entry key st)) as [s'|s'|];
    [|done|done].
  intros [= <-]. destruct H as (_ & Hk & _).
  assert (Hs' : JsMap.has key (childScopes s') = true).
  { apply Hk. simpl. apply JsMapFacts.has_set_eq. }
  simpl. unfold onScopeDispose. by destruct (activeEffectScope s').
Qed.

Lemma sync_add_loop_registers handler keys :
  forall st st', DeepReactivity.add_loop notify handler keys st = Normal st' ->
    forall k, In k keys -> JsMap.has k (childScopes st') = true.
Proof.
  induction keys as [|key rest IH]; intros st st' Hl k Hin; [done|].
  simpl in Hl.
  destruct (DeepReactivity.add_key notify handler key st) as [s1|s1|] eqn:Hk;
    [|done|done].
  destruct Hin as [<-|Hin]; [|by eapply IH].
  pose proof (sync_add_loop_rule pass_keeps pass_keeps_refl pass_keeps_trans
                pass_keeps_effectScope pass_keeps_set pass_keeps_active
                pass_keeps_hook pass_keeps_called pass_keeps_input
                notify Hnotify handler rest s1) as H.
  rewrite Hl in H. destruct H as (_ & Hkeys & _).
  apply Hkeys. by eapply sync_add_key_registers.
Qed.

End SyncRegisters.

(** ** A handler that does not write the ref

    Such a handler starts no nested pass: what the loop body does for
    one key can be written down. *)

Lemma run_ops_write_free notify ops :
  (forall o, ~ In (Write o) ops) ->
  forall st, ends (run_ops notify ops st)
    /\ outcome_rel (fun a b => childScopes b = childScopes a /\ trace b = trace a
                               /\ input b = input a /\ watching b = watching a)
         st (run_ops notify ops st).
Proof.
  induction ops as [|op ops IH]; intros Hno st; simpl; [done|].
  assert (Hno' : forall o, ~ In (Write o) ops)
    by (intros o Ho; apply (Hno o); by right).
  destruct op as [n|o|].
  - destruct (IH Hno' (onScopeDispose (UserHook n) st)) as [He Hr]. split; [done|].
    assert (H0 : childScopes (onScopeDispose (UserHook n) st) = childScopes st
                 /\ trace (onScopeDispose (UserHook n) st) = trace st
                 /\ input (onScopeDispose (UserHook n) st) = input st
                 /\ watching (onScopeDispose (UserHook n) st) = watching st)
      by (unfold onScopeDispose; by destruct (activeEffectScope st)).
    destruct H0 as (C0 & T0 & I0 & W0).
    destruct (run_ops notify ops (onScopeDispose (UserHook n) st)); simpl in *;
      [| |done]; destruct Hr as (C & T & I & W); repeat split; congruence.
  - exfalso. apply (Hno o). by left.
  - done.
Qed.

Lemma sync_add_key_write_free notify handler key st st' :
  (forall o, ~ In (Write o) (handler key)) ->
  DeepReactivity.add_key notify handler key st = Normal st' ->
  childScopes st' = JsMap.set key (length (heap st)) (childScopes st)
  /\ trace st' = trace st ++ [ScopeCreated (length (heap st));
                              Registered key (length (heap st));
                              HandlerCalled key (length (heap st))]
  /\ input st' = input st /\ watching st' = watching st.
Proof.
  intros Hno. rewrite DeepReactivityFacts.sync_add_key_eq.
  unfold call_handler. rewrite handler_entry_activeEffectScope.
  match goal with |- context [run_ops notify ?ops ?s] =>
    destruct (run_ops_write_free notify ops Hno s) as [_ H];
    destruct (run_ops notify ops s) as [s'|s'|]
  end; [|done|done].
  intros [= <-]. simpl in H. destruct H as (C & T & I & W).
  assert (H0 : childScopes (onScopeDispose (SelfRemove key) s') = childScopes s'
               /\ trace (onScopeDispose (SelfRemove key) s') = trace s'
               /\ input (onScopeDispose (SelfRemove key) s') = input s'
               /\ watching (onScopeDispose (SelfRemove key) s') = watching s')
    by (unfold onScopeDispose; by destruct (activeEffectScope s')).
  destruct H0 as (C0 & T0 & I0 & W0). simpl.
  rewrite C0, T0, I0, W0, C, T, I, W. repeat split.
  by rewrite <- !app_assoc.
Qed.

Lemma sync_add_loop_write_free notify handler keys :
  (forall key o, ~ In (Write o) (handler key)) ->
  forall st st', DeepReactivity.add_loop notify handler keys st = Normal st' ->
    (forall k, JsMap.has k (childScopes st')
               = JsMap.has k (childScopes st) || includes k keys)
    /\ handler_calls (trace st') = handler_calls (trace st) ++ keys
    /\ input st' = input st /\ watching st' = watching st.
Proof.
  intros Hno. induction keys as [|key rest IH]; intros st st'; simpl.
  - intros [= <-]. split; [intros k; by rewrite orb_false_r|].
    by rewrite app_nil_r.
  - destruct (DeepReactivity.add_key notify handler key st) as [s1|s1|] eqn:Hk;
      [|done|done].
    intros Hl. destruct (IH _ _ Hl) as (Hh & Hc & Hi & Hw).
    destruct (sync_add_key_write_free _ _ _ _ _ (Hno key) Hk) as (C1 & T1 & I1 & W1).
    repeat split; [|rewrite Hc, T1, handler_calls_app; simpl; by rewrite <- app_assoc
                   |congruence|congruence].
    intros k. rewrite Hh, C1, WatchEffectCoverage.has_set. unfold includes. simpl.
    by rewrite orb_assoc.
Qed.

(** ** The hooks a handler registers land on its key's scope *)

Lemma hooks_kept_refl st : hooks_kept st st.
Proof. split; [done|]. intros s sc Hs. exists sc. by repeat split. Qed.

Lemma hooks_kept_trans a b c : hooks_kept a b -> hooks_kept b c -> hooks_kept a c.
Proof.
  intros [A1 H1] [A2 H2]. split; [congruence|]. intros s sc Hs.
  destruct (H1 s sc Hs) as (sc1 & Hs1 & Ac1 & C1).
  destruct (H2 s sc1 Hs1) as (sc2 & Hs2 & Ac2 & C2).
  exists sc2. repeat split; congruence.
Qed.

Lemma hooks_added_nil a st st' : hooks_added a [] st st' <-> hooks_kept st st'.
Proof.
  split; intros [Ha H]; (split; [done|]); intros s sc Hs;
    destruct (H s sc Hs) as (sc' & Hs' & Hact & Hc); exists sc';
    (repeat split; [done | done |]).
  - rewrite Hc. destruct (decide (s = a)); apply app_nil_r.
  - rewrite Hc. destruct (decide (s = a)); by rewrite app_nil_r.
Qed.

Lemma hooks_added_trans a hs1 hs2 x y z :
  hooks_added a hs1 x y -> hooks_added a hs2 y z -> hooks_added a (hs1 ++ hs2) x z.
Proof.
  intros [A1 H1] [A2 H2]. split; [congruence|]. intros s sc Hs.
  destruct (H1 s sc Hs) as (sc1 & Hs1 & Ac1 & C1).
  destruct (H2 s sc1 Hs1) as (sc2 & Hs2 & Ac2 & C2).
  exists sc2. repeat split; [done | congruence |].
  rewrite C2, C1. destruct (decide (s = a)); [by rewrite app_assoc | by rewrite !app_nil_r].
Qed.

Lemma hooks_added_onScopeDispose h a st :
  activeEffectScope st = Some a -> hooks_added a [h] st (onScopeDispose h st).
Proof.
  intros Ha. split; [apply onScopeDispose_activeEffectScope|].
  intros s sc Hs. unfold onScopeDispose. rewrite Ha. simpl.
  destruct (decide (s = a)) as [->|Hne].
  - exists (push_cleanup h sc). by rewrite list_lookup_alter_eq, Hs.
  - exists sc. rewrite list_lookup_alter_ne by done. by rewrite app_nil_r.
Qed.

Lemma hooks_kept_same a b :
  heap b = heap a -> activeEffectScope b = activeEffectScope a -> hooks_kept a b.
Proof. intros Hh Ha. split; [done|]. intros s sc Hs. exists sc. rewrite Hh. done. Qed.

(** In the state in which a handler starts, the scopes that existed
    carry the hooks they had, and the new scope carries none. *)
Lemma handler_entry_hooks key st :
  (forall s sc, heap st !! s = Some sc ->
     exists sc', heap (handler_entry key st) !! s = Some sc' /\ active sc' = active sc
                 /\ cleanups sc' = cleanups sc)
  /\ scope_cleanups (length (heap st)) (handler_entry key st) = [].
Proof.
  split.
  - intros s sc Hs.
    change (heap (handler_entry key st)) with (heap (snd (effectScope st))).
    pose proof (keeps_scopes_effectScope st s sc Hs) as (sc' & Hs' & Hact & _).
    exists sc'. repeat split; [done | done |].
    simpl in Hs'.
    assert (Hs1 : (heap st ++ [mkScope true (activeEffectScope st) [] [] []]) !! s
                  = Some sc) by by apply lookup_app_l_Some.
    destruct (activeEffectScope st) as [p|]; [|congruence].
    destruct (decide (p = s)) as [->|Hne].
    + rewrite list_lookup_alter_eq, Hs1 in Hs'. by injection Hs' as <-.
    + rewrite list_lookup_alter_ne in Hs' by done. congruence.
  - destruct (handler_entry_scope key st) as (sc & Hsc & _ & Hc).
    unfold scope_cleanups. by rewrite Hsc.
Qed.

Section SyncHooks.
Variable notify : State -> Outcome.
Hypothesis Hnotify : forall s, outcome_rel hooks_kept s (notify s).

Lemma run_ops_hooks ops :
  forall st a, activeEffectScope st = Some a ->
    match run_ops notify ops st with
    | Normal st' => hooks_added a (hooks_of ops) st st'
    | Thrown st' => exists hs, hooks_added a hs st st'
    | Diverged => True
    end.
Proof.
  induction ops as [|op ops IH]; intros st a Ha; simpl.
  - apply hooks_added_nil, hooks_kept_refl.
  - destruct op as [n|o|].
    + pose proof (hooks_added_onScopeDispose (UserHook n) a st Ha) as H1.
      assert (Ha1 : activeEffectScope (onScopeDispose (UserHook n) st) = Some a)
        by by rewrite onScopeDispose_activeEffectScope.
      specialize (IH _ a Ha1).
      destruct (run_ops notify ops (onScopeDispose (UserHook n) st)) as [s'|s'|];
        [| |done].
      * apply (hooks_added_trans a [UserHook n] (hooks_of ops) _ _ _ H1 IH).
      * destruct IH as [hs Hhs]. exists ([UserHook n] ++ hs).
        by eapply hooks_added_trans.
    + pose proof (Hnotify (set_input o st)) as Hn.
      destruct (notify (set_input o st)) as [s1|s1|]; simpl in Hn; [| |done].
      * assert (H1 : hooks_added a [] st s1).
        { apply hooks_added_nil. eapply hooks_kept_trans; [|exact Hn].
          by apply hooks_kept_same. }
        assert (Ha1 : activeEffectScope s1 = Some a) by (destruct Hn as [Hn1 _]; simpl in Hn1; congruence).
        specialize (IH _ a Ha1).
        destruct (run_ops notify ops s1) as [s'|s'|]; [| |done].
        -- apply (hooks_added_trans a [] (hooks_of ops) _ _ _ H1 IH).
        -- destruct IH as [hs Hhs]. exists ([] ++ hs). by eapply hooks_added_trans.
      * exists []. apply hooks_added_nil. eapply hooks_kept_trans; [|exact Hn].
        by apply hooks_kept_same.
    + exists []. apply hooks_added_nil, hooks_kept_refl.
Qed.

(** What the hooks are when [handler(key)] has ended, started in
    [handler_entry key st]. *)
Lemma call_handler_hooks handler key st :
  match call_handler notify handler key (handler_entry key st) with
  | Normal s' =>
      activeEffectScope s' = Some (length (heap st))
      /\ scope_cleanups (length (heap st)) s' = hooks_of (handler key)
      /\ is_active (length (heap st)) s' = true
      /\ forall s sc, heap st !! s = Some sc ->
           exists sc', heap s' !! s = Some sc' /\ active sc' = active sc
                       /\ cleanups sc' = cleanups sc
  | Thrown s' =>
      activeEffectScope s' = Some (length (heap st))
      /\ forall s sc, heap st !! s = Some sc ->
           exists sc', heap s' !! s = Some sc' /\ active sc' = active sc
                       /\ cleanups sc' = cleanups sc
  | Diverged => True
  end.
Proof.
  destruct (handler_entry_hooks key st) as [Hold Hnew].
  destruct (handler_entry_scope key st) as (scn & Hscn & Hactn & Hcn).
  unfold call_handler. rewrite handler_entry_activeEffectScope.
  set (he := emit (HandlerCalled key (length (heap st))) (handler_entry key st)).
  pose proof (run_ops_hooks (handler key) he (length (heap st)) eq_refl) as H.
  assert (Hother : forall hs s', hooks_added (length (heap st)) hs he s' ->
            forall s sc, heap st !! s = Some sc ->
              exists sc', heap s' !! s = Some sc' /\ active sc' = active sc
                          /\ cleanups sc' = cleanups sc).
  { intros hs s' [_ Hh] s sc Hs.
    destruct (Hold s sc Hs) as (sc1 & Hs1 & A1 & C1).
    destruct (Hh s sc1 Hs1) as (sc2 & Hs2 & A2 & C2).
    exists sc2. repeat split; [done | congruence |].
    assert (s < length (heap st)) by (apply lookup_lt_is_Some; eauto).
    rewrite C2, C1. destruct (decide (s = length (heap st))); [lia | apply app_nil_r]. }
  destruct (run_ops notify (handler key) he) as [s'|s'|]; [| |done].
  - pose proof H as [Ha Hh]. split; [by rewrite Ha|].
    destruct (Hh _ _ Hscn) as (sc' & Hs' & A' & C').
    unfold scope_cleanups, is_active. rewrite Hs'. repeat split.
    + rewrite C', Hcn. simpl. by destruct (decide _).
    + congruence.
    + by apply (Hother (hooks_of (handler key))).
  - destruct H as [hs H]. pose proof H as [Ha _]. split; [by rewrite Ha|].
    by apply (Hother hs).
Qed.

End SyncHooks.

Section SyncHooksLoop.
Variable notify : State -> Outcome.
Hypothesis Hnotify : forall s, outcome_rel hooks_kept s (notify s).

(** The loop body of the sync variant for one key: the new scope
    carries the hooks the handler registered and then the self-removing
    hook; no scope that existed got a hook. *)
Lemma sync_add_key_hooks handler key st :
  match DeepReactivity.add_key notify handler key st with
  | Normal st' =>
      hooks_kept st st'
      /\ scope_cleanups (length (heap st)) st' = hooks_of (handler key) ++ [SelfRemove key]
      /\ is_active (length (heap st)) st' = true
  | Thrown st' => hooks_kept st st'
  | Diverged => True
  end.
Proof.
  rewrite DeepReactivityFacts.sync_add_key_eq.
  pose proof (call_handler_hooks notify Hnotify handler key st) as H.
  destruct (call_handler notify handler key (handler_entry key st)) as [s'|s'|];
    [| |done].
  - destruct H as (Ha & Hc & Hact & Hold).
    pose proof (hooks_added_onScopeDispose (SelfRemove key) _ s' Ha) as [_ Hh].
    repeat split.
    + intros s sc Hs. destruct (Hold s sc Hs) as (sc1 & Hs1 & A1 & C1).
      destruct (Hh s sc1 Hs1) as (sc2 & Hs2 & A2 & C2).
      exists sc2. simpl. repeat split; [done | congruence |].
      assert (s < length (heap st)) by (apply lookup_lt_is_Some; eauto).
      rewrite C2, C1. destruct (decide (s = length (heap st))); [lia | apply app_nil_r].
    + unfold scope_cleanups, is_active in *. simpl.
      destruct (heap s' !! length (heap st)) as [scn|] eqn:Hn; [|done].
      destruct (Hh _ _ Hn) as (sc2 & Hs2 & A2 & C2). rewrite Hs2, C2, Hc.
      by destruct (decide _).
    + unfold scope_cleanups, is_active in *. simpl.
      destruct (heap s' !! length (heap st)) as [scn|] eqn:Hn; [|done].
      destruct (Hh _ _ Hn) as (sc2 & Hs2 & A2 & C2). rewrite Hs2. congruence.
  - destruct H as (Ha & Hold). by split.
Qed.

Lemma sync_add_loop_hooks handler keys :
  forall st, outcome_rel hooks_kept st (DeepReactivity.add_loop notify handler keys st).
Proof.
  induction keys as [|key rest IH]; intros st; simpl; [apply hooks_kept_refl|].
  pose proof (sync_add_key_hooks handler key st) as H.
  destruct (DeepReactivity.add_key notify handler key st) as [s1|s1|]; [| done | done].
  destruct H as (H & _). specialize (IH s1).
  destruct (DeepReactivity.add_loop notify handler rest s1); simpl in *;
    eauto using hooks_kept_trans.
Qed.

End SyncHooksLoop.

(** A pass of the sync variant, nested passes included, registers no
    hook on a scope that existed when it started. *)
Lemma watch_callback_hooks_kept handler fuel :
  forall inputKeys st,
    outcome_rel hooks_kept st (DeepReactivity.watch_callback fuel handler inputKeys st).
Proof.
  induction fuel as [|fuel IH]; intros inputKeys st; simpl; [done|].
  apply sync_add_loop_hooks. intros s.
  destruct (watching s); [apply IH | apply hooks_kept_refl].
Qed.

Lemma sync_notify_hooks_kept handler fuel s :
  outcome_rel hooks_kept s (DeepReactivity.notify fuel handler s).
Proof.
  unfold DeepReactivity.notify.
  destruct (watching s); [apply watch_callback_hooks_kept | apply hooks_kept_refl].
Qed.

Lemma hooks_kept_cleanups a b s :
  hooks_kept a b -> s < length (heap a) -> scope_cleanups s b = scope_cleanups s a.
Proof.
  intros [_ H] Hs. unfold scope_cleanups.
  destruct (lookup_lt_is_Some_2 (heap a) s Hs) as [sc Hsc].
  destruct (H s sc Hsc) as (sc' & -> & _ & ->). by rewrite Hsc.
Qed.

(** In the [watchEffect] variant a handler body runs to its end or to
    its own throw: the hooks registered are those of the body in both
    cases. *)
Lemma effect_run_ops_hooks ops :
  forall st a, activeEffectScope st = Some a ->
    outcome_rel (hooks_added a (hooks_of ops)) st (run_ops WatchEffect.notify ops st).
Proof.
  induction ops as [|op ops IH]; intros st a Ha; simpl.
  - apply hooks_added_nil, hooks_kept_refl.
  - destruct op as [n|o|].
    + pose proof (hooks_added_onScopeDispose (UserHook n) a st Ha) as H1.
      assert (Ha1 : activeEffectScope (onScopeDispose (UserHook n) st) = Some a)
        by by rewrite onScopeDispose_activeEffectScope.
      specialize (IH _ a Ha1).
      destruct (run_ops WatchEffect.notify ops (onScopeDispose (UserHook n) st))
        as [s'|s'|]; simpl in *; [| |done];
        apply (hooks_added_trans a [UserHook n] (hooks_of ops) _ _ _ H1 IH).
    + assert (H1 : hooks_added a [] st (set_input o st))
        by by apply hooks_added_nil, hooks_kept_same.
      specialize (IH (set_input o st) a Ha).
      destruct (run_ops WatchEffect.notify ops (set_input o st)) as [s'|s'|];
        simpl in *; [| |done];
        apply (hooks_added_trans a [] (hooks_of ops) _ _ _ H1 IH).
    + apply hooks_added_nil, hooks_kept_refl.
Qed.

(** The loop body of the [watchEffect] variant for a key without an
    entry, however the handler ends. *)
Lemma effect_add_key_hooks handler key st :
  JsMap.has key (childScopes st) = false ->
  outcome_rel (fun a b =>
      hooks_kept a b
      /\ scope_cleanups (length (heap a)) b = hooks_of (handler key)
      /\ is_active (length (heap a)) b = true)
    st (WatchEffect.add_key handler key st).
Proof.
  intros Hhas. rewrite WatchEffectFacts.effect_add_key_eq by done.
  destruct (handler_entry_hooks key st) as [Hold Hnew].
  destruct (handler_entry_scope key st) as (scn & Hscn & Hactn & Hcn).
  unfold call_handler. rewrite handler_entry_activeEffectScope.
  set (he := emit (HandlerCalled key (length (heap st))) (handler_entry key st)).
  pose proof (effect_run_ops_hooks (handler key) he (length (heap st)) eq_refl) as H.
  assert (Hgoal : forall s', hooks_added (length (heap st)) (hooks_of (handler key)) he s' ->
            hooks_kept st (set_activeEffectScope (activeEffectScope st) s')
            /\ scope_cleanups (length (heap st))
                 (set_activeEffectScope (activeEffectScope st) s') = hooks_of (handler key)
            /\ is_active (length (heap st))
                 (set_activeEffectScope (activeEffectScope st) s') = true).
  { intros s' [_ Hh]. repeat split.
    - intros s sc Hs. destruct (Hold s sc Hs) as (sc1 & Hs1 & A1 & C1).
      destruct (Hh s sc1 Hs1) as (sc2 & Hs2 & A2 & C2).
      exists sc2. simpl. repeat split; [done | congruence |].
      assert (s < length (heap st)) by (apply lookup_lt_is_Some; eauto).
      rewrite C2, C1. destruct (decide (s = length (heap st))); [lia | apply app_nil_r].
    - destruct (Hh _ _ Hscn) as (sc2 & Hs2 & A2 & C2).
      unfold scope_cleanups. simpl. rewrite Hs2, C2, Hcn. by destruct (decide _).
    - destruct (Hh _ _ Hscn) as (sc2 & Hs2 & A2 & C2).
      unfold is_active. simpl. rewrite Hs2. congruence. }
  destruct (run_ops WatchEffect.notify (handler key) he) as [s'|s'|]; simpl in *; auto.
Qed.

Lemma hooks_fired_of_app s tr1 tr2 :
  hooks_fired_of s (tr1 ++ tr2) = hooks_fired_of s tr1 ++ hooks_fired_of s tr2.
Proof.
  induction tr1 as [|e tr1 IH]; [done|]. destruct e; simpl; try apply IH.
  destruct (Nat.eqb s0 s); simpl; by rewrite IH.
Qed.

Lemma hooks_fired_of_map x s (l : list Hook) :
  hooks_fired_of x (map (HookFired s) l) = if decide (x = s) then l else [].
Proof.
  induction l as [|hk l IH]; simpl; [by destruct (decide _)|]. rewrite IH.
  destruct (Nat.eqb_spec s x) as [Heq|Hne]; destruct (decide (x = s)); congruence.
Qed.


(** ** What a handler body keeps in the [watchEffect] variant *)

Lemma handler_keeps_refl a : handler_keeps a a.
Proof. repeat split. intros s sc Hs. exists sc. by repeat split. Qed.

Lemma handler_keeps_trans a b c :
  handler_keeps a b -> handler_keeps b c -> handler_keeps a c.
Proof.
  intros (C1 & A1 & W1 & T1 & L1 & H1) (C2 & A2 & W2 & T2 & L2 & H2).
  repeat split; try congruence. intros s sc Hs.
  destruct (H1 s sc Hs) as (sc1 & Hs1 & Ac1 & E1 & S1).
  destruct (H2 s sc1 Hs1) as (sc2 & Hs2 & Ac2 & E2 & S2).
  exists sc2. repeat split; congruence.
Qed.

Lemma handler_keeps_hook a h : handler_keeps a (onScopeDispose h a).
Proof.
  unfold onScopeDispose. destruct (activeEffectScope a) as [x|] eqn:Ha;
    [|apply handler_keeps_refl].
  repeat split; simpl; [apply length_alter |]. intros s sc Hs.
  destruct (decide (x = s)) as [->|Hne].
  - exists (push_cleanup h sc). by rewrite list_lookup_alter_eq, Hs.
  - exists sc. by rewrite list_lookup_alter_ne.
Qed.

Lemma handler_keeps_input a o : handler_keeps a (set_input o a).
Proof. repeat split. intros s sc Hs. exists sc. by repeat split. Qed.

Lemma effect_run_ops_keeps ops st :
  outcome_rel handler_keeps st (run_ops WatchEffect.notify ops st).
Proof.
  apply run_ops_rule; eauto using handler_keeps_refl, handler_keeps_trans,
    handler_keeps_hook, handler_keeps_input.
  intros s. apply handler_keeps_refl.
Qed.

Lemma effectScope_new st :
  active_allocated st ->
  heap (snd (effectScope st)) !! length (heap st)
  = Some (mkScope true (activeEffectScope st) [] [] []).
Proof.
  intros Hamb. simpl.
  assert (Hn : (heap st ++ [mkScope true (activeEffectScope st) [] [] []])
                 !! length (heap st)
               = Some (mkScope true (activeEffectScope st) [] [] [])).
  { rewrite lookup_app_r by lia. by rewrite Nat.sub_diag. }
  destruct (activeEffectScope st) as [p|] eqn:Ha; [|done].
  specialize (Hamb p Ha). rewrite list_lookup_alter_ne by lia. done.
Qed.

Lemma effectScope_old st x sc :
  heap st !! x = Some sc -> activeEffectScope st <> Some x ->
  heap (snd (effectScope st)) !! x = Some sc.
Proof.
  intros Hx Ha. simpl.
  assert (Hx1 : (heap st ++ [mkScope true (activeEffectScope st) [] [] []]) !! x = Some sc)
    by by apply lookup_app_l_Some.
  destruct (activeEffectScope st) as [p|]; [|done].
  rewrite list_lookup_alter_ne; [done | congruence].
Qed.

Module WatchEffectInv.
Import WatchEffect.

(** The state in which the handler of a new key starts, and what it
    has become when the handler has ended. *)
Lemma handler_entry_leaf handler key st :
  effect_inv st -> JsMap.has key (childScopes st) = false ->
  outcome_sat (fun s' =>
      leaf_registry (set_activeEffectScope (activeEffectScope st) s')
      /\ length (heap s') = S (length (heap st))
      /\ childScopes s' = JsMap.set key (length (heap st)) (childScopes st)
      /\ watching s' = watching st
      /\ trace s' = trace st ++ [ScopeCreated (length (heap st));
                                 Registered key (length (heap st));
                                 HandlerCalled key (length (heap st))])
    (call_handler notify handler key (handler_entry key st)).
Proof.
  intros (Hown & Hleaf & Hamb) Hhas.
  unfold call_handler. rewrite handler_entry_activeEffectScope.
  set (he := emit (HandlerCalled key (length (heap st))) (handler_entry key st)).
  pose proof (effect_run_ops_keeps (handler key) he) as H.
  assert (Hgoal : forall s', handler_keeps he s' ->
    leaf_registry (set_activeEffectScope (activeEffectScope st) s')
    /\ length (heap s') = S (length (heap st))
    /\ childScopes s' = JsMap.set key (length (heap st)) (childScopes st)
    /\ watching s' = watching st
    /\ trace s' = trace st ++ [ScopeCreated (length (heap st));
                               Registered key (length (heap st));
                               HandlerCalled key (length (heap st))]).
  { intros s' (C & A & W & T & L & Hh).
    assert (Hlen : length (heap he) = S (length (heap st)))
      by apply effectScope_heap_length.
    split; [|repeat split; [lia | by rewrite C | by rewrite W
                            | rewrite T; simpl; by rewrite <- !app_assoc]].
    assert (HC : childScopes (set_activeEffectScope (activeEffectScope st) s')
                 = JsMap.set key (length (heap st)) (childScopes st))
      by (simpl; by rewrite C).
    intros k x Hg. rewrite HC in Hg.
    cbn [activeEffectScope set_activeEffectScope heap].
    destruct (String.eqb_spec k key) as [->|Hne].
    - rewrite JsMapFacts.get_set_eq in Hg. injection Hg as <-.
      pose proof (effectScope_new st Hamb) as Hn.
      destruct (Hh _ _ Hn) as (sc' & Hs' & Ac & E & S).
      repeat split.
      + exists sc'. by rewrite Hs', Ac, E, S.
      + intros Hp. apply Hamb in Hp. lia.
      + intros k' Hg'. rewrite HC in Hg'.
        destruct (String.eqb_spec k' key) as [->|Hne']; [done|].
        rewrite JsMapFacts.get_set_ne in Hg' by done.
        destruct (Hleaf k' _ Hg') as ((sc0 & Hs0 & _) & _).
        apply lookup_lt_Some in Hs0. lia.
    - rewrite JsMapFacts.get_set_ne in Hg by done.
      destruct (Hleaf k x Hg) as ((sc0 & Hs0 & Ac0 & E0 & S0) & Ha0 & Hinj).
      pose proof (effectScope_old st x sc0 Hs0 Ha0) as Hx.
      destruct (Hh _ _ Hx) as (sc' & Hs' & Ac & E & S).
      repeat split.
      + exists sc'. by rewrite Hs', Ac, E, S.
      + done.
      + intros k' Hg'. rewrite HC in Hg'.
        destruct (String.eqb_spec k' key) as [->|Hne'].
        * rewrite JsMapFacts.get_set_eq in Hg'. injection Hg' as <-.
          apply lookup_lt_Some in Hs0. lia.
        * rewrite JsMapFacts.get_set_ne in Hg' by done. by apply Hinj. }
  destruct (run_ops notify (handler key) he) as [s'|s'|]; simpl in *; auto.
Qed.

Lemma effect_add_key_inv handler key st :
  effect_inv st -> outcome_sat effect_inv (add_key handler key st).
Proof.
  intros Hst. pose proof (WatchEffectUniqueness.add_key_owns_live handler key st (proj1 Hst))
    as Hown.
  destruct (JsMap.has key (childScopes st)) eqn:Hhas.
  - by rewrite WatchEffectFacts.effect_add_key_skip.
  - rewrite WatchEffectFacts.effect_add_key_eq in * by done.
    pose proof (handler_entry_leaf handler key st Hst Hhas) as H.
    destruct Hst as (_ & _ & Hamb).
    destruct (call_handler notify handler key (handler_entry key st)) as [s'|s'|];
      simpl in *; [| |done]; destruct H as (Hl & Hlen & _);
      (split; [done|]; split; [done|]); intros p Hp; simpl in *;
      apply Hamb in Hp; lia.
Qed.

Lemma effect_add_loop_inv handler keys :
  forall st, effect_inv st -> outcome_sat effect_inv (add_loop handler keys st).
Proof.
  induction keys as [|key rest IH]; intros st Hst; simpl; [done|].
  pose proof (effect_add_key_inv handler key st Hst) as H.
  destruct (add_key handler key st); simpl in *; [by apply IH | done | done].
Qed.

(** A pass of the [watchEffect] variant keeps the invariant, however
    it ends. *)
Lemma effect_body_inv fuel handler st :
  effect_inv st -> outcome_sat effect_inv (effect_body fuel handler st).
Proof.
  intros Hst. unfold effect_body.
  pose proof (WatchEffectLeaf.remove_loop_inv fuel
                (keysToRemove (Object_keys (input st)) (JsMap.keys (childScopes st)))
                st Hst) as H.
  destruct (remove_loop fuel _ st) as [st1|st1|]; simpl in *;
    [by apply effect_add_loop_inv | done | done].
Qed.

End WatchEffectInv.

(** ** The invariant in every state of a session of the [watchEffect]
    variant *)

Lemma effect_inv_ext a b :
  heap b = heap a -> childScopes b = childScopes a ->
  (forall k, scopes_registered_for k (trace b) = scopes_registered_for k (trace a)) ->
  (forall k s, JsMap.get k (childScopes a) = Some s -> activeEffectScope b <> Some s) ->
  (forall p, activeEffectScope b = Some p -> p < length (heap a)) ->
  effect_inv a -> effect_inv b.
Proof.
  intros Hh Hc Ht Ha Hp (Hown & Hleaf & Hamb). split; [|split].
  - pose proof Hown as (Hn & _ & _).
    apply (owns_live_shrink a); [done | | done | by rewrite Hh | | done].
    + by apply (no_self_remove_same_heap a).
    + intros s _. unfold is_active. by rewrite Hh.
  - intros k s Hg. rewrite Hc in Hg.
    destruct (Hleaf k s Hg) as (Hsc & _ & Hinj). rewrite Hh. split; [done|].
    split; [by apply (Ha k)|]. intros k' Hg'. rewrite Hc in Hg'. by apply Hinj.
  - intros p Hpp. rewrite Hh. by apply Hp.
Qed.

Module WatchEffectSession.
Import WatchEffect.

Lemma effect_stop_inv st : effect_inv st -> effect_inv (stop st).
Proof.
  intros Hst. pose proof Hst as (_ & Hleaf & Hamb).
  unfold stop, stop_effect. destruct (watching st); [|done].
  apply (effect_inv_ext st); try done.
  - intros k. simpl. by rewrite scopes_registered_for_snoc, app_nil_r.
  - intros k s Hg. by apply (Hleaf k s Hg).
Qed.

Lemma effect_set_input_inv o st : effect_inv st -> effect_inv (set_input o st).
Proof.
  intros Hst. pose proof Hst as (_ & Hleaf & Hamb).
  apply (effect_inv_ext st); try done. intros k s Hg. by apply (Hleaf k s Hg).
Qed.

Lemma effect_call_inv fuel handler c st :
  effect_inv st -> outcome_sat effect_inv (call fuel handler c st).
Proof.
  intros Hst. destruct c as [o|]; simpl; [|by apply effect_stop_inv].
  unfold rerun. simpl.
  destruct (watching st);
    [by apply WatchEffectInv.effect_body_inv, effect_set_input_inv
    | by apply effect_set_input_inv].
Qed.

Lemma effect_calls_inv fuel handler cs :
  forall st, effect_inv st -> outcome_sat effect_inv (calls fuel handler cs st).
Proof.
  induction cs as [|c cs IH]; intros st Hst; simpl; [done|].
  pose proof (effect_call_inv fuel handler c st Hst) as H.
  destruct (call fuel handler c st); simpl in *; [by apply IH | done | done].
Qed.

(** The state in which the first run of the effect starts. *)
Lemma setup_state_inv o :
  effect_inv (create_watcher
                (set_activeEffectScope (Some 0)
                   (set_childScopes [] (snd (effectScope (initial o)))))).
Proof.
  split; [|split].
  - repeat split.
    + apply Forall_singleton. by intros k [].
    + intros k s [].
    + intros k s [].
  - intros k s Hg. discriminate.
  - intros p [= <-]. simpl. lia.
Qed.

Lemma effect_setup_inv fuel handler o :
  outcome_sat effect_inv (snd (useScopePerKey fuel handler (initial o))).
Proof.
  unfold useScopePerKey. simpl. unfold EffectScope_run. simpl.
  match goal with |- context [effect_body fuel handler ?s] =>
    pose proof (WatchEffectInv.effect_body_inv fuel handler s (setup_state_inv o)) as Hb;
    destruct (effect_body fuel handler s) as [s'|s'|]
  end; simpl in *; [| |done];
    (apply (effect_inv_ext s'); [done | done | done | by intros k s _ | by intros p | done]).
Qed.

(** Every state a session of the [watchEffect] variant ends in has the
    invariant. *)
Lemma effect_session_inv fuel handler o cs :
  outcome_sat effect_inv (session fuel handler o cs).
Proof.
  unfold session. pose proof (effect_setup_inv fuel handler o) as H.
  destruct (useScopePerKey fuel handler (initial o)) as [p [st|st|]]; simpl in *;
    [by apply effect_calls_inv | done | done].
Qed.

End WatchEffectSession.
(** ** The scope of a key when its handler has ended

    A handler body that does not write the ref runs the same in both
    variants; it leaves the scope of its key without effects and
    without child scopes, carrying the hooks the handler registered:
    that scope can be disposed. *)





(** * The properties of the specification *)

(** Evaluating a session: once it ends with some fuel, the outcome is
    that for any more. *)
Ltac eval_sync_session :=
  intros n; rewrite session_fuel_add; [vm_compute; reflexivity | vm_compute; discriminate].

Ltac eval_effect_session :=
  intros n; rewrite effect_session_fuel_add;
  [vm_compute; reflexivity | vm_compute; discriminate].

(** C1. src/deep-reactivity.ts on [{a: 1}], then the value becomes
    [{b: 2}]: the pass has settled, the object has the key ["b"] only,
    but the registry still holds ["a"], its scope is live and none of
    its hooks has fired. The [watchEffect] variant on the same calls
    ends with the registry [{"b"}] and the marker hook of ["a"] fired. *)
Theorem deep_reactivity_keeps_scope_of_removed_key :
  (exists st,
      (forall n,
          DeepReactivity.session (1 + n) marking [("a", 1)] [SetValue [("b", 2)]]
          = Normal st)
      /\ Object_keys (input st) = ["b"]
      /\ JsMap.keys (childScopes st) = ["a"; "b"]
      /\ live_scopes_for "a" st = [1]
      /\ hooks_fired (trace st) = [])
  /\ (exists st,
      (forall n,
          WatchEffect.session (1 + n) marking [("a", 1)] [SetValue [("b", 2)]]
          = Normal st)
      /\ JsMap.keys (childScopes st) = ["b"]
      /\ live_scopes_for "a" st = []
      /\ hooks_fired (trace st) = [(1, UserHook 0)]).
Proof.
  split; eexists; (split; [first [eval_sync_session | eval_effect_session]|]);
    vm_compute; repeat split.
Qed.

(** C2. The [watchEffect] variant on [{a: 1}], then the returned
    function is called: the watcher is stopped, but the scope of ["a"]
    is still live, none of its hooks has fired, and the registry still
    holds ["a"]. The function returned by src/deep-reactivity.ts, on the
    same input, does not return: the disposal of [parentScope] reaches
    the scope of ["a"], whose self-removing hook calls [stop] on that
    scope, which is still live. *)
Theorem watch_effect_stop_leaves_scopes_registered :
  (exists st,
      (forall n, WatchEffect.session (0 + n) marking [("a", 1)] [Dispose] = Normal st)
      /\ watching st = false
      /\ childScopes st = [("a", 1)]
      /\ is_active 1 st = true
      /\ hooks_fired (trace st) = [])
  /\ (forall n, DeepReactivity.session n marking [("a", 1)] [Dispose] = Diverged).
Proof.
  split.
  - eexists. (split; [eval_effect_session|]); vm_compute; repeat split.
  - intros [|n]; [vm_compute; reflexivity|].
    change (S n) with (1 + n). unfold DeepReactivity.session.
    rewrite useScopePerKey_fuel_add by (vm_compute; discriminate).
    replace (DeepReactivity.useScopePerKey 1 marking (initial [("a", 1)]))
      with (0, Normal sync_state_a) by (vm_compute; reflexivity).
    cbv beta iota.
    apply (sync_dispose_diverges (1 + n) marking 0
             (mkScope true None [TopLevelWatch] [] [1]) sync_state_a "a" 1 []);
      [apply self_removing_sync_state_a | reflexivity | reflexivity | reflexivity
      | by left].
Qed.


(** C3. src/deep-reactivity.ts on [{a: 1, b: 2}] with a handler that
    writes the ref when called for ["a"]: the write re-enters the sync
    watcher, which creates a scope for ["b"]; back in the outer loop,
    whose [keysToAdd] was computed before, a second scope is created for
    ["b"]. At the end the handler has run twice for ["b"] and two live
    scopes exist for it. The [watchEffect] variant, whose loop checks
    [childScopes.has(key)] again, ends with one. *)
Theorem deep_reactivity_reentrant_write_two_live_scopes :
  (exists st,
      (forall n, DeepReactivity.session (2 + n) writer [("a", 1); ("b", 2)] [] = Normal st)
      /\ handler_calls (trace st) = ["a"; "b"; "c"; "b"]
      /\ live_scopes_for "b" st = [2; 4]
      /\ JsMap.get "b" (childScopes st) = Some 4)
  /\ (exists st,
      (forall n, WatchEffect.session (0 + n) writer [("a", 1); ("b", 2)] [] = Normal st)
      /\ handler_calls (trace st) = ["a"; "b"]
      /\ live_scopes_for "b" st = [2]).
Proof.
  split; eexists; (split; [first [eval_sync_session | eval_effect_session]|]);
    vm_compute; repeat split.
Qed.

(** C4. src/deep-reactivity.ts on [{a: 1}], then [{}], then [{a: 1}]:
    the key is gone in one observed transition and back in a later one,
    yet only one scope was ever created for ["a"], it is the one
    registered at the end, none of its hooks has fired, and the handler
    ran once. The [watchEffect] variant disposes scope 1 and registers
    the new scope 2. *)
Theorem deep_reactivity_reuses_scope_across_gap :
  (exists st,
      (forall n,
          DeepReactivity.session (1 + n) marking [("a", 1)]
            [SetValue []; SetValue [("a", 1)]] = Normal st)
      /\ scopes_registered_for "a" (trace st) = [1]
      /\ childScopes st = [("a", 1)]
      /\ hooks_fired (trace st) = []
      /\ handler_calls (trace st) = ["a"])
  /\ (exists st,
      (forall n,
          WatchEffect.session (1 + n) marking [("a", 1)]
            [SetValue []; SetValue [("a", 1)]] = Normal st)
      /\ scopes_registered_for "a" (trace st) = [1; 2]
      /\ childScopes st = [("a", 2)]
      /\ hooks_fired (trace st) = [(1, UserHook 0)]
      /\ is_active 1 st = false).
Proof.
  split; eexists; (split; [first [eval_sync_session | eval_effect_session]|]);
    vm_compute; repeat split.
Qed.







(** C7. The function returned by src/deep-reactivity.ts, called after
    the setup on [{a: 1, b: 2}]: the first call does not return,
    whatever the fuel, so there is no second call that does nothing
    (the disposal of [parentScope] reaches the scope of ["a"], whose
    self-removing hook calls [stop] on that scope while it is still
    live). In the [watchEffect] variant a second call of the returned
    stop handle changes nothing; and in the sync variant, where a call
    of the returned function does return, any later call returns in
    the same state. *)
Theorem sync_disposer_does_not_return :
  (forall n,
      DeepReactivity.session n marking [("a", 1); ("b", 2)] [Dispose; Dispose] = Diverged)
  /\ (forall st, WatchEffect.stop (WatchEffect.stop st) = WatchEffect.stop st)
  /\ (forall fuel fuel' p st st',
        DeepReactivity.dispose fuel p st = Normal st' ->
        DeepReactivity.dispose (S fuel') p st' = Normal st').
Proof.
  split; [|split].
  - intros [|n]; [vm_compute; reflexivity|].
    change (S n) with (1 + n). unfold DeepReactivity.session.
    rewrite useScopePerKey_fuel_add by (vm_compute; discriminate).
    replace (DeepReactivity.useScopePerKey 1 marking (initial [("a", 1); ("b", 2)]))
      with (0, Normal sync_state) by (vm_compute; reflexivity).
    cbv beta iota.
    apply (sync_dispose_diverges (1 + n) marking 0
             (mkScope true None [TopLevelWatch] [] [1; 2]) sync_state "a" 1 [Dispose]);
      [apply self_removing_sync_state | reflexivity | reflexivity | reflexivity
      | by left].
  - intros st. unfold WatchEffect.stop, stop_effect.
    destruct (watching st) eqn:Hw; simpl; [done | by rewrite Hw].
  - intros fuel fuel' p st st' H. unfold DeepReactivity.dispose in *.
    apply stop_fuel_inactive. by apply (stop_fuel_stops fuel p st).
Qed.

(** C8. A pass that reads a key set equal to the set of keys already in
    the registry returns the state it started from: no scope is created
    or disposed, the handler is invoked for no key, the registry is
    unchanged. Both variants. *)
Theorem unchanged_key_set_pass_is_noop handler st :
  (forall fuel inputKeys,
      (forall k, In k inputKeys <-> In k (JsMap.keys (childScopes st))) ->
      DeepReactivity.watch_callback (S fuel) handler inputKeys st = Normal st)
  /\ ((forall k, In k (Object_keys (input st)) <-> In k (JsMap.keys (childScopes st))) ->
      forall fuel, WatchEffect.effect_body fuel handler st = Normal st).
Proof.
  split.
  - intros fuel inputKeys Heq. rewrite DeepReactivityFacts.watch_callback_eq.
    unfold DeepReactivity.keysToAdd. rewrite filter_nil; [done|].
    intros k Hk. apply Heq, JsMapFacts.has_In in Hk. by rewrite Hk.
  - intros Heq fuel. unfold WatchEffect.effect_body, WatchEffect.keysToAdd,
      WatchEffect.keysToRemove.
    rewrite (filter_nil (fun key => negb (includes key (Object_keys (input st))))).
    + rewrite filter_nil; [done|].
      intros k Hk. apply Heq, includes_In in Hk. by rewrite Hk.
    + intros k Hk. apply Heq, includes_In in Hk. by rewrite Hk.
Qed.

Lemma unchanged_key_set_pass_is_noop_witness :
  let st := mkState [("a", 1)] [("a", 1)]
              [mkScope true None [TopLevelWatch] [] [1]; mkScope true (Some 0) [] [] []]
              None true [] in
  DeepReactivity.watch_callback 1 (fun _ => [Throw]) ["a"] st = Normal st
  /\ WatchEffect.effect_body 1 (fun _ => [Throw]) st = Normal st.
Proof.
  intros st.
  destruct (unchanged_key_set_pass_is_noop (fun _ => [Throw]) st) as [HA HB].
  split.
  - apply HA. intros k. simpl. tauto.
  - apply HB. intros k. simpl. tauto.
Defined.

(** C9. In src/deep-reactivity.ts the loop body for a key ends in one of
    two ways. If [handler(key)] returns, the key's scope has at that
    moment only the hooks the handler registered, and the self-removing
    hook is then registered after them. If [handler(key)] throws, the
    loop body throws: the key is registered to its scope, the scope is
    live, its hooks are only those the handler registered, with no
    self-removing hook among them, and a pass run after that gives it
    none. *)
Theorem self_remove_hook_registered_after_handler_returns fuel handler key st :
  let newScope := length (heap st) in
  let notify := DeepReactivity.notify fuel handler in
  match call_handler notify handler key (handler_entry key st) with
  | Normal s' =>
      no_self_remove_hook newScope s'
      /\ exists st', DeepReactivity.add_key notify handler key st = Normal st'
           /\ scope_cleanups newScope st' = scope_cleanups newScope s' ++ [SelfRemove key]
  | Thrown s' =>
      exists st', DeepReactivity.add_key notify handler key st = Thrown st'
        /\ JsMap.get key (childScopes st') = Some newScope
        /\ is_active newScope st' = true
        /\ no_self_remove_hook newScope st'
        /\ forall fuel' inputKeys,
             outcome_rel (fun _ st'' => no_self_remove_hook newScope st'') st'
               (DeepReactivity.watch_callback fuel' handler inputKeys st')
  | Diverged => DeepReactivity.add_key notify handler key st = Diverged
  end.
Proof.
  intros newScope notify. rewrite DeepReactivityFacts.sync_add_key_eq.
  pose proof (handler_exit handler notify (DeepReactivityFacts.sync_notify_rel handler fuel)
                key st _ eq_refl) as H.
  fold notify.
  destruct (call_handler notify handler key (handler_entry key st)) as [s'|s'|];
    simpl in H; [| |done].
  - destruct H as (Ha & _ & _ & Hact & us & Hus). split.
    { intros k. unfold newScope. rewrite Hus. apply map_UserHook_no_SelfRemove. }
    eexists. split; [done|].
    change (scope_cleanups newScope
              (set_activeEffectScope (activeEffectScope st)
                 (onScopeDispose (SelfRemove key) s')))
      with (scope_cleanups newScope (onScopeDispose (SelfRemove key) s')).
    by apply onScopeDispose_cleanups.
  - destruct H as (Ha & _ & Hg & Hact & us & Hus).
    set (st' := set_activeEffectScope (activeEffectScope st) s').
    assert (Hno : no_self_remove_hook newScope st').
    { intros k.
      change (scope_cleanups newScope st') with (scope_cleanups newScope s').
      unfold newScope. rewrite Hus. apply map_UserHook_no_SelfRemove. }
    exists st'. repeat split; [done | done | done |].
    intros fuel' inputKeys.
    pose proof (DeepReactivityFacts.watch_callback_rel handler fuel' inputKeys st') as Hrel.
    destruct (DeepReactivity.watch_callback fuel' handler inputKeys st');
      simpl in *; [| |done];
      by apply (pass_rel_no_self_remove_hook handler [] newScope st').
Qed.

(** C10. The reconciler does not write the watched ref. After a pass of
    either variant, ended normally or by a throw, the watched value is
    the one before the pass or a value that a handler body wrote.
    Calling the returned disposal function leaves it as it was, when
    the call returns. With a handler that never writes, a pass ends
    and the watched value is then the one before: a pass of the sync
    variant from any state, a pass of the [watchEffect] variant from
    any state of that variant ([effect_inv]). *)
Theorem reconciler_never_writes_input handler st :
  (forall fuel inputKeys,
      outcome_rel (input_frame handler) st
        (DeepReactivity.watch_callback fuel handler inputKeys st))
  /\ (forall fuel,
        outcome_rel (input_frame handler) st (WatchEffect.effect_body fuel handler st))
  /\ (forall fuel parentScope,
        outcome_sat (fun st' => input st' = input st)
          (DeepReactivity.dispose fuel parentScope st))
  /\ input (WatchEffect.stop st) = input st
  /\ ((forall key o, ~ In (Write o) (handler key)) ->
      (forall fuel inputKeys,
          ends_in (fun st' => input st' = input st)
            (DeepReactivity.watch_callback (S fuel) handler inputKeys st))
      /\ (effect_inv st ->
          forall fuel,
            ends_in (fun st' => input st' = input st)
              (WatchEffect.effect_body (S fuel) handler st))).
Proof.
  assert (HA : forall fuel inputKeys,
             outcome_rel (input_frame handler) st
               (DeepReactivity.watch_callback fuel handler inputKeys st)).
  { intros fuel inputKeys.
    pose proof (DeepReactivityFacts.watch_callback_rel handler fuel inputKeys st) as H.
    destruct (DeepReactivity.watch_callback fuel handler inputKeys st);
      simpl in *; [| |done]; by destruct H as [_ [_ _ Hi]]. }
  assert (HB : forall fuel,
             outcome_rel (input_frame handler) st
               (WatchEffect.effect_body fuel handler st)).
  { intros fuel. unfold WatchEffect.effect_body.
    match goal with |- context [WatchEffect.remove_loop fuel ?ks st] =>
      pose proof (WatchEffectFacts.remove_loop_input fuel ks st) as Hr;
      pose proof (WatchEffectFacts.remove_loop_not_thrown fuel ks st) as Hnt;
      destruct (WatchEffect.remove_loop fuel ks st) as [st1|st1|]
    end; [|by destruct (Hnt st1)|done].
    specialize (Hr st1 eq_refl).
    match goal with |- context [WatchEffect.add_loop _ ?ks st1] =>
      pose proof (WatchEffectFacts.effect_add_loop_rel handler ks st1) as H;
      destruct (WatchEffect.add_loop handler ks st1)
    end; simpl in *; [| |done];
      destruct H as [_ [_ _ Hi]]; unfold input_frame in *; rewrite Hr in Hi; done. }
  assert (Hnow : (forall key o, ~ In (Write o) (handler key)) ->
                 forall r, ends r -> outcome_rel (input_frame handler) st r ->
                           ends_in (fun st' => input st' = input st) r).
  { intros Hno r Hr. unfold ends in Hr. destruct r; simpl; [| |done];
      intros [H|[key Hk]]; try done; by apply Hno in Hk. }
  split; [done|]. split; [done|]. split; [|split; [|split]].
  - intros fuel p. unfold DeepReactivity.dispose.
    pose proof (stop_fuel_not_thrown fuel p st) as Hnt.
    destruct (stop_fuel fuel p st) as [a|a|] eqn:E; simpl;
      [by apply (stop_fuel_input fuel p st) | by destruct (Hnt a) | done].
  - unfold WatchEffect.stop, stop_effect. by destruct (watching st).
  - intros fuel inputKeys. apply Hnow; [done | by apply Termination.watch_callback_ends | done].
  - intros Hinv fuel. apply Hnow; [done | by apply Termination.effect_body_ends | done].
Qed.

Lemma reconciler_never_writes_input_witness :
  let handler : Handler := fun _ => [OnScopeDispose 0] in
  let st := mkState [("b", 2)] [("a", 1)]
              [mkScope true None [TopLevelWatch] [] [1]; mkScope true (Some 0) [] [] []]
              None true [] in
  ends_in (fun st' => input st' = input st)
    (DeepReactivity.watch_callback 1 handler ["b"] st)
  /\ ends_in (fun st' => input st' = input st) (WatchEffect.effect_body 1 handler st).
Proof.
  intros handler st.
  destruct (reconciler_never_writes_input handler st) as (_ & _ & _ & _ & H).
  destruct H as [HA HB].
  - intros key o [H|[]]. discriminate.
  - split; [apply HA | apply HB].
    split; [|split].
    + split; [|split]; [|by intros k s [] | by intros k s []].
      apply Forall_cons_2; [by intros k []|]. apply Forall_singleton. by intros k [].
    + intros k s Hg. unfold st in Hg. cbn [childScopes JsMap.get] in Hg.
      destruct (String.eqb_spec "a" k) as [<-|_]; [|done]. injection Hg as <-.
      split; [|split]; [eexists; repeat split; reflexivity | done |].
      intros k' Hg'. unfold st in Hg'. cbn [childScopes JsMap.get] in Hg'.
      by destruct (String.eqb_spec "a" k').
    + intros p Hp. discriminate.
Defined.

(** * Further properties of the two variants *)

(** ** The removing loop of the [watchEffect] variant, key by key *)

Lemma hooks_fired_of_disposal x s l k :
  hooks_fired_of x (map (HookFired s) l ++ [ScopeStopped s; Unregistered k])
  = if decide (x = s) then l else [].
Proof. rewrite hooks_fired_of_app, hooks_fired_of_map. simpl. apply app_nil_r. Qed.

Lemma handler_calls_disposal s l k :
  handler_calls (map (HookFired s) l ++ [ScopeStopped s; Unregistered k]) = [].
Proof. rewrite handler_calls_app. simpl. rewrite app_nil_r. by induction l. Qed.

Lemma includes_cons k key rest :
  includes k (key :: rest) = String.eqb k key || includes k rest.
Proof. done. Qed.

Module WatchEffectRemoval.
Import WatchEffect.

(** In a state of the variant the removing loop returns; it disposes
    the scopes of the keys it is given, each with the hooks of that
    scope fired once, and touches nothing else. *)
Lemma remove_loop_leaf fuel keys :
  forall st, effect_inv st ->
    exists st1, remove_loop (S fuel) keys st = Normal st1
    /\ watching st1 = watching st
    /\ handler_calls (trace st1) = handler_calls (trace st)
    /\ (forall x, scope_cleanups x st1 = scope_cleanups x st)
    /\ (forall x, is_active x st = false ->
          is_active x st1 = false
          /\ hooks_fired_of x (trace st1) = hooks_fired_of x (trace st))
    /\ (forall k, JsMap.has k (childScopes st) = false ->
          JsMap.has k (childScopes st1) = false)
    /\ (forall k s, JsMap.get k (childScopes st) = Some s ->
          if includes k keys
          then is_active s st1 = false
               /\ JsMap.has k (childScopes st1) = false
               /\ hooks_fired_of s (trace st1)
                  = hooks_fired_of s (trace st) ++ scope_cleanups s st
          else JsMap.get k (childScopes st1) = Some s
               /\ hooks_fired_of s (trace st1) = hooks_fired_of s (trace st)).
Proof.
  induction keys as [|key rest IH]; intros st Hst; [exists st; by repeat split|].
  cbn [remove_loop].
  destruct (JsMap.get key (childScopes st)) as [s1|] eqn:Hg.
  - pose proof (WatchEffectLeaf.remove_key_inv (S fuel) key st Hst) as Hst1.
    rewrite (WatchEffectLeaf.remove_key_leaf fuel key s1 st Hst Hg) in *.
    set (st1 := mkState _ _ _ _ _ _) in *. cbn [outcome_sat] in Hst1.
    destruct (IH st1 Hst1) as (st2 & E & W & C & Cl & In & Ha & Reg). clear IH.
    exists st2. split; [done|].
    destruct Hst as (_ & Hleaf & _).
    destruct (Hleaf key s1 Hg) as ((sc1 & Hs1 & Hact1 & _) & _ & Hinj1).
    assert (Hcl1 : forall x, scope_cleanups x st1 = scope_cleanups x st).
    { intros x. unfold scope_cleanups. simpl. destruct (decide (s1 = x)) as [->|Hne].
      - by rewrite list_lookup_alter_eq, Hs1.
      - by rewrite list_lookup_alter_ne. }
    assert (Hact : forall x, is_active x st1 = if decide (s1 = x) then false
                                               else is_active x st).
    { intros x. unfold is_active. simpl. destruct (decide (s1 = x)) as [->|Hne].
      - by rewrite list_lookup_alter_eq, Hs1.
      - by rewrite list_lookup_alter_ne. }
    assert (Hfired : forall x, hooks_fired_of x (trace st1)
              = hooks_fired_of x (trace st)
                ++ (if decide (x = s1) then scope_cleanups s1 st else [])).
    { intros x. simpl. by rewrite hooks_fired_of_app, hooks_fired_of_disposal. }
    split; [done|]. split.
    { rewrite C. simpl. by rewrite handler_calls_app, handler_calls_disposal, app_nil_r. }
    split; [intros x; by rewrite Cl|]. split.
    { intros x Hx.
      assert (Hx1 : is_active x st1 = false) by (rewrite Hact; by destruct (decide _)).
      destruct (In x Hx1) as [I1 I2]. split; [done|]. rewrite I2, Hfired.
      destruct (decide (x = s1)) as [->|Hne]; [|apply app_nil_r].
      unfold is_active in Hx. rewrite Hs1 in Hx. congruence. }
    split.
    { intros k Hk. apply Ha. simpl. rewrite WatchEffectCoverage.has_delete, Hk. done. }
    intros k s Hgk. rewrite includes_cons.
    destruct (String.eqb_spec k key) as [->|Hne]; cbn [orb].
    + assert (s = s1) by congruence. subst s.
      assert (Hx1 : is_active s1 st1 = false) by (rewrite Hact; by destruct (decide _)).
      destruct (In s1 Hx1) as [I1 I2]. split; [done|]. split.
      * apply Ha. simpl. apply JsMapFacts.has_delete_eq.
      * rewrite I2, Hfired. by destruct (decide _).
    + assert (Hss : s <> s1).
      { intros ->. apply Hne. by apply Hinj1. }
      assert (Hgk1 : JsMap.get k (childScopes st1) = Some s)
        by (simpl; by rewrite JsMapFacts.get_delete_ne).
      specialize (Reg k s Hgk1).
      assert (Hf : hooks_fired_of s (trace st1) = hooks_fired_of s (trace st)).
      { rewrite Hfired. destruct (decide (s = s1)); [done | apply app_nil_r]. }
      destruct (includes k rest).
      * destruct Reg as (R1 & R2 & R3). repeat split; [done | done |].
        by rewrite R3, Hf, Hcl1.
      * destruct Reg as (R1 & R2). split; [done | by rewrite R2, Hf].
  - assert (Hhas : JsMap.has key (childScopes st) = false)
      by by apply JsMapFacts.has_false_get.
    rewrite (WatchEffectFacts.remove_key_absent (S fuel) key st Hhas).
    destruct (IH st Hst) as (st2 & E & W & C & Cl & In & Ha & Reg). clear IH.
    exists st2. repeat split; try done; try (by apply In).
    intros k s Hgk. rewrite includes_cons.
    destruct (String.eqb_spec k key) as [->|Hne]; [congruence|]. by apply Reg.
Qed.

End WatchEffectRemoval.

(** ** The adding loop of the [watchEffect] variant, key by key *)

Lemma nothing_disposed_hooks_fired_of a b s :
  nothing_disposed a b -> hooks_fired_of s (trace b) = hooks_fired_of s (trace a).
Proof.
  intros [_ (es & -> & Hes)]. rewrite hooks_fired_of_app.
  assert (H : hooks_fired_of s es = []).
  { induction Hes as [|e es He _ IH]; [done|]. destruct e; simpl in *; done. }
  by rewrite H, app_nil_r.
Qed.

Module WatchEffectAdding.
Import WatchEffect.

(** The loop body for one key: nothing for a key that has an entry;
    else a scope is created and registered and the handler is called,
    once. *)
Lemma effect_add_key_step handler key st :
  outcome_rel (fun a b =>
      if JsMap.has key (childScopes a) then b = a
      else childScopes b = JsMap.set key (length (heap a)) (childScopes a)
           /\ trace b = trace a ++ [ScopeCreated (length (heap a));
                                    Registered key (length (heap a));
                                    HandlerCalled key (length (heap a))])
    st (add_key handler key st).
Proof.
  destruct (JsMap.has key (childScopes st)) eqn:Hhas.
  - rewrite WatchEffectFacts.effect_add_key_skip by done. simpl. by rewrite Hhas.
  - rewrite WatchEffectFacts.effect_add_key_eq by done.
    unfold call_handler. rewrite handler_entry_activeEffectScope.
    match goal with |- context [run_ops notify ?ops ?s] =>
      pose proof (effect_run_ops_keeps ops s) as H;
      destruct (run_ops notify ops s) as [s'|s'|]
    end; simpl in *; [| |done]; rewrite Hhas;
      destruct H as (C & _ & _ & T & _); rewrite C, T; simpl;
      by rewrite <- !app_assoc.
Qed.

Lemma effect_add_loop_calls handler keys :
  forall st,
    outcome_rel (fun a b =>
        (forall k, JsMap.has k (childScopes b) = true ->
                   JsMap.has k (childScopes a) = true \/ In k keys)
        /\ exists ks, handler_calls (trace b) = handler_calls (trace a) ++ ks
                      /\ forall k, In k ks -> In k keys)
      st (add_loop handler keys st).
Proof.
  induction keys as [|key rest IH]; intros st.
  - simpl. split; [auto|]. exists []. by rewrite app_nil_r.
  - cbn [add_loop]. pose proof (effect_add_key_step handler key st) as H.
    assert (Hstep : forall b,
      (if JsMap.has key (childScopes st) then b = st
       else childScopes b = JsMap.set key (length (heap st)) (childScopes st)
            /\ trace b = trace st ++ [ScopeCreated (length (heap st));
                                      Registered key (length (heap st));
                                      HandlerCalled key (length (heap st))]) ->
      (forall k, JsMap.has k (childScopes b) = true ->
                 JsMap.has k (childScopes st) = true \/ k = key)
      /\ exists ks, handler_calls (trace b) = handler_calls (trace st) ++ ks
                    /\ forall k, In k ks -> k = key).
    { intros b Hb. destruct (JsMap.has key (childScopes st)).
      - subst b. split; [auto|]. exists []. by rewrite app_nil_r.
      - destruct Hb as [C T]. split.
        + intros k. rewrite C, WatchEffectCoverage.has_set, orb_true_iff.
          intros [Hk|Hk]; [by left | right; by apply String.eqb_eq].
        + exists [key]. rewrite T, handler_calls_app. split; [done|].
          by intros k [<-|[]]. }
    destruct (add_key handler key st) as [s1|s1|]; simpl in H; [| |done].
    + destruct (Hstep s1 H) as (K1 & ks1 & C1 & I1). specialize (IH s1).
      destruct (add_loop handler rest s1) as [s2|s2|]; simpl in *; [| |done];
        destruct IH as (K2 & ks2 & C2 & I2);
        (split; [intros k Hk; destruct (K2 k Hk) as [Hk1|Hk1];
                 [destruct (K1 k Hk1); auto | auto]|]);
        exists (ks1 ++ ks2); rewrite C2, C1, <- app_assoc; (split; [done|]);
        intros k; rewrite in_app_iff;
        (intros [Hk|Hk]; [left; symmetry; by apply I1 | right; by apply I2]).
    + destruct (Hstep s1 H) as (K1 & ks1 & C1 & I1). simpl. split.
      * intros k Hk. destruct (K1 k Hk); auto.
      * exists ks1. split; [done|]. intros k Hk. left. symmetry. by apply I1.
Qed.

(** With distinct keys, none of which has an entry, the handler is
    called for each of them, in order, when the loop ends normally. *)
Lemma effect_add_loop_calls_exact handler keys :
  List.NoDup keys ->
  forall st st', (forall k, In k keys -> JsMap.has k (childScopes st) = false) ->
    add_loop handler keys st = Normal st' ->
    handler_calls (trace st') = handler_calls (trace st) ++ keys.
Proof.
  induction 1 as [|key rest Hnotin Hnd IH]; intros st st' Habs; simpl.
  - intros [= <-]. by rewrite app_nil_r.
  - pose proof (effect_add_key_step handler key st) as H.
    destruct (add_key handler key st) as [s1|s1|]; [|done|done]. simpl in H.
    rewrite (Habs key) in H by (by left). destruct H as [C T].
    intros Hl. rewrite (IH s1 st'); [| |done].
    + rewrite T, handler_calls_app. simpl. by rewrite <- app_assoc.
    + intros k Hk. rewrite C, WatchEffectCoverage.has_set, (Habs k) by (by right).
      simpl. apply String.eqb_neq. intros ->. by apply Hnotin.
Qed.

Lemma effect_add_loop_hooks_kept handler keys :
  forall st, outcome_rel hooks_kept st (add_loop handler keys st).
Proof.
  induction keys as [|key rest IH]; intros st; simpl; [apply hooks_kept_refl|].
  assert (H : outcome_rel hooks_kept st (add_key handler key st)).
  { destruct (JsMap.has key (childScopes st)) eqn:Hhas.
    - rewrite WatchEffectFacts.effect_add_key_skip by done. apply hooks_kept_refl.
    - pose proof (effect_add_key_hooks handler key st Hhas) as H.
      destruct (add_key handler key st); simpl in *; tauto. }
  destruct (add_key handler key st) as [s1|s1|]; simpl in H; [| done | done].
  specialize (IH s1).
  destruct (add_loop handler rest s1); simpl in *; eauto using hooks_kept_trans.
Qed.

End WatchEffectAdding.

(** ** Passes of the [watchEffect] variant in a session *)

Lemma remove_loop_heap_length fuel keys st st' :
  WatchEffect.remove_loop fuel keys st = Normal st' ->
  length (heap st') = length (heap st).
Proof.
  apply (remove_loop_Normal_rule (fun a b => length (heap b) = length (heap a))); try done.
  - intros a b c H1 H2. by rewrite H2.
  - intros a x. simpl. apply length_alter.
Qed.

Lemma keeps_scopes_active_eq a b s :
  keeps_scopes a b -> s < length (heap a) -> is_active s b = is_active s a.
Proof.
  intros H Hs. destruct (lookup_lt_is_Some_2 (heap a) s Hs) as [sc Hsc].
  destruct (H s sc Hsc) as (sc' & Hs' & Hact & _). unfold is_active. by rewrite Hs', Hsc.
Qed.

Lemma includes_keysToRemove k inputKeys runningKeys :
  includes k (WatchEffect.keysToRemove inputKeys runningKeys)
  = includes k runningKeys && negb (includes k inputKeys).
Proof.
  apply eq_true_iff_eq. unfold WatchEffect.keysToRemove.
  rewrite includes_In, filter_In, andb_true_iff, includes_In. done.
Qed.

Lemma includes_false key l : ~ In key l -> includes key l = false.
Proof.
  intros H. destruct (includes key l) eqn:E; [|done]. by apply includes_In in E.
Qed.

Lemma includes_true key l : In key l -> includes key l = true.
Proof. apply includes_In. Qed.

Lemma has_keys_includes key (m : JsMap.t) : JsMap.has key m = includes key (JsMap.keys m).
Proof. apply eq_true_iff_eq. by rewrite JsMapFacts.has_In, includes_In. Qed.

Lemma effect_body_write_free_input fuel handler st st' :
  write_free handler -> WatchEffect.effect_body fuel handler st = Normal st' ->
  input st' = input st.
Proof.
  intros Hno. unfold WatchEffect.effect_body.
  set (ks := WatchEffect.keysToAdd _ _).
  destruct (WatchEffect.remove_loop fuel _ st) as [st1|st1|] eqn:Hrm; [|done|done].
  pose proof (WatchEffectFacts.effect_add_loop_rel handler ks st1) as H.
  intros Hl. rewrite Hl in H. destruct H as [_ [_ _ Hi]].
  unfold input_frame in Hi.
  rewrite (WatchEffectFacts.remove_loop_input _ _ _ _ Hrm) in Hi.
  destruct Hi as [Hi|[key Hk]]; [done|]. by apply Hno in Hk.
Qed.

Module WatchEffectPasses.
Import WatchEffect.

Lemma effect_calls_coverage fuel handler cs :
  write_free handler ->
  forall st st', no_self_remove st -> (watching st = true -> registry_covers st) ->
    calls fuel handler cs st = Normal st' ->
    no_self_remove st' /\ (watching st' = true -> registry_covers st').
Proof.
  intros Hno. induction cs as [|c cs IH]; intros st st' Hn Hcov; simpl.
  - by intros [= <-].
  - destruct (call fuel handler c st) as [s1|s1|] eqn:Hc; [|done|done].
    apply IH; destruct c as [o|]; simpl in Hc.
    + unfold rerun in Hc. simpl in Hc. destruct (watching st).
      * by apply (WatchEffectCoverage.effect_body_coverage fuel handler (set_input o st)).
      * by injection Hc as <-.
    + injection Hc as <-. unfold stop, stop_effect. by destruct (watching st).
    + unfold rerun in Hc. simpl in Hc. destruct (watching st) eqn:Hw.
      * intros _ k.
        rewrite (effect_body_write_free_input fuel handler _ _ Hno Hc).
        by apply (WatchEffectCoverage.effect_body_coverage fuel handler (set_input o st)).
      * injection Hc as <-. simpl. congruence.
    + injection Hc as <-. by rewrite watch_effect_stop_unwatch.
Qed.

End WatchEffectPasses.

(** ** Properties of the sync variant *)

(** X1. A pass of the callback of src/deep-reactivity.ts only adds:
    whatever the handler does (nested passes included) and however the
    pass ends, every entry of the registry is kept with the scope it
    had, every scope that was live is live, no disposal hook has
    fired, and the watcher is as it was. *)
Theorem sync_pass_disposes_nothing fuel handler inputKeys st :
  outcome_sat (fun st' =>
      (forall k s, JsMap.get k (childScopes st) = Some s ->
                   JsMap.get k (childScopes st') = Some s)
      /\ (forall s, is_active s st = true -> is_active s st' = true)
      /\ hooks_fired (trace st') = hooks_fired (trace st)
      /\ watching st' = watching st)
    (DeepReactivity.watch_callback fuel handler inputKeys st).
Proof.
  pose proof (DeepReactivityFacts.watch_callback_rel handler fuel inputKeys st) as H1.
  pose proof (watch_callback_keeps fuel handler inputKeys st) as H2.
  destruct (DeepReactivity.watch_callback fuel handler inputKeys st) as [st'|st'|];
    simpl in *; [| |done];
    destruct H1 as [_ [_ Hreg _]]; destruct H2 as (Hs & _ & Hd);
    (repeat split;
     [ intros k s; apply Hreg; by intros []
     | intros s; by apply keeps_scopes_is_active
     | by apply nothing_disposed_hooks_fired
     | by destruct Hd ]).
Qed.

(** X2. With a handler that never writes the ref, a pass of the
    callback of src/deep-reactivity.ts that ends normally has added
    exactly the missing keys: the keys of the registry are those it had
    and those the pass was given; the handler calls made during the
    pass are the given keys that had no entry, in the order given (one
    call for each such key, the keys of an object being distinct), and
    no other; the value of the ref is unchanged. *)
Theorem sync_pass_adds_missing_keys fuel handler inputKeys st st' :
  write_free handler ->
  DeepReactivity.watch_callback fuel handler inputKeys st = Normal st' ->
  (forall k, In k (JsMap.keys (childScopes st'))
             <-> In k (JsMap.keys (childScopes st)) \/ In k inputKeys)
  /\ handler_calls (trace st')
     = handler_calls (trace st) ++ DeepReactivity.keysToAdd inputKeys st
  /\ input st' = input st.
Proof.
  intros Hno. destruct fuel as [|fuel]; [by simpl|].
  rewrite DeepReactivityFacts.watch_callback_eq. intros Hl.
  destruct (sync_add_loop_write_free _ handler _ Hno _ _ Hl) as (Hh & Hc & Hi & _).
  repeat split; [| | done | done]; rewrite <- !JsMapFacts.has_In, Hh, orb_true_iff,
    includes_In; unfold DeepReactivity.keysToAdd; rewrite filter_In.
  - intros [H|[H _]]; auto.
  - intros [H|H]; [by left|].
    destruct (JsMap.has k (childScopes st)) eqn:E; [by left | by right].
Qed.

Lemma sync_pass_adds_missing_keys_witness :
  (forall k, In k (JsMap.keys (childScopes sync_state_later))
             <-> In k (JsMap.keys (childScopes sync_state)) \/ In k ["b"; "c"])
  /\ handler_calls (trace sync_state_later)
     = handler_calls (trace sync_state)
       ++ DeepReactivity.keysToAdd ["b"; "c"] (set_input [("b", 2); ("c", 3)] sync_state)
  /\ input sync_state_later = [("b", 2); ("c", 3)].
Proof.
  apply (sync_pass_adds_missing_keys 1 marking ["b"; "c"]
           (set_input [("b", 2); ("c", 3)] sync_state) sync_state_later).
  - intros key o' [H|[]]. discriminate.
  - vm_compute. reflexivity.
Defined.

(** X3. In src/deep-reactivity.ts the handler of a key runs inside the
    scope created for that key, nested passes included: when the loop
    body for a key has ended normally, the hooks of the new scope are
    exactly the hooks the handler registered, in the order it
    registered them, followed by the self-removing hook of the key; the
    scope is live and is the key's entry; and no scope that existed got
    a hook. *)
Theorem sync_handler_hooks_on_key_scope fuel handler key st st' :
  DeepReactivity.add_key (DeepReactivity.notify fuel handler) handler key st = Normal st' ->
  scope_cleanups (length (heap st)) st' = hooks_of (handler key) ++ [SelfRemove key]
  /\ is_active (length (heap st)) st' = true
  /\ JsMap.get key (childScopes st') = Some (length (heap st))
  /\ forall s, s < length (heap st) -> scope_cleanups s st' = scope_cleanups s st.
Proof.
  intros Hk.
  pose proof (sync_add_key_hooks (DeepReactivity.notify fuel handler)
                (sync_notify_hooks_kept handler fuel) handler key st) as H.
  rewrite Hk in H. destruct H as (Hkept & Hc & Ha).
  repeat split; [done | done | | intros s Hs; by apply hooks_kept_cleanups].
  rewrite DeepReactivityFacts.sync_add_key_eq in Hk.
  pose proof (handler_exit handler (DeepReactivity.notify fuel handler)
                (DeepReactivityFacts.sync_notify_rel handler fuel) key st _ eq_refl) as He.
  destruct (call_handler (DeepReactivity.notify fuel handler) handler key
              (handler_entry key st)) as [s'|s'|]; [|done|done].
  injection Hk as <-. simpl in He. destruct He as (_ & _ & Hg & _).
  simpl. unfold onScopeDispose. by destruct (activeEffectScope s').
Qed.

Lemma sync_handler_hooks_on_key_scope_witness :
  scope_cleanups 3 sync_state_later = [UserHook 0] ++ [SelfRemove "c"]
  /\ is_active 3 sync_state_later = true
  /\ JsMap.get "c" (childScopes sync_state_later) = Some 3
  /\ forall s, s < 3 -> scope_cleanups s sync_state_later
                        = scope_cleanups s (set_input [("b", 2); ("c", 3)] sync_state).
Proof.
  apply (sync_handler_hooks_on_key_scope 0 marking "c"
           (set_input [("b", 2); ("c", 3)] sync_state) sync_state_later).
  vm_compute. reflexivity.
Defined.

(** ** Properties of the [watchEffect] variant *)

(** X4. In the [watchEffect] variant the handler of a key that has no
    entry runs inside the scope created for that key: however the
    handler ends, the hooks of the new scope are exactly the hooks the
    handler registered, in the order it registered them; the scope is
    live and is the key's entry; and no scope that existed got a
    hook. *)
Theorem watch_effect_handler_hooks_on_key_scope handler key st :
  JsMap.has key (childScopes st) = false ->
  ends_in (fun st' =>
      scope_cleanups (length (heap st)) st' = hooks_of (handler key)
      /\ is_active (length (heap st)) st' = true
      /\ JsMap.get key (childScopes st') = Some (length (heap st))
      /\ forall s, s < length (heap st) -> scope_cleanups s st' = scope_cleanups s st)
    (WatchEffect.add_key handler key st).
Proof.
  intros Hhas.
  pose proof (effect_add_key_hooks handler key st Hhas) as H.
  pose proof (WatchEffectAdding.effect_add_key_step handler key st) as Hstep.
  pose proof (Termination.effect_add_loop_ends handler [key] st) as He.
  unfold ends in He. simpl in He.
  destruct (WatchEffect.add_key handler key st) as [st'|st'|]; simpl in *; [| |done];
    rewrite Hhas in Hstep; destruct H as (Hk & Hc & Ha); destruct Hstep as [C _];
    (repeat split; [done | done | rewrite C; apply JsMapFacts.get_set_eq |]);
    intros s Hs; by apply hooks_kept_cleanups.
Qed.

Lemma watch_effect_handler_hooks_on_key_scope_witness :
  ends_in (fun st' =>
      scope_cleanups 3 st' = [UserHook 0]
      /\ is_active 3 st' = true
      /\ JsMap.get "c" (childScopes st') = Some 3
      /\ forall s, s < 3 -> scope_cleanups s st' = scope_cleanups s effect_state)
    (WatchEffect.add_key marking "c" effect_state).
Proof. apply (watch_effect_handler_hooks_on_key_scope marking "c" effect_state). reflexivity. Defined.

(** X5. Coverage in the [watchEffect] variant: in a session with a
    handler that never writes the ref, whenever a call has returned and
    the watcher has not been stopped, the registry has an entry for
    exactly the keys of the object the ref holds. *)
(** X5. Coverage in the [watchEffect] variant: in a session with a
    handler that never writes the ref, each write being followed by the
    re-run of the effect the scheduler makes once the batch has
    settled, the state after the initial pass and after each such
    re-run, while the watcher has not been stopped, has a registry
    entry for exactly the keys of the object the ref holds. A write
    alone does not touch the registry: between a write and the re-run
    the registry covers the new object only if that has the keys of the
    old one. *)
Theorem watch_effect_registry_is_key_set fuel handler o cs st :
  write_free handler ->
  WatchEffect.session fuel handler o cs = Normal st ->
  watching st = true ->
  registry_covers st
  /\ forall o', registry_covers (set_input o' st) ->
       forall k, In k (Object_keys o') <-> In k (Object_keys (input st)).
Proof.
  intros Hno Hs Hw.
  assert (Hcov : registry_covers st).
  { revert Hs Hw. unfold WatchEffect.session, WatchEffect.useScopePerKey. simpl.
    unfold EffectScope_run. simpl.
    match goal with |- context [WatchEffect.effect_body fuel handler ?s] =>
      set (s0 := s);
      assert (Hn0 : no_self_remove s0) by (apply Forall_singleton; by intros k []);
      destruct (WatchEffect.effect_body fuel handler s0) as [s'|s'|] eqn:Hb
    end; [|done|done].
    destruct (WatchEffectCoverage.effect_body_coverage fuel handler s0 s' Hn0 Hb)
      as [Hn Hcov].
    intros Hcalls Hw.
    refine (proj2 (WatchEffectPasses.effect_calls_coverage fuel handler cs Hno _ st _ _
                     Hcalls) Hw).
    - by apply (no_self_remove_same_heap s').
    - intros _ k. simpl. rewrite (effect_body_write_free_input fuel handler _ _ Hno Hb).
      apply Hcov. }
  split; [done|]. intros o' Hcov' k.
  rewrite <- (Hcov k). symmetry. apply (Hcov' k).
Qed.

Lemma watch_effect_registry_is_key_set_witness :
  registry_covers effect_state_later
  /\ forall o', registry_covers (set_input o' effect_state_later) ->
       forall k, In k (Object_keys o') <-> In k (Object_keys (input effect_state_later)).
Proof.
  apply (watch_effect_registry_is_key_set 1 marking [("a", 1); ("b", 2)]
           [SetValue [("b", 2); ("c", 3)]] effect_state_later).
  - intros key o' [H|[]]. discriminate.
  - vm_compute. reflexivity.
  - reflexivity.
Defined.

(** X6. Uniqueness in the [watchEffect] variant: in every state a
    session ends in, normally or by a throw of a handler, whatever the
    handler does, a key has at most one live scope among all the scopes
    that were ever registered for it. *)
Theorem watch_effect_one_live_scope_per_key fuel handler o cs :
  outcome_sat (fun st =>
      forall k s1 s2, In s1 (live_scopes_for k st) -> In s2 (live_scopes_for k st) -> s1 = s2)
    (WatchEffect.session fuel handler o cs).
Proof.
  pose proof (WatchEffectUniqueness.session_owns_live fuel handler o cs) as H.
  destruct (WatchEffect.session fuel handler o cs); simpl in *; [| |done];
    intros k s1 s2; by apply owns_live_at_most_one.
Qed.

(** X7. Disposal on removal in the [watchEffect] variant: take any
    state a session has reached in which the watcher is running and a
    key is registered with scope [s]. After a write of an object that
    does not have the key, the pass always ends, and however it ends
    the scope [s] is inert, the key has no entry, and during the pass
    every hook of [s] has fired exactly once, in registration order. *)
Theorem watch_effect_removed_key_is_disposed fuel0 fuel handler o cs st key s o' :
  WatchEffect.session fuel0 handler o cs = Normal st ->
  watching st = true ->
  JsMap.get key (childScopes st) = Some s ->
  ~ In key (Object_keys o') ->
  ends_in (fun st' =>
      is_active s st' = false
      /\ JsMap.has key (childScopes st') = false
      /\ hooks_fired_of s (trace st') = hooks_fired_of s (trace st) ++ scope_cleanups s st)
    (WatchEffect.call (S fuel) handler (SetValue o') st).
Proof.
  intros Hs Hw Hg Hnot.
  pose proof (WatchEffectSession.effect_session_inv fuel0 handler o cs) as Hinv.
  rewrite Hs in Hinv. simpl in Hinv.
  apply (WatchEffectSession.effect_set_input_inv o') in Hinv.
  unfold WatchEffect.call, WatchEffect.rerun. cbn [watching set_input]. rewrite Hw.
  unfold WatchEffect.effect_body.
  set (st0 := set_input o' st) in *.
  set (toRemove := WatchEffect.keysToRemove _ _).
  set (toAdd := WatchEffect.keysToAdd _ _).
  destruct (WatchEffectRemoval.remove_loop_leaf fuel toRemove st0 Hinv)
    as (st1 & E & _ & _ & _ & _ & _ & Reg).
  rewrite E. specialize (Reg key s Hg).
  assert (Hinc : includes key toRemove = true).
  { unfold toRemove. rewrite includes_keysToRemove, <- has_keys_includes.
    assert (Hhas : JsMap.has key (childScopes st0) = true)
      by (apply JsMapFacts.has_get; eauto).
    rewrite Hhas. simpl. by rewrite includes_false. }
  rewrite Hinc in Reg. destruct Reg as (R1 & R2 & R3).
  assert (Hlt : s < length (heap st1)).
  { rewrite (remove_loop_heap_length _ _ _ _ E).
    destruct Hinv as (_ & Hleaf & _).
    destruct (Hleaf key s Hg) as ((sc & Hsc & _) & _). by apply lookup_lt_Some in Hsc. }
  assert (Hnew : ~ In key toAdd).
  { unfold toAdd, WatchEffect.keysToAdd. rewrite filter_In. by intros [? _]. }
  pose proof (effect_add_loop_keeps handler toAdd st1) as Hk.
  pose proof (WatchEffectAdding.effect_add_loop_calls handler toAdd st1) as Hc.
  pose proof (Termination.effect_add_loop_ends handler toAdd st1) as He.
  unfold ends in He.
  destruct (WatchEffect.add_loop handler toAdd st1) as [st'|st'|]; simpl in *; [| |done];
    destruct Hk as (Ks & _ & Kd); destruct Hc as (Kk & _);
    (repeat split;
     [ by rewrite (keeps_scopes_active_eq st1 st' s Ks Hlt)
     | destruct (JsMap.has key (childScopes st')) eqn:E'; [|done];
       destruct (Kk key E') as [E1|E1]; [congruence | done]
     | by rewrite (nothing_disposed_hooks_fired_of st1 st' s Kd) ]).
Qed.

Lemma watch_effect_removed_key_is_disposed_witness :
  ends_in (fun st' =>
      is_active 1 st' = false
      /\ JsMap.has "a" (childScopes st') = false
      /\ hooks_fired_of 1 (trace st') = [] ++ [UserHook 0])
    (WatchEffect.call 1 marking (SetValue [("b", 2); ("c", 3)]) effect_state).
Proof.
  apply (watch_effect_removed_key_is_disposed 1 0 marking [("a", 1); ("b", 2)] []
           effect_state "a" 1 [("b", 2); ("c", 3)]).
  - vm_compute. reflexivity.
  - reflexivity.
  - reflexivity.
  - simpl. intros [H|[H|[]]]; discriminate.
Defined.

(** X8. Keys that stay in the [watchEffect] variant: take any state a
    session has reached in which the watcher is running and a key is
    registered with scope [s]. After a write of an object that still
    has the key, the pass always ends, and however it ends the key is
    still registered with [s], [s] is live and carries the same hooks,
    none of its hooks has fired during the pass, and the handler was
    not called for the key. *)
Theorem watch_effect_kept_key_is_untouched fuel0 fuel handler o cs st key s o' :
  WatchEffect.session fuel0 handler o cs = Normal st ->
  watching st = true ->
  JsMap.get key (childScopes st) = Some s ->
  In key (Object_keys o') ->
  ends_in (fun st' =>
      JsMap.get key (childScopes st') = Some s
      /\ is_active s st' = true
      /\ scope_cleanups s st' = scope_cleanups s st
      /\ hooks_fired_of s (trace st') = hooks_fired_of s (trace st)
      /\ exists ks, handler_calls (trace st') = handler_calls (trace st) ++ ks
                    /\ ~ In key ks)
    (WatchEffect.call (S fuel) handler (SetValue o') st).
Proof.
  intros Hs Hw Hg Hin.
  pose proof (WatchEffectSession.effect_session_inv fuel0 handler o cs) as Hinv.
  rewrite Hs in Hinv. simpl in Hinv.
  apply (WatchEffectSession.effect_set_input_inv o') in Hinv.
  unfold WatchEffect.call, WatchEffect.rerun. cbn [watching set_input]. rewrite Hw.
  pose proof (WatchEffectInv.effect_body_inv (S fuel) handler _ Hinv) as Hend.
  unfold WatchEffect.effect_body in *.
  set (st0 := set_input o' st) in *.
  set (toRemove := WatchEffect.keysToRemove _ _) in *.
  set (toAdd := WatchEffect.keysToAdd _ _) in *.
  destruct (WatchEffectRemoval.remove_loop_leaf fuel toRemove st0 Hinv)
    as (st1 & E & _ & Hcalls & Hcl & _ & _ & Reg).
  rewrite E in *. specialize (Reg key s Hg).
  assert (Hinc : includes key toRemove = false).
  { unfold toRemove. rewrite includes_keysToRemove.
    change (Object_keys (input st0)) with (Object_keys o').
    rewrite (includes_true key (Object_keys o')) by done. apply andb_false_r. }
  rewrite Hinc in Reg. destruct Reg as (R1 & R2).
  assert (Hlt : s < length (heap st1)).
  { rewrite (remove_loop_heap_length _ _ _ _ E).
    destruct Hinv as (_ & Hleaf & _).
    destruct (Hleaf key s Hg) as ((sc & Hsc & _) & _). by apply lookup_lt_Some in Hsc. }
  assert (Hnew : ~ In key toAdd).
  { unfold toAdd, WatchEffect.keysToAdd. rewrite filter_In.
    assert (Hhas : includes key (JsMap.keys (childScopes st0)) = true).
    { rewrite <- has_keys_includes. apply JsMapFacts.has_get. eauto. }
    rewrite Hhas. by intros [_ ?]. }
  pose proof (effect_add_loop_keeps handler toAdd st1) as Hk.
  pose proof (WatchEffectAdding.effect_add_loop_calls handler toAdd st1) as Hc.
  pose proof (WatchEffectAdding.effect_add_loop_hooks_kept handler toAdd st1) as Hh.
  pose proof (WatchEffectFacts.effect_add_loop_rel handler toAdd st1) as Hr.
  pose proof (Termination.effect_add_loop_ends handler toAdd st1) as He.
  unfold ends in He.
  destruct (WatchEffect.add_loop handler toAdd st1) as [st'|st'|]; simpl in *; [| |done];
    destruct Hk as (_ & _ & Kd); destruct Hc as (_ & ks & Kc & Kin);
    destruct Hr as [_ [_ Hreg _]];
    assert (Hg' : JsMap.get key (childScopes st') = Some s) by (by apply Hreg);
    destruct Hend as (_ & Hleaf' & _);
    destruct (Hleaf' key s Hg') as ((sc' & Hsc' & Hact' & _) & _);
    (repeat split;
     [ done
     | unfold is_active; by rewrite Hsc'
     | by rewrite (hooks_kept_cleanups st1 st' s Hh Hlt), Hcl
     | by rewrite (nothing_disposed_hooks_fired_of st1 st' s Kd)
     | exists ks; rewrite Kc, Hcalls; split; [done|]; intros Hks; by apply Kin in Hks ]).
Qed.

Lemma watch_effect_kept_key_is_untouched_witness :
  ends_in (fun st' =>
      JsMap.get "b" (childScopes st') = Some 2
      /\ is_active 2 st' = true
      /\ scope_cleanups 2 st' = scope_cleanups 2 effect_state
      /\ hooks_fired_of 2 (trace st') = hooks_fired_of 2 (trace effect_state)
      /\ exists ks, handler_calls (trace st') = handler_calls (trace effect_state) ++ ks
                    /\ ~ In "b" ks)
    (WatchEffect.call 1 marking (SetValue [("b", 2); ("c", 3)]) effect_state).
Proof.
  apply (watch_effect_kept_key_is_untouched 1 0 marking [("a", 1); ("b", 2)] []
           effect_state "b" 2 [("b", 2); ("c", 3)]).
  - vm_compute. reflexivity.
  - reflexivity.
  - reflexivity.
  - simpl. by left.
Defined.

(** X9. Handler calls in the [watchEffect] variant: take any state a
    session has reached in which the watcher is running. When the pass
    after a write of an object (whose keys are distinct, as
    [Object.keys] gives them) ends normally, the handler has been
    called during the pass once for each key of the object that had no
    entry, in the order of [Object.keys], and for no other key. *)
Theorem watch_effect_handler_called_once_per_new_key fuel0 fuel handler o cs st o' st' :
  WatchEffect.session fuel0 handler o cs = Normal st ->
  watching st = true ->
  List.NoDup (Object_keys o') ->
  WatchEffect.call fuel handler (SetValue o') st = Normal st' ->
  handler_calls (trace st')
  = handler_calls (trace st)
    ++ WatchEffect.keysToAdd (Object_keys o') (JsMap.keys (childScopes st)).
Proof.
  intros Hs Hw Hnd.
  pose proof (WatchEffectSession.effect_session_inv fuel0 handler o cs) as Hinv.
  rewrite Hs in Hinv. simpl in Hinv.
  apply (WatchEffectSession.effect_set_input_inv o') in Hinv.
  unfold WatchEffect.call, WatchEffect.rerun. cbn [watching set_input]. rewrite Hw.
  unfold WatchEffect.effect_body.
  set (st0 := set_input o' st) in *.
  set (toRemove := WatchEffect.keysToRemove _ _).
  change (Object_keys (input st0)) with (Object_keys o').
  change (childScopes st0) with (childScopes st).
  set (toAdd := WatchEffect.keysToAdd _ _).
  destruct (WatchEffectRemoval.remove_loop_leaf fuel toRemove st0 Hinv)
    as (st1 & E & _ & Hcalls & _ & _ & Habs & _).
  destruct (WatchEffect.remove_loop fuel toRemove st0) as [x|x|] eqn:E0; [|done|done].
  pose proof (remove_loop_fuel_add fuel 1 toRemove st0) as Hf. unfold ends in Hf.
  rewrite E0, Nat.add_1_r, E in Hf. assert (Hx : st1 = x) by (injection Hf as ->; done). subst x.
  intros Hl.
  assert (Hnew : forall k, In k toAdd -> JsMap.has k (childScopes st1) = false).
  { intros k Hk. apply Habs. unfold toAdd, WatchEffect.keysToAdd in Hk.
    apply filter_In in Hk. destruct Hk as [_ Hk].
    change (childScopes st0) with (childScopes st). rewrite has_keys_includes.
    by destruct (includes k (JsMap.keys (childScopes st))). }
  rewrite (WatchEffectAdding.effect_add_loop_calls_exact handler toAdd
             (List.NoDup_filter _ Hnd) _ _ Hnew Hl).
  by rewrite Hcalls.
Qed.

Lemma watch_effect_handler_called_once_per_new_key_witness :
  handler_calls (trace effect_state_later)
  = handler_calls (trace effect_state)
    ++ WatchEffect.keysToAdd (Object_keys [("b", 2); ("c", 3)])
         (JsMap.keys (childScopes effect_state)).
Proof.
  apply (watch_effect_handler_called_once_per_new_key 1 1 marking [("a", 1); ("b", 2)] []
           effect_state [("b", 2); ("c", 3)] effect_state_later).
  - vm_compute. reflexivity.
  - reflexivity.
  - simpl. repeat constructor; simpl; intros H; repeat destruct H as [H|H]; try discriminate; done.
  - vm_compute. reflexivity.
Defined.

(** ** The state the setup of the sync variant leaves *)

Lemma effectScope_child st p sc :
  activeEffectScope st = Some p -> heap st !! p = Some sc ->
  heap (snd (effectScope st)) !! p = Some (push_scope (length (heap st)) sc).
Proof.
  intros Ha Hp. simpl. rewrite Ha.
  rewrite list_lookup_alter_eq. by rewrite (lookup_app_l_Some _ _ _ _ Hp).
Qed.

Lemma keeps_scopes_children a b p c :
  keeps_scopes a b -> In c (scope_children p a) -> In c (scope_children p b).
Proof.
  intros H. unfold scope_children. destruct (heap a !! p) as [sc|] eqn:Hp; [|done].
  destruct (H p sc Hp) as (sc' & -> & _ & _ & Hc). apply Hc.
Qed.

Module SyncSetup.
Import DeepReactivity.

(** The scope the loop body creates is a child scope of the scope that
    is active when the loop runs. *)
Lemma sync_add_key_child fuel handler key p st st' :
  activeEffectScope st = Some p -> p < length (heap st) ->
  add_key (notify fuel handler) handler key st = Normal st' ->
  In (length (heap st)) (scope_children p st') /\ keeps_scopes st st'.
Proof.
  intros Ha Hp Hk.
  pose proof (sync_add_key_rule pass_keeps pass_keeps_refl pass_keeps_trans
                pass_keeps_effectScope pass_keeps_set pass_keeps_active
                pass_keeps_hook pass_keeps_called pass_keeps_input
                (notify fuel handler) (sync_notify_keeps fuel handler) handler key st) as Hall.
  rewrite Hk in Hall. destruct Hall as (Hall & _). split; [|done].
  rewrite DeepReactivityFacts.sync_add_key_eq in Hk.
  pose proof (call_handler_rule pass_keeps pass_keeps_refl pass_keeps_trans
                pass_keeps_hook pass_keeps_called pass_keeps_input
                (notify fuel handler) (sync_notify_keeps fuel handler)
                handler key (handler_entry key st)) as H.
  destruct (call_handler (notify fuel handler) handler key (handler_entry key st))
    as [s'|s'|]; [|done|done].
  injection Hk as <-. destruct H as (Hs & _).
  destruct (lookup_lt_is_Some_2 (heap st) p Hp) as [sc Hsc].
  pose proof (effectScope_child st p sc Ha Hsc) as Hc.
  change (heap (snd (effectScope st))) with (heap (handler_entry key st)) in Hc.
  apply (keeps_scopes_children s'); [apply keeps_scopes_trans with
    (b := onScopeDispose (SelfRemove key) s');
    [apply keeps_scopes_onScopeDispose | by apply keeps_scopes_same_heap]|].
  apply (keeps_scopes_children (handler_entry key st)); [done|].
  unfold scope_children. rewrite Hc. simpl. apply in_or_app. right. by left.
Qed.

Lemma sync_add_loop_owned fuel handler p keys :
  write_free handler ->
  forall st st',
    activeEffectScope st = Some p -> p < length (heap st) ->
    self_removing st -> owned_by p st ->
    add_loop (notify fuel handler) handler keys st = Normal st' ->
    self_removing st' /\ owned_by p st'.
Proof.
  intros Hno. induction keys as [|key rest IH]; intros st st' Ha Hp Hself Hown; simpl.
  - by intros [= <-].
  - destruct (add_key (notify fuel handler) handler key st) as [s1|s1|] eqn:Hk;
      [|done|done].
    pose proof (sync_add_key_hooks (notify fuel handler)
                  (sync_notify_hooks_kept handler fuel) handler key st) as Hh.
    rewrite Hk in Hh. destruct Hh as (Hkept & Hcl & Hact).
    destruct (sync_add_key_write_free _ _ _ _ _ (Hno key) Hk) as (Hreg & _).
    destruct (sync_add_key_child fuel handler key p st s1 Ha Hp Hk) as [Hchild Hks].
    apply IH.
    + destruct Hkept as [-> _]. done.
    + destruct (lookup_lt_is_Some_2 (heap st) p Hp) as [sc Hsc].
      destruct (Hks p sc Hsc) as (sc' & Hsc' & _). by apply lookup_lt_Some in Hsc'.
    + intros k c Hg. rewrite Hreg in Hg.
      destruct (String.eqb_spec k key) as [->|Hne].
      * rewrite JsMapFacts.get_set_eq in Hg. injection Hg as <-.
        rewrite Hcl, Hact. split; [apply in_or_app; right; by left | done].
      * rewrite JsMapFacts.get_set_ne in Hg by done.
        destruct (Hself k c Hg) as [Hhook Hlive].
        assert (Hc : c < length (heap st)).
        { unfold is_active in Hlive. destruct (heap st !! c) eqn:E; [|done].
          by apply lookup_lt_Some in E. }
        rewrite (hooks_kept_cleanups st s1 c Hkept Hc). split; [done|].
        by rewrite (keeps_scopes_active_eq st s1 c Hks Hc).
    + intros k c Hg. rewrite Hreg in Hg.
      destruct (String.eqb_spec k key) as [->|Hne].
      * rewrite JsMapFacts.get_set_eq in Hg. by injection Hg as <-.
      * rewrite JsMapFacts.get_set_ne in Hg by done.
        apply (keeps_scopes_children st); [done | by apply (Hown k)].
Qed.

(** When the setup has ended normally, with a handler that never
    writes the ref: the parent scope is live and owns the watcher,
    and every registered scope is a live child scope of it that
    carries the self-removing hook of its key. *)
Lemma sync_setup_owned fuel handler st0 p st :
  write_free handler ->
  useScopePerKey fuel handler st0 = (p, Normal st) ->
  (exists sc, heap st !! p = Some sc /\ active sc = true /\ In TopLevelWatch (effects sc))
  /\ watching st = true
  /\ self_removing st /\ owned_by p st.
Proof.
  intros Hno. unfold useScopePerKey.
  pose proof (effectScope_active st0) as Hact0.
  destruct (effectScope st0) as [p0 st1] eqn:He. cbn [fst snd] in Hact0.
  unfold EffectScope_run.
  change (is_active p0 (set_childScopes [] st1)) with (is_active p0 st1).
  rewrite Hact0.
  set (s1 := create_watcher (set_activeEffectScope (Some p0) (set_childScopes [] st1))).
  destruct fuel as [|fuel]; [by simpl|].
  rewrite DeepReactivityFacts.watch_callback_eq.
  destruct (add_loop (notify fuel handler) handler
              (keysToAdd (Object_keys (input s1)) s1) s1) as [s'|s'|] eqn:Hl;
    [|done|done].
  intros [= <- <-].
  unfold is_active in Hact0. destruct (heap st1 !! p0) as [sc0|] eqn:Hp0; [|done].
  assert (Hp1 : heap s1 !! p0 = Some (push_effect TopLevelWatch sc0)).
  { unfold s1, create_watcher. simpl. by rewrite list_lookup_alter_eq, Hp0. }
  pose proof (watch_callback_keeps (S fuel) handler (Object_keys (input s1)) s1) as Hk.
  rewrite DeepReactivityFacts.watch_callback_eq, Hl in Hk.
  destruct Hk as (Hks & _ & [Hw _]).
  assert (Hlt : p0 < length (heap s1)) by by apply lookup_lt_Some in Hp1.
  assert (Hs0 : self_removing s1) by by intros k c.
  assert (Ho0 : owned_by p0 s1) by by intros k c.
  destruct (sync_add_loop_owned fuel handler p0 (keysToAdd (Object_keys (input s1)) s1)
              Hno s1 s' eq_refl Hlt Hs0 Ho0 Hl) as [Hself Hown].
  split; [|split; [simpl; by rewrite Hw | split; [by apply (self_removing_ext s') | done]]].
  destruct (Hks p0 _ Hp1) as (sc' & Hsc' & Hact' & Heff' & _).
  exists sc'. repeat split; [done | by rewrite Hact' |].
  rewrite Heff'. simpl. apply in_or_app. right. by left.
Qed.

End SyncSetup.

(** ** The first pass of the sync variant *)

Lemma sync_keysToAdd_empty inputKeys st :
  childScopes st = [] -> DeepReactivity.keysToAdd inputKeys st = inputKeys.
Proof.
  intros H. unfold DeepReactivity.keysToAdd. rewrite H.
  induction inputKeys as [|k l IH]; [done|]. simpl. f_equal. exact IH.
Qed.

Lemma effect_keysToAdd_empty inputKeys : WatchEffect.keysToAdd inputKeys [] = inputKeys.
Proof.
  unfold WatchEffect.keysToAdd. induction inputKeys as [|k l IH]; [done|].
  simpl. f_equal. exact IH.
Qed.

(** The setup of the sync variant, when it ends normally: the first
    pass is the loop over all the keys of the object, run with the new
    parent scope active on an empty registry. *)
Lemma sync_setup_unfold fuel handler st0 p st :
  DeepReactivity.useScopePerKey fuel handler st0 = (p, Normal st) ->
  exists fuel' s',
    fuel = S fuel'
    /\ p = length (heap st0)
    /\ DeepReactivity.add_loop (DeepReactivity.notify fuel' handler) handler
         (Object_keys (input st0))
         (create_watcher
            (set_activeEffectScope (Some p) (set_childScopes [] (snd (effectScope st0)))))
       = Normal s'
    /\ st = set_activeEffectScope (activeEffectScope st0) s'.
Proof.
  unfold DeepReactivity.useScopePerKey.
  pose proof (effectScope_active st0) as Hact0.
  destruct (effectScope st0) as [p0 st1] eqn:He. cbn [fst snd] in Hact0.
  assert (Hp : p0 = length (heap st0)) by (unfold effectScope in He; by injection He).
  assert (Ha : activeEffectScope st1 = activeEffectScope st0)
    by (unfold effectScope in He; by injection He as _ <-).
  assert (Hi : input st1 = input st0)
    by (unfold effectScope in He; by injection He as _ <-).
  unfold EffectScope_run.
  change (is_active p0 (set_childScopes [] st1)) with (is_active p0 st1).
  rewrite Hact0.
  set (s1 := create_watcher (set_activeEffectScope (Some p0) (set_childScopes [] st1))).
  destruct fuel as [|fuel']; [by simpl|].
  rewrite DeepReactivityFacts.watch_callback_eq, sync_keysToAdd_empty by done.
  change (input s1) with (input st1). rewrite Hi.
  destruct (DeepReactivity.add_loop (DeepReactivity.notify fuel' handler) handler
              (Object_keys (input st0)) s1) as [s'|s'|] eqn:Hl; [|done|done].
  intros [= <- <-]. exists fuel', s'. cbn [snd].
  repeat split; [done | done |]. simpl. by rewrite Ha.
Qed.


(** ** The returned function of the sync variant after the setup *)

(** X10. The function returned by [useScopePerKey] of
    src/deep-reactivity.ts, called when the setup has ended normally
    with a handler that never writes the ref, on an object that has at
    least one key: the call does not return, whatever the fuel. The
    disposal of the parent scope reaches the scope of a key, a child
    scope of the parent, and the self-removing hook of that scope
    calls [stop] on the scope itself, which is not yet inert while its
    hooks run: the disposal re-enters itself without end. *)
Theorem sync_dispose_after_setup_does_not_return fuel handler st0 p st key fuel' :
  write_free handler ->
  DeepReactivity.useScopePerKey fuel handler st0 = (p, Normal st) ->
  In key (Object_keys (input st0)) ->
  DeepReactivity.dispose fuel' p st = Diverged.
Proof.
  intros Hno Hsetup Hin.
  destruct (SyncSetup.sync_setup_owned fuel handler st0 p st Hno Hsetup)
    as ((sc & Hp & Hact & Heff) & _ & Hself & Hown).
  destruct (sync_setup_unfold fuel handler st0 p st Hsetup)
    as (f & s' & -> & Hpl & Hl & Hst).
  destruct (sync_add_loop_write_free _ handler _ Hno _ _ Hl) as (Hh & _).
  assert (Hhas : JsMap.has key (childScopes st) = true).
  { rewrite Hst. cbn [childScopes set_activeEffectScope]. rewrite Hh.
    apply orb_true_iff. right. by apply includes_In. }
  apply JsMapFacts.has_get in Hhas. destruct Hhas as [c Hg].
  apply (stop_fuel_owner_diverges fuel' p sc st key c); try done.
  specialize (Hown key c Hg). unfold scope_children in Hown. by rewrite Hp in Hown.
Qed.

Lemma sync_dispose_after_setup_does_not_return_witness :
  DeepReactivity.dispose 9 0 sync_state = Diverged.
Proof.
  apply (sync_dispose_after_setup_does_not_return 1 marking
           (initial [("a", 1); ("b", 2)]) 0 sync_state "a" 9).
  - intros key o' [H|[]]. discriminate.
  - vm_compute. reflexivity.
  - simpl. by left.
Defined.

(** ** The watcher of the sync variant in a session *)

Module SyncSession.
Import DeepReactivity.

Lemma sync_calls_app fuel handler p cs1 cs2 :
  forall st,
    calls fuel handler p (cs1 ++ cs2) st =
    match calls fuel handler p cs1 st with
    | Normal st' => calls fuel handler p cs2 st'
    | r => r
    end.
Proof.
  induction cs1 as [|c cs1 IH]; intros st; simpl; [done|].
  destruct (call fuel handler p c st); auto.
Qed.

(** When the setup has ended normally the parent scope is live and
    owns the watcher, which is running. *)
Lemma sync_setup_owner fuel handler st0 p st :
  useScopePerKey fuel handler st0 = (p, Normal st) ->
  p = length (heap st0)
  /\ watching st = true
  /\ exists sc, heap st !! p = Some sc /\ active sc = true /\ In TopLevelWatch (effects sc).
Proof.
  unfold useScopePerKey.
  pose proof (effectScope_active st0) as Hact0.
  destruct (effectScope st0) as [p0 st1] eqn:He. cbn [fst snd] in Hact0.
  assert (Hp : p0 = length (heap st0)) by (unfold effectScope in He; by injection He).
  unfold EffectScope_run.
  change (is_active p0 (set_childScopes [] st1)) with (is_active p0 st1).
  rewrite Hact0.
  set (s1 := create_watcher (set_activeEffectScope (Some p0) (set_childScopes [] st1))).
  pose proof (watch_callback_keeps fuel handler (Object_keys (input s1)) s1) as Hk.
  destruct (watch_callback fuel handler (Object_keys (input s1)) s1) as [s'|s'|];
    [|done|done].
  intros [= <- <-]. destruct Hk as (Hks & _ & [Hw _]).
  split; [done|]. split; [simpl; by rewrite Hw|].
  unfold is_active in Hact0. destruct (heap st1 !! p0) as [sc0|] eqn:Hp0; [|done].
  assert (Hp1 : heap s1 !! p0 = Some (push_effect TopLevelWatch sc0)).
  { unfold s1, create_watcher. simpl. by rewrite list_lookup_alter_eq, Hp0. }
  destruct (Hks p0 _ Hp1) as (sc' & Hsc' & Hact' & Heff' & _).
  exists sc'. repeat split; [done | by rewrite Hact' |].
  rewrite Heff'. simpl. apply in_or_app. right. by left.
Qed.

(** While the watcher is running, the parent scope is live and owns
    it. *)
(** While the watcher is running, the parent scope is live and owns
    it. *)
Lemma sync_calls_owner fuel handler p cs :
  forall st st',
    (watching st = true ->
     exists sc, heap st !! p = Some sc /\ active sc = true /\ In TopLevelWatch (effects sc)) ->
    calls fuel handler p cs st = Normal st' ->
    watching st' = true ->
    exists sc, heap st' !! p = Some sc /\ active sc = true /\ In TopLevelWatch (effects sc).
Proof.
  induction cs as [|c cs IH]; intros st st' Hst; simpl.
  - by intros [= <-].
  - destruct (call fuel handler p c st) as [s1|s1|] eqn:Hc; [|done|done].
    apply IH. destruct c as [o|]; simpl in Hc.
    + pose proof (sync_notify_keeps fuel handler (set_input o st)) as Hk.
      rewrite Hc in Hk. destruct Hk as (Hks & _ & [Hw _]).
      rewrite Hw. intros Hw1. destruct (Hst Hw1) as (sc & Hsc & Hact & Heff).
      destruct (Hks p sc Hsc) as (sc' & Hsc' & Hact' & Heff' & _).
      exists sc'. by rewrite Hact', Heff'.
    + unfold dispose in Hc. intros Hw. exfalso.
      destruct (watching st) eqn:E.
      * destruct (Hst eq_refl) as (sc & Hsc & Hact & Heff).
        rewrite (dispose_stops_watcher fuel p sc st s1 Hsc Hact Heff Hc) in Hw. done.
      * pose proof (stop_fuel_stays_unwatched fuel p st) as Hu. rewrite Hc in Hu.
        simpl in Hu. rewrite (Hu E) in Hw. done.
Qed.

End SyncSession.

(** X11. In a session of src/deep-reactivity.ts, whatever the handler
    did and whatever calls came before: once a call of the returned
    function has returned, the watcher is stopped, and a later write
    of the ref changes the value of the ref and nothing else (no pass
    runs, no handler is called, no scope is created or disposed). *)
Theorem sync_returned_function_ends_reconciliation fuel handler o cs st fuel' p o' :
  DeepReactivity.session fuel handler o (cs ++ [Dispose]) = Normal st ->
  watching st = false
  /\ DeepReactivity.call fuel' handler p (SetValue o') st = Normal (set_input o' st).
Proof.
  unfold DeepReactivity.session.
  destruct (DeepReactivity.useScopePerKey fuel handler (initial o)) as [p0 r] eqn:Hsetup.
  destruct r as [s0|s0|]; [|done|done].
  destruct (SyncSession.sync_setup_owner fuel handler _ _ _ Hsetup) as (_ & _ & Hown).
  rewrite SyncSession.sync_calls_app.
  destruct (DeepReactivity.calls fuel handler p0 cs s0) as [s1|s1|] eqn:Hcalls;
    [|done|done].
  cbn [DeepReactivity.calls DeepReactivity.call]. unfold DeepReactivity.dispose.
  destruct (stop_fuel fuel p0 s1) as [s2|s2|] eqn:Hd; [|done|done].
  intros [= <-].
  assert (Hw : watching s2 = false).
  { destruct (watching s1) eqn:E.
    - destruct (SyncSession.sync_calls_owner fuel handler p0 cs s0 s1 (fun _ => Hown)
                  Hcalls E) as (sc & Hsc & Hact & Heff).
      by apply (dispose_stops_watcher fuel p0 sc s1 s2).
    - pose proof (stop_fuel_stays_unwatched fuel p0 s1) as Hu. rewrite Hd in Hu.
      by apply Hu. }
  split; [done|]. unfold DeepReactivity.notify. simpl. by rewrite Hw.
Qed.

Lemma sync_returned_function_ends_reconciliation_witness :
  watching sync_state_disposed = false
  /\ DeepReactivity.call 1 marking 0 (SetValue [("d", 4)]) sync_state_disposed
     = Normal (set_input [("d", 4)] sync_state_disposed).
Proof.
  apply (sync_returned_function_ends_reconciliation 1 marking []
           [SetValue [("a", 1)]] sync_state_disposed 1 0 [("d", 4)]).
  vm_compute. reflexivity.
Defined.

(** ** The first pass *)

(** X12. The setup of src/deep-reactivity.ts runs the first pass
    before it returns ([immediate: true]): when [useScopePerKey] has
    returned normally, with a handler that never writes the ref, the
    registry has an entry for exactly the keys of the object, each
    with a live scope; the handler calls made are the keys of the
    object, in the order of [Object.keys] (one call for each key);
    the watcher is running; and the value of the ref and the active
    scope of the caller are what they were. *)
Theorem sync_setup_runs_first_pass fuel handler st0 p st :
  write_free handler ->
  DeepReactivity.useScopePerKey fuel handler st0 = (p, Normal st) ->
  (forall k, In k (JsMap.keys (childScopes st)) <-> In k (Object_keys (input st0)))
  /\ (forall k c, JsMap.get k (childScopes st) = Some c -> is_active c st = true)
  /\ handler_calls (trace st) = handler_calls (trace st0) ++ Object_keys (input st0)
  /\ watching st = true
  /\ input st = input st0
  /\ activeEffectScope st = activeEffectScope st0.
Proof.
  intros Hno Hsetup.
  destruct (SyncSetup.sync_setup_owned fuel handler st0 p st Hno Hsetup)
    as (_ & Hw & Hself & _).
  destruct (sync_setup_unfold fuel handler st0 p st Hsetup)
    as (fuel' & s' & -> & -> & Hl & ->).
  destruct (sync_add_loop_write_free _ handler _ Hno _ _ Hl) as (Hh & Hc & Hi & _).
  repeat split; try done.
  - simpl. rewrite <- JsMapFacts.has_In, Hh. simpl. by rewrite includes_In.
  - simpl. rewrite <- JsMapFacts.has_In, Hh. simpl. by rewrite includes_In.
  - intros k c Hg. by destruct (Hself k c Hg) as [_ ?].
  - simpl. rewrite Hc. f_equal. simpl. by rewrite handler_calls_app, app_nil_r.
Qed.

Lemma sync_setup_runs_first_pass_witness :
  (forall k, In k (JsMap.keys (childScopes sync_state)) <-> In k ["a"; "b"])
  /\ (forall k c, JsMap.get k (childScopes sync_state) = Some c ->
                  is_active c sync_state = true)
  /\ handler_calls (trace sync_state) = [] ++ ["a"; "b"]
  /\ watching sync_state = true
  /\ input sync_state = [("a", 1); ("b", 2)]
  /\ activeEffectScope sync_state = None.
Proof.
  apply (sync_setup_runs_first_pass 1 marking (initial [("a", 1); ("b", 2)]) 0 sync_state).
  - intros key o' [H|[]]. discriminate.
  - vm_compute. reflexivity.
Defined.

(** ** The first pass of the [watchEffect] variant *)

Lemma effect_add_key_keeps handler key st :
  outcome_rel pass_keeps st (WatchEffect.add_key handler key st).
Proof. apply effect_add_key_rule; eauto using pass_keeps_trans with keeps. Qed.

Lemma no_self_remove_create_watcher st :
  no_self_remove st -> no_self_remove (create_watcher st).
Proof.
  intros H. unfold create_watcher, no_self_remove.
  destruct (activeEffectScope st); [|done]. simpl.
  apply Forall_alter; [done|]. intros sc _ Hsc. exact Hsc.
Qed.

Module WatchEffectSetup.
Import WatchEffect.

Lemma effect_add_loop_has handler keys :
  forall st st', add_loop handler keys st = Normal st' ->
    forall k, JsMap.has k (childScopes st')
              = JsMap.has k (childScopes st) || includes k keys.
Proof.
  induction keys as [|key rest IH]; intros st st'; simpl.
  - intros [= <-] k. by rewrite orb_false_r.
  - pose proof (WatchEffectAdding.effect_add_key_step handler key st) as H.
    destruct (add_key handler key st) as [s1|s1|]; [|done|done]. simpl in H.
    intros Hl k. rewrite (IH _ _ Hl k). unfold includes. simpl. rewrite orb_assoc.
    f_equal. destruct (JsMap.has key (childScopes st)) eqn:Hhas.
    + subst s1. destruct (String.eqb_spec k key) as [->|Hne];
        [by rewrite Hhas | by rewrite orb_false_r].
    + destruct H as [-> _]. apply WatchEffectCoverage.has_set.
Qed.

(** The scope the loop body creates is a child scope of the scope that
    is active when the loop runs. *)
Lemma effect_add_key_child handler key p st :
  activeEffectScope st = Some p -> p < length (heap st) ->
  JsMap.has key (childScopes st) = false ->
  outcome_rel (fun a b => In (length (heap a)) (scope_children p b))
    st (add_key handler key st).
Proof.
  intros Ha Hp Hhas. rewrite WatchEffectFacts.effect_add_key_eq by done.
  assert (Hn : forall s, outcome_rel pass_keeps s (notify s))
    by (intros s; apply pass_keeps_refl).
  pose proof (call_handler_rule pass_keeps pass_keeps_refl pass_keeps_trans
                pass_keeps_hook pass_keeps_called pass_keeps_input
                notify Hn handler key (handler_entry key st)) as H.
  destruct (lookup_lt_is_Some_2 (heap st) p Hp) as [sc Hsc].
  pose proof (effectScope_child st p sc Ha Hsc) as Hc.
  change (heap (snd (effectScope st))) with (heap (handler_entry key st)) in Hc.
  assert (Hin : In (length (heap st)) (scope_children p (handler_entry key st))).
  { unfold scope_children. rewrite Hc. simpl. apply in_or_app. right. by left. }
  destruct (call_handler notify handler key (handler_entry key st)) as [s'|s'|];
    simpl in *; [| |done]; destruct H as (Hs & _);
    (apply (keeps_scopes_children s'); [by apply keeps_scopes_same_heap|]);
    by apply (keeps_scopes_children (handler_entry key st)).
Qed.

Lemma effect_add_loop_owned handler p keys :
  forall st st',
    activeEffectScope st = Some p -> p < length (heap st) ->
    (forall k c, JsMap.get k (childScopes st) = Some c ->
       is_active c st = true /\ In c (scope_children p st)) ->
    add_loop handler keys st = Normal st' ->
    forall k c, JsMap.get k (childScopes st') = Some c ->
      is_active c st' = true /\ In c (scope_children p st').
Proof.
  induction keys as [|key rest IH]; intros st st' Ha Hp Hst; simpl.
  - by intros [= <-].
  - pose proof (WatchEffectAdding.effect_add_key_step handler key st) as Hstep.
    pose proof (effect_add_key_keeps handler key st) as Hkeep.
    destruct (JsMap.has key (childScopes st)) eqn:Hhas.
    + rewrite WatchEffectFacts.effect_add_key_skip by done. by apply IH.
    + pose proof (effect_add_key_hooks handler key st Hhas) as Hh.
      pose proof (effect_add_key_child handler key p st Ha Hp Hhas) as Hc.
      destruct (add_key handler key st) as [s1|s1|]; [|done|done]. simpl in *.
      rewrite Hhas in Hstep.
      destruct Hstep as [Hreg _]. destruct Hh as (Hkept & _ & Hact).
      destruct Hkeep as (Hks & _).
      apply IH.
      * destruct Hkept as [-> _]. done.
      * destruct (lookup_lt_is_Some_2 (heap st) p Hp) as [sc Hsc].
        destruct (Hks p sc Hsc) as (sc' & Hsc' & _). by apply lookup_lt_Some in Hsc'.
      * intros k c Hg. rewrite Hreg in Hg.
        destruct (String.eqb_spec k key) as [->|Hne].
        -- rewrite JsMapFacts.get_set_eq in Hg. by injection Hg as <-.
        -- rewrite JsMapFacts.get_set_ne in Hg by done.
           destruct (Hst k c Hg) as [Hlive Hch].
           split; [by apply (keeps_scopes_is_active st) | by apply (keeps_scopes_children st)].
Qed.

(** The setup of the [watchEffect] variant, when it ends normally in
    a caller whose active scope, if any, is live: the first run of the
    effect is the adding loop over all the keys of the object, run
    on an empty registry with the scope [p] active, which is the
    caller's scope or else a new one. *)
Lemma effect_setup_unfold fuel handler st0 p st :
  (forall c, activeEffectScope st0 = Some c -> is_active c st0 = true) ->
  useScopePerKey fuel handler st0 = (p, Normal st) ->
  exists st1 s',
    (p, st1) = match activeEffectScope st0 with
               | Some c => (c, st0)
               | None => effectScope st0
               end
    /\ is_active p st1 = true
    /\ add_loop handler (Object_keys (input st0))
         (create_watcher (set_activeEffectScope (Some p) (set_childScopes [] st1)))
       = Normal s'
    /\ st = set_activeEffectScope (activeEffectScope st0) s'.
Proof.
  intros Hlive. unfold useScopePerKey, getCurrentScope.
  set (r := match activeEffectScope st0 with
            | Some c => (c, st0)
            | None => effectScope st0
            end).
  assert (Hr : is_active (fst r) (snd r) = true
               /\ activeEffectScope (snd r) = activeEffectScope st0
               /\ input (snd r) = input st0).
  { unfold r. destruct (activeEffectScope st0) as [c|] eqn:Ha.
    - split; [by apply Hlive | done].
    - split; [apply effectScope_active | by simpl]. }
  destruct r as [p0 st1]. cbn [fst snd] in Hr. destruct Hr as (Hact & Ha & Hi).
  unfold EffectScope_run.
  change (is_active p0 (set_childScopes [] st1)) with (is_active p0 st1).
  rewrite Hact. unfold effect_body.
  set (s1 := create_watcher (set_activeEffectScope (Some p0) (set_childScopes [] st1))).
  change (JsMap.keys (childScopes s1)) with (@nil Key).
  change (input s1) with (input st1). rewrite Hi, effect_keysToAdd_empty.
  change (keysToRemove (Object_keys (input st0)) []) with (@nil Key).
  cbn [remove_loop].
  destruct (add_loop handler (Object_keys (input st0)) s1) as [s'|s'|] eqn:Hl;
    [|done|done].
  intros [= <- <-]. exists st1, s'. repeat split; [done | done |]. by rewrite Ha.
Qed.

End WatchEffectSetup.

(** What the setup of the [watchEffect] variant leaves, when it ends
    normally in a caller whose active scope, if any, is live. *)
Lemma effect_setup_facts fuel handler st0 p st :
  (forall c, activeEffectScope st0 = Some c -> is_active c st0 = true) ->
  WatchEffect.useScopePerKey fuel handler st0 = (p, Normal st) ->
  p = default (length (heap st0)) (activeEffectScope st0)
  /\ (forall k c, JsMap.get k (childScopes st) = Some c ->
        is_active c st = true /\ In c (scope_children p st))
  /\ watching st = true
  /\ (exists sc, heap st !! p = Some sc /\ active sc = true
                 /\ In TopLevelWatch (effects sc))
  /\ activeEffectScope st = activeEffectScope st0
  /\ (no_self_remove st0 -> no_self_remove st).
Proof.
  intros Hlive Hsetup.
  destruct (WatchEffectSetup.effect_setup_unfold fuel handler st0 p st Hlive Hsetup)
    as (st1 & s' & Heq & Hact & Hl & ->).
  set (s1 := create_watcher (set_activeEffectScope (Some p) (set_childScopes [] st1))) in *.
  unfold is_active in Hact. destruct (heap st1 !! p) as [sc0|] eqn:Hp0; [|done].
  assert (Hp1 : heap s1 !! p = Some (push_effect TopLevelWatch sc0)).
  { unfold s1, create_watcher. simpl. by rewrite list_lookup_alter_eq, Hp0. }
  assert (Hlt : p < length (heap s1)) by by apply lookup_lt_Some in Hp1.
  pose proof (effect_add_loop_keeps handler (Object_keys (input st0)) s1) as Hk.
  rewrite Hl in Hk. destruct Hk as (Hks & _ & [Hw _]).
  split; [|split; [|split; [|split; [|split]]]].
  - destruct (activeEffectScope st0) as [c|]; simpl; [by injection Heq|].
    unfold effectScope in Heq. by injection Heq.
  - apply (WatchEffectSetup.effect_add_loop_owned handler p (Object_keys (input st0))
             s1 s' eq_refl Hlt); [by intros k c | done].
  - simpl. by rewrite Hw.
  - destruct (Hks p _ Hp1) as (sc' & Hsc' & Hact' & Heff' & _).
    exists sc'. simpl. repeat split; [done | by rewrite Hact' |].
    rewrite Heff'. simpl. apply in_or_app. right. by left.
  - done.
  - intros Hn0.
    assert (Hn1 : no_self_remove st1).
    { destruct (activeEffectScope st0) as [c|]; [by injection Heq as _ -> |].
      rewrite (surjective_pairing (effectScope st0)) in Heq. injection Heq as _ ->.
      by apply effectScope_no_self_remove. }
    apply (no_self_remove_same_heap s'); [done|].
    assert (Hns1 : no_self_remove s1)
      by (apply no_self_remove_create_watcher; by apply (no_self_remove_same_heap st1)).
    by destruct (WatchEffectCoverage.add_loop_registry handler (Object_keys (input st0))
                   s1 s' Hns1 Hl) as [? _].
Qed.

(** X13. The setup of the [watchEffect] variant runs the first pass
    before it returns: when [useScopePerKey] has returned normally,
    called where the active scope, if any, is live, on an object whose
    keys are distinct (as [Object.keys] gives them), the watcher is
    owned by the caller's active scope, or by a new scope if there is
    none; the registry has an entry for exactly the keys of the object,
    each with a live scope that is a child scope of the owner; the
    handler was called once for every key, in the order of
    [Object.keys]; the watcher is running; and the caller's active
    scope is what it was. *)
Theorem watch_effect_setup_runs_first_pass fuel handler st0 p st :
  (forall c, activeEffectScope st0 = Some c -> is_active c st0 = true) ->
  List.NoDup (Object_keys (input st0)) ->
  WatchEffect.useScopePerKey fuel handler st0 = (p, Normal st) ->
  p = default (length (heap st0)) (activeEffectScope st0)
  /\ is_active p st = true
  /\ In TopLevelWatch (scope_effects p st)
  /\ (forall k, In k (JsMap.keys (childScopes st)) <-> In k (Object_keys (input st0)))
  /\ (forall k c, JsMap.get k (childScopes st) = Some c ->
        is_active c st = true /\ In c (scope_children p st))
  /\ handler_calls (trace st) = handler_calls (trace st0) ++ Object_keys (input st0)
  /\ watching st = true
  /\ activeEffectScope st = activeEffectScope st0.
Proof.
  intros Hlive Hnd Hsetup.
  destruct (effect_setup_facts fuel handler st0 p st Hlive Hsetup)
    as (Hp & Hown & Hw & (sc & Hsc & Hact & Heff) & Ha & _).
  destruct (WatchEffectSetup.effect_setup_unfold fuel handler st0 p st Hlive Hsetup)
    as (st1 & s' & Heq & _ & Hl & ->).
  split; [done|]. split; [unfold is_active; by rewrite Hsc|].
  split; [unfold scope_effects; by rewrite Hsc|].
  split; [|split; [done|split; [|done]]].
  - intros k. simpl.
    rewrite <- JsMapFacts.has_In, (WatchEffectSetup.effect_add_loop_has _ _ _ _ Hl).
    simpl. by rewrite includes_In.
  - simpl.
    assert (Habs : forall k, In k (Object_keys (input st0)) ->
              JsMap.has k (childScopes
                (create_watcher
                   (set_activeEffectScope (Some p) (set_childScopes [] st1)))) = false)
      by done.
    rewrite (WatchEffectAdding.effect_add_loop_calls_exact handler _ Hnd _ _ Habs Hl).
    f_equal. simpl.
    destruct (activeEffectScope st0) as [c|]; [by injection Heq as _ ->|].
    rewrite (surjective_pairing (effectScope st0)) in Heq. injection Heq as _ ->.
    simpl. by rewrite handler_calls_app, app_nil_r.
Qed.

Lemma watch_effect_setup_runs_first_pass_witness :
  0 = default (length (heap (initial [("a", 1); ("b", 2)])))
        (activeEffectScope (initial [("a", 1); ("b", 2)]))
  /\ is_active 0 effect_state = true
  /\ In TopLevelWatch (scope_effects 0 effect_state)
  /\ (forall k, In k (JsMap.keys (childScopes effect_state)) <-> In k ["a"; "b"])
  /\ (forall k c, JsMap.get k (childScopes effect_state) = Some c ->
        is_active c effect_state = true /\ In c (scope_children 0 effect_state))
  /\ handler_calls (trace effect_state) = [] ++ ["a"; "b"]
  /\ watching effect_state = true
  /\ activeEffectScope effect_state = None.
Proof.
  apply (watch_effect_setup_runs_first_pass 1 marking (initial [("a", 1); ("b", 2)]) 0
           effect_state).
  - intros c H. discriminate.
  - simpl. repeat constructor; simpl; intros H; repeat destruct H as [H|H];
      try discriminate; done.
  - vm_compute. reflexivity.
Defined.

(** ** The hooks a disposal fires

    While no scope carries a self-removing hook and every child scope
    was created after its parent, a disposal walks down the scopes
    below the one it is given: it returns, and the scopes it makes
    inert have their hooks fired once each, in registration order. *)

Lemma disposal_fires_refl c a : disposal_fires c a a.
Proof.
  repeat split; [done|]. destruct (is_active c a); simpl; by rewrite app_nil_r.
Qed.

Lemma disposal_fires_trans c a b d :
  disposal_fires c a b -> disposal_fires c b d -> disposal_fires c a d.
Proof.
  intros (I1 & C1 & F1) (I2 & C2 & F2). repeat split; [auto | congruence |].
  rewrite F2, F1, C1, <- app_assoc. f_equal.
  destruct (is_active c a) eqn:Ea, (is_active c b) eqn:Eb, (is_active c d) eqn:Ed;
    simpl; rewrite ?app_nil_r; try done;
    try (by specialize (I2 eq_refl)); by specialize (I1 eq_refl).
Qed.


(** A step that changes neither whether [c] is live, nor its hooks, nor
    the hooks of [c] that have fired. *)
Lemma disposal_fires_frame c a b :
  is_active c b = is_active c a -> scope_cleanups c b = scope_cleanups c a ->
  hooks_fired_of c (trace b) = hooks_fired_of c (trace a) ->
  disposal_fires c a b.
Proof.
  intros Ha Hc Ht. unfold disposal_fires. rewrite Ha, Hc, Ht. repeat split; [done|].
  destruct (is_active c a); simpl; by rewrite app_nil_r.
Qed.

Lemma disposal_fires_same c a b :
  heap b = heap a -> hooks_fired_of c (trace b) = hooks_fired_of c (trace a) ->
  disposal_fires c a b.
Proof.
  intros Hh Ht. apply disposal_fires_frame; [| |done]; unfold is_active, scope_cleanups;
    by rewrite Hh.
Qed.

Lemma stop_effect_disposal_fires c e a : disposal_fires c a (stop_effect e a).
Proof.
  destruct e. unfold stop_effect. destruct (watching a); [|apply disposal_fires_refl].
  apply disposal_fires_same; [done|]. simpl. by rewrite hooks_fired_of_app, app_nil_r.
Qed.

Lemma fold_stop_effect_disposal_fires c l st :
  disposal_fires c st (fold_left (fun acc e => stop_effect e acc) l st).
Proof.
  apply (fold_left_rule (disposal_fires c) (disposal_fires_refl c)
           (disposal_fires_trans c)).
  intros a e. apply stop_effect_disposal_fires.
Qed.

(** *** Child scopes are created after their parent *)

Lemma children_later_same_heap a b :
  heap b = heap a -> children_later a -> children_later b.
Proof. unfold children_later. by intros ->. Qed.

Lemma children_later_alter (f : EffectScope -> EffectScope) s st :
  (forall sc, scopes (f sc) = scopes sc) ->
  children_later st -> children_later (set_heap (alter f s (heap st)) st).
Proof.
  intros Hf H p sc. simpl. destruct (decide (s = p)) as [->|Hne].
  - rewrite list_lookup_alter_eq. destruct (heap st !! p) as [sc0|] eqn:E; [|done].
    intros [= <-]. rewrite Hf. by apply (H p).
  - rewrite list_lookup_alter_ne by done. apply H.
Qed.

Lemma children_later_effectScope st :
  active_allocated st ->
  children_later st -> children_later (snd (effectScope st)).
Proof.
  intros Hamb H.
  assert (H1 : forall p sc,
            (heap st ++ [mkScope true (activeEffectScope st) [] [] []]) !! p = Some sc ->
            Forall (fun c => p < c) (scopes sc)).
  { intros p sc Hp. apply lookup_app_Some in Hp. destruct Hp as [Hp|[_ Hp]].
    - by apply (H p).
    - apply list_lookup_singleton_Some in Hp. destruct Hp as [_ <-]. constructor. }
  intros p sc. simpl. destruct (activeEffectScope st) as [q|] eqn:Ha; [|apply H1].
  specialize (Hamb q Ha). destruct (decide (q = p)) as [->|Hne].
  - rewrite list_lookup_alter_eq.
    destruct ((heap st ++ [mkScope true (Some p) [] [] []]) !! p) as [sc0|] eqn:E; [|done].
    intros [= <-]. simpl. apply Forall_app. split; [by apply (H1 p)|].
    by apply Forall_singleton.
  - rewrite list_lookup_alter_ne by done. apply H1.
Qed.

Lemma handler_keeps_children_later a b :
  handler_keeps a b -> children_later a -> children_later b.
Proof.
  intros (_ & _ & _ & _ & L & Hh) H p sc Hp.
  assert (Hlt : p < length (heap a)) by (apply lookup_lt_Some in Hp; lia).
  destruct (lookup_lt_is_Some_2 (heap a) p Hlt) as [sc0 Hp0].
  destruct (Hh p sc0 Hp0) as (sc' & Hp' & _ & _ & Hs).
  assert (sc' = sc) by congruence. subst sc'. rewrite Hs. by apply (H p).
Qed.

Lemma children_later_create_watcher st :
  children_later st -> children_later (create_watcher st).
Proof.
  intros H. unfold create_watcher. destruct (activeEffectScope st) as [s|]; [|done].
  apply (children_later_same_heap (set_heap (alter (push_effect TopLevelWatch) s (heap st)) st));
    [done|]. by apply children_later_alter.
Qed.

Module WatchEffectLater.
Import WatchEffect.

Lemma effect_add_key_later handler key st :
  children_later st ->
  active_allocated st ->
  outcome_sat (fun st' =>
      children_later st'
      /\ active_allocated st')
    (add_key handler key st).
Proof.
  intros Hl Hamb. destruct (JsMap.has key (childScopes st)) eqn:Hhas.
  - by rewrite WatchEffectFacts.effect_add_key_skip.
  - rewrite WatchEffectFacts.effect_add_key_eq by done.
    unfold call_handler. rewrite handler_entry_activeEffectScope.
    set (he := emit (HandlerCalled key (length (heap st))) (handler_entry key st)).
    assert (Hhe : children_later he).
    { apply (children_later_same_heap (snd (effectScope st))); [done|].
      by apply children_later_effectScope. }
    assert (Hlen : length (heap he) = S (length (heap st)))
      by apply effectScope_heap_length.
    pose proof (effect_run_ops_keeps (handler key) he) as H.
    destruct (run_ops notify (handler key) he) as [s'|s'|];
      cbn [outcome_rel outcome_sat] in *; [| |done];
      (split; [apply (children_later_same_heap s'); [done|];
               by apply (handler_keeps_children_later he)|]);
      destruct H as (_ & _ & _ & _ & L & _); intros p Hp;
      cbn [activeEffectScope set_activeEffectScope heap] in *; apply Hamb in Hp;
      rewrite L, Hlen; lia.
Qed.

Lemma effect_add_loop_later handler keys :
  forall st, children_later st ->
    active_allocated st ->
    outcome_sat (fun st' =>
        children_later st'
        /\ active_allocated st')
      (add_loop handler keys st).
Proof.
  induction keys as [|key rest IH]; intros st Hl Hamb; simpl; [done|].
  pose proof (effect_add_key_later handler key st Hl Hamb) as H.
  destruct (add_key handler key st) as [s1|s1|]; simpl in *; [|done|done].
  destruct H as [H1 H2]. by apply IH.
Qed.

End WatchEffectLater.

(** *** The disposal of a tree of scopes *)

Lemma stop_fuel_children_later fuel s st st' :
  stop_fuel fuel s st = Normal st' -> children_later st -> children_later st'.
Proof.
  apply (stop_fuel_Normal_rule (fun a b => children_later a -> children_later b)).
  - auto.
  - intros a b c H1 H2 H. auto.
  - intros a e _. by apply children_later_same_heap.
  - intros a x H. by apply children_later_alter.
  - intros a. by apply children_later_same_heap.
  - intros a key. by apply children_later_same_heap.
Qed.

Lemma stop_fuel_stays_inert_rel fuel s st :
  outcome_rel stays_inert st (stop_fuel fuel s st).
Proof. apply stop_fuel_rule; eauto using stays_inert_trans with inert. Qed.

Lemma run_all_stop_inert fuel l :
  forall st st', run_all (stop_fuel fuel) l st = Normal st' ->
    forall c, In c l -> is_active c st' = false.
Proof.
  induction l as [|x l IH]; intros st st' H c Hin; [done|]. simpl in H.
  destruct (stop_fuel fuel x st) as [s1|s1|] eqn:E; [|done|done].
  destruct Hin as [->|Hin]; [|by apply (IH s1)].
  pose proof (run_all_rel stays_inert (stop_fuel fuel) stays_inert_refl stays_inert_trans
                (stop_fuel_stays_inert_rel fuel) l s1) as Hr.
  rewrite H in Hr. apply Hr. by apply (stop_fuel_stops fuel c st).
Qed.

(** When the disposal of a live scope has returned, its child scopes
    are inert. *)
Lemma stop_fuel_children_inert fuel p sc st st' :
  heap st !! p = Some sc -> active sc = true ->
  stop_fuel fuel p st = Normal st' ->
  forall c, In c (scopes sc) -> is_active c st' = false.
Proof.
  intros Hp Hact. destruct fuel as [|fuel]; [done|]. rewrite stop_fuel_S, Hp, Hact.
  destruct (run_all (run_hook (stop_fuel fuel) p) _ _) as [st2|st2|]; [|done|done].
  destruct (run_all (stop_fuel fuel) (scopes sc) st2) as [st3|st3|] eqn:E3; [|done|done].
  intros [= <-] c Hin.
  change (is_active c (set_heap (alter deactivate p (heap st3)) st3) = false).
  apply stays_inert_deactivate. by apply (run_all_stop_inert fuel (scopes sc) st2).
Qed.

Section Tree.
Variable fuel : nat.
Hypothesis stop_returns :
  forall s st, no_self_remove st -> children_later st ->
    length (heap st) <= s + fuel ->
    exists st', stop_fuel (S fuel) s st = Normal st'
      /\ (forall x, x < s -> heap st' !! x = heap st !! x)
      /\ (forall c, disposal_fires c st st').

Lemma run_all_tree s0 l :
  forall st, no_self_remove st -> children_later st ->
    Forall (fun c => s0 < c) l -> length (heap st) <= S s0 + fuel ->
    exists st', run_all (stop_fuel (S fuel)) l st = Normal st'
      /\ (forall x, x <= s0 -> heap st' !! x = heap st !! x)
      /\ (forall c, disposal_fires c st st').
Proof.
  induction l as [|c l IH]; intros st Hn Hl Hf Hlen.
  - exists st. split; [done|]. split; [done|]. intros x. apply disposal_fires_refl.
  - apply Forall_cons in Hf. destruct Hf as [Hc Hf].
    destruct (stop_returns c st Hn Hl ltac:(lia)) as (s1 & E1 & K1 & F1).
    cbn [run_all]. rewrite E1.
    destruct (IH s1) as (s2 & E2 & K2 & F2).
    + eapply same_registry_no_self_remove; [|exact Hn].
      by apply (stop_fuel_same_registry (S fuel) c).
    + by apply (stop_fuel_children_later (S fuel) c st).
    + done.
    + by rewrite (stop_fuel_heap_length _ _ _ _ E1).
    + exists s2. split; [done|]. split.
      * intros x Hx. rewrite K2 by done. apply K1. lia.
      * intros x. by apply (disposal_fires_trans x st s1 s2).
Qed.

End Tree.

Lemma stop_fuel_tree fuel :
  forall s st, no_self_remove st -> children_later st ->
    length (heap st) <= s + fuel ->
    exists st', stop_fuel (S fuel) s st = Normal st'
      /\ (forall x, x < s -> heap st' !! x = heap st !! x)
      /\ (forall c, disposal_fires c st st').
Proof.
  induction fuel as [|fuel IH]; intros s st Hn Hl Hlen; rewrite stop_fuel_S.
  - rewrite lookup_ge_None_2 by lia. exists st. split; [done|]. split; [done|].
    intros c. apply disposal_fires_refl.
  - destruct (heap st !! s) as [sc|] eqn:Hs;
      [|exists st; split; [done|]; split; [done|]; intros c; apply disposal_fires_refl].
    destruct (active sc) eqn:Hact;
      [|exists st; split; [done|]; split; [done|]; intros c; apply disposal_fires_refl].
    destruct (fold_stop_effect_frame (effects sc) st) as [Hh1 Hc1].
    set (st1 := fold_left (fun acc e => stop_effect e acc) (effects sc) st) in *.
    rewrite run_all_user_hooks by by apply (user_hooks_only_lookup st s).
    rewrite emit_all_eq.
    set (st2 := mkState _ _ _ _ _ _).
    assert (Hh2 : heap st2 = heap st) by done.
    destruct (run_all_tree fuel IH s (scopes sc) st2) as (st3 & E3 & K3 & F3).
    + by apply (no_self_remove_same_heap st).
    + by apply (children_later_same_heap st).
    + by apply (Hl s).
    + rewrite Hh2. lia.
    + rewrite E3. eexists. split; [reflexivity|].
      assert (Hs3 : heap st3 !! s = Some sc) by (rewrite K3 by done; by rewrite Hh2).
      split.
      * intros x Hx. simpl. rewrite list_lookup_alter_ne by lia.
        rewrite K3 by lia. by rewrite Hh2.
      * intros c.
        assert (H01 : disposal_fires c st st1) by apply fold_stop_effect_disposal_fires.
        destruct (decide (c = s)) as [->|Hne].
        -- destruct H01 as (_ & C01 & T01). destruct (F3 s) as (_ & C23 & T23).
           unfold disposal_fires, is_active, scope_cleanups in *. simpl in *.
           rewrite list_lookup_alter_eq, Hs3, Hs in *. simpl. rewrite Hact.
           rewrite Hh1, Hs in *. rewrite Hact in *. simpl in *.
           split; [done|]. split; [done|].
           rewrite hooks_fired_of_app, T23, hooks_fired_of_app, hooks_fired_of_map, T01.
           rewrite decide_True by done. simpl. by rewrite !app_nil_r.
        -- apply (disposal_fires_trans c st st1); [done|].
           apply (disposal_fires_trans c st1 st2).
           { apply disposal_fires_same; [done|]. simpl.
             rewrite hooks_fired_of_app, hooks_fired_of_map.
             rewrite decide_False by done. apply app_nil_r. }
           apply (disposal_fires_trans c st2 st3); [done|].
           apply disposal_fires_frame.
           ++ unfold is_active. simpl. by rewrite list_lookup_alter_ne.
           ++ apply scope_cleanups_deactivate.
           ++ simpl. by rewrite hooks_fired_of_app, app_nil_r.
Qed.

(** What the setup of the [watchEffect] variant keeps of the shape of
    the caller's scopes. *)
Lemma effect_setup_children_later fuel handler st0 p st :
  (forall c, activeEffectScope st0 = Some c -> is_active c st0 = true) ->
  children_later st0 ->
  WatchEffect.useScopePerKey fuel handler st0 = (p, Normal st) ->
  children_later st.
Proof.
  intros Hlive Hl0 Hsetup.
  destruct (WatchEffectSetup.effect_setup_unfold fuel handler st0 p st Hlive Hsetup)
    as (st1 & s' & Heq & Hact & Hl & ->).
  assert (Hl1 : children_later st1).
  { destruct (activeEffectScope st0) as [c|] eqn:Ha; [by injection Heq as _ ->|].
    rewrite (surjective_pairing (effectScope st0)) in Heq. injection Heq as _ ->.
    apply children_later_effectScope; [|done]. intros q Hq. congruence. }
  set (s1 := create_watcher (set_activeEffectScope (Some p) (set_childScopes [] st1))) in *.
  assert (Hls1 : children_later s1)
    by (apply children_later_create_watcher; by apply (children_later_same_heap st1)).
  assert (Hamb : forall q, activeEffectScope s1 = Some q -> q < length (heap s1)).
  { intros q [= <-]. unfold is_active in Hact.
    destruct (heap st1 !! p) as [sc0|] eqn:Hp0; [|done].
    apply lookup_lt_Some in Hp0. unfold s1, create_watcher. simpl.
    by rewrite length_alter. }
  pose proof (WatchEffectLater.effect_add_loop_later handler (Object_keys (input st0))
                s1 Hls1 Hamb) as H.
  rewrite Hl in H. destruct H as [H _]. by apply (children_later_same_heap s').
Qed.

(** X14. The [watchEffect] variant relies on the scope it was called
    in: when [useScopePerKey] has returned normally, called where the
    active scope, if any, is live, no scope carries a self-removing
    hook, and every child scope was created after its parent (its id is
    larger, as the runtime allocates them), the disposal of the scope
    that owns the watcher returns, given fuel beyond the number of
    scopes; it stops the watcher and disposes every scope the first
    pass registered, firing each of its hooks exactly once, in
    registration order; the registry keeps all its entries. *)
Theorem watch_effect_owner_disposal_disposes_first_scopes fuel handler st0 p st fuel' :
  (forall c, activeEffectScope st0 = Some c -> is_active c st0 = true) ->
  no_self_remove st0 ->
  children_later st0 ->
  WatchEffect.useScopePerKey fuel handler st0 = (p, Normal st) ->
  length (heap st) < fuel' ->
  exists st',
    stop_fuel fuel' p st = Normal st'
    /\ watching st' = false
    /\ childScopes st' = childScopes st
    /\ forall k c, JsMap.get k (childScopes st) = Some c ->
         is_active c st = true
         /\ is_active c st' = false
         /\ hooks_fired_of c (trace st')
            = hooks_fired_of c (trace st) ++ scope_cleanups c st.
Proof.
  intros Hlive Hn0 Hl0 Hsetup Hfuel.
  destruct (effect_setup_facts fuel handler st0 p st Hlive Hsetup)
    as (_ & Hown & _ & (sc & Hsc & Hact & Heff) & _ & Hn).
  specialize (Hn Hn0).
  pose proof (effect_setup_children_later fuel handler st0 p st Hlive Hl0 Hsetup) as Hl.
  destruct fuel' as [|f]; [lia|].
  destruct (stop_fuel_tree f p st Hn Hl ltac:(lia)) as (st' & E & _ & F).
  exists st'. split; [done|].
  split; [by apply (dispose_stops_watcher (S f) p sc st st')|].
  split; [by apply (stop_fuel_same_registry (S f) p st st' Hn E)|].
  intros k c Hg. destruct (Hown k c Hg) as [Hlv Hc]. split; [done|].
  assert (Hinert : is_active c st' = false).
  { apply (stop_fuel_children_inert (S f) p sc st st' Hsc Hact E).
    unfold scope_children in Hc. by rewrite Hsc in Hc. }
  split; [done|].
  destruct (F c) as (_ & _ & T). by rewrite T, Hlv, Hinert.
Qed.

Lemma watch_effect_owner_disposal_disposes_first_scopes_witness :
  exists st',
    stop_fuel 4 0 effect_state_enclosed = Normal st'
    /\ watching st' = false
    /\ childScopes st' = childScopes effect_state_enclosed
    /\ forall k c, JsMap.get k (childScopes effect_state_enclosed) = Some c ->
         is_active c effect_state_enclosed = true
         /\ is_active c st' = false
         /\ hooks_fired_of c (trace st')
            = hooks_fired_of c (trace effect_state_enclosed)
              ++ scope_cleanups c effect_state_enclosed.
Proof.
  apply (watch_effect_owner_disposal_disposes_first_scopes 1 marking enclosing 0
           effect_state_enclosed 4).
  - intros c [= <-]. reflexivity.
  - apply Forall_singleton. by intros k [].
  - intros q sc Hq. destruct q as [|q]; [|done]. injection Hq as <-. constructor.
  - vm_compute. reflexivity.
  - simpl. lia.
Defined.

(** ** Disposing the scope of one key of the sync variant *)

Module SyncSelfRemoving.
Import DeepReactivity.

(** With a handler that never writes the ref, the adding loop leaves
    every registered scope live and carrying the self-removing hook of
    its key. *)
Lemma sync_add_loop_self_removing fuel handler keys :
  write_free handler ->
  forall st st', self_removing st ->
    add_loop (notify fuel handler) handler keys st = Normal st' -> self_removing st'.
Proof.
  intros Hno. induction keys as [|key rest IH]; intros st st' Hself; simpl.
  - by intros [= <-].
  - destruct (add_key (notify fuel handler) handler key st) as [s1|s1|] eqn:Hk;
      [|done|done].
    pose proof (sync_add_key_hooks (notify fuel handler)
                  (sync_notify_hooks_kept handler fuel) handler key st) as Hh.
    rewrite Hk in Hh. destruct Hh as (Hkept & Hcl & Hact).
    destruct (sync_add_key_write_free _ _ _ _ _ (Hno key) Hk) as (Hreg & _).
    pose proof (sync_add_key_rule pass_keeps pass_keeps_refl pass_keeps_trans
                  pass_keeps_effectScope pass_keeps_set pass_keeps_active
                  pass_keeps_hook pass_keeps_called pass_keeps_input
                  (notify fuel handler) (sync_notify_keeps fuel handler) handler key st)
      as Hall.
    rewrite Hk in Hall. destruct Hall as (Hks & _).
    apply IH. intros k c Hg. rewrite Hreg in Hg.
    destruct (String.eqb_spec k key) as [->|Hne].
    + rewrite JsMapFacts.get_set_eq in Hg. injection Hg as <-.
      rewrite Hcl, Hact. split; [apply in_or_app; right; by left | done].
    + rewrite JsMapFacts.get_set_ne in Hg by done.
      destruct (Hself k c Hg) as [Hhook Hlive].
      assert (Hc : c < length (heap st)).
      { unfold is_active in Hlive. destruct (heap st !! c) eqn:E; [|done].
        by apply lookup_lt_Some in E. }
      rewrite (hooks_kept_cleanups st s1 c Hkept Hc). split; [done|].
      by rewrite (keeps_scopes_active_eq st s1 c Hks Hc).
Qed.

Lemma sync_calls_self_removing fuel handler p cs :
  write_free handler ->
  forall st st', self_removing st ->
    calls fuel handler p cs st = Normal st' -> self_removing st'.
Proof.
  intros Hno. induction cs as [|c cs IH]; intros st st' Hself; simpl.
  - by intros [= <-].
  - destruct (call fuel handler p c st) as [s1|s1|] eqn:Hc; [|done|done].
    apply IH. destruct c as [o|]; simpl in Hc.
    + unfold notify in Hc. cbn [watching set_input] in Hc.
      destruct (watching st); [|injection Hc as <-; by apply (self_removing_ext st)].
      destruct fuel as [|fuel]; [done|].
      rewrite DeepReactivityFacts.watch_callback_eq in Hc.
      refine (sync_add_loop_self_removing fuel handler _ Hno (set_input o st) s1 _ Hc).
      by apply (self_removing_ext st).
    + unfold dispose in Hc.
      by destruct (stop_fuel_keeps_self_removing fuel p st s1 Hself Hc).
Qed.

(** In every state a session with a handler that never writes the ref
    has reached, the scope registered for a key is live and carries
    the self-removing hook of the key. *)
Lemma sync_session_self_removing fuel handler o cs st :
  write_free handler -> session fuel handler o cs = Normal st -> self_removing st.
Proof.
  intros Hno. unfold session.
  destruct (useScopePerKey fuel handler (initial o)) as [p r] eqn:Hsetup.
  destruct r as [s0|s0|]; [|done|done].
  destruct (SyncSetup.sync_setup_owned fuel handler _ p s0 Hno Hsetup)
    as (_ & _ & Hself & _).
  by apply sync_calls_self_removing.
Qed.

End SyncSelfRemoving.

(** X15. In src/deep-reactivity.ts, disposing the scope of one key
    directly: in any state a session with a handler that never writes
    the ref has reached, a call of [stop] on the scope registered for
    a key does not return, whatever the fuel. The scope carries the
    self-removing hook of the key; the hook finds the entry of the
    key and calls [stop] on the registered scope, which is the scope
    being disposed and is not yet inert while its hooks run. *)
Theorem sync_scope_disposal_does_not_return fuel handler o cs st key c fuel' :
  write_free handler ->
  DeepReactivity.session fuel handler o cs = Normal st ->
  JsMap.get key (childScopes st) = Some c ->
  In (SelfRemove key) (scope_cleanups c st)
  /\ is_active c st = true
  /\ stop_fuel fuel' c st = Diverged.
Proof.
  intros Hno Hs Hg.
  pose proof (SyncSelfRemoving.sync_session_self_removing fuel handler o cs st Hno Hs)
    as Hself.
  destruct (Hself key c Hg) as [Hin Hact]. split; [done|]. split; [done|].
  by apply (stop_fuel_registered_diverges fuel' st key c).
Qed.

Lemma sync_scope_disposal_does_not_return_witness :
  In (SelfRemove "c") (scope_cleanups 3 sync_state_later)
  /\ is_active 3 sync_state_later = true
  /\ stop_fuel 9 3 sync_state_later = Diverged.
Proof.
  apply (sync_scope_disposal_does_not_return 1 marking [("a", 1); ("b", 2)]
           [SetValue [("b", 2); ("c", 3)]] sync_state_later "c" 3 9).
  - intros key o' [H|[]]. discriminate.
  - vm_compute. reflexivity.
  - reflexivity.
Defined.

(** ** Keys that get a scope in a pass of the [watchEffect] variant *)

Lemma get_delete_Some key k c (m : JsMap.t) :
  JsMap.get k (JsMap.delete key m) = Some c -> JsMap.get k m = Some c /\ k <> key.
Proof.
  intros H. destruct (String.eqb_spec k key) as [->|Hne].
  - pose proof (JsMapFacts.has_delete_eq key m) as Hd.
    apply JsMapFacts.has_false_get in Hd. congruence.
  - by rewrite JsMapFacts.get_delete_ne in H.
Qed.

Lemma registry_shrinks_trans a b c :
  registry_shrinks a b -> registry_shrinks b c -> registry_shrinks a c.
Proof. intros H1 H2 k x Hx. auto. Qed.

Lemma registry_shrinks_same a b : childScopes b = childScopes a -> registry_shrinks a b.
Proof. intros H k c. by rewrite H. Qed.

(** The removing loop deletes entries only. *)
Lemma remove_loop_registry_shrinks fuel keys st st' :
  WatchEffect.remove_loop fuel keys st = Normal st' -> registry_shrinks st st'.
Proof.
  apply (remove_loop_Normal_rule registry_shrinks);
    try (intros; by apply registry_shrinks_same).
  - apply registry_shrinks_trans.
  - intros a key k c Hg. simpl in Hg. by apply get_delete_Some in Hg as [? _].
Qed.

Lemma hooks_kept_length a b : hooks_kept a b -> length (heap a) <= length (heap b).
Proof.
  intros [_ H]. destruct (heap a) as [|sc l] eqn:E using rev_ind; [simpl; lia|].
  destruct (H (length l) sc) as (sc' & Hs' & _).
  - rewrite lookup_app_r by lia. by rewrite Nat.sub_diag.
  - apply lookup_lt_Some in Hs'. rewrite length_app. simpl. lia.
Qed.


(** An entry the adding loop leaves was there before, or its scope was
    created by the loop, is live, and carries the hooks the handler of
    the key registered. *)
Lemma effect_add_loop_fresh handler keys :
  forall st st', WatchEffect.add_loop handler keys st = Normal st' ->
    forall k c, JsMap.get k (childScopes st') = Some c ->
      JsMap.get k (childScopes st) = Some c
      \/ (length (heap st) <= c /\ is_active c st' = true
          /\ scope_cleanups c st' = hooks_of (handler k)).
Proof.
  induction keys as [|key rest IH]; intros st st'; simpl.
  - intros [= <-] k c Hg. by left.
  - pose proof (WatchEffectAdding.effect_add_key_step handler key st) as Hstep.
    destruct (JsMap.has key (childScopes st)) eqn:Hhas.
    + rewrite WatchEffectFacts.effect_add_key_skip by done. apply IH.
    + pose proof (effect_add_key_hooks handler key st Hhas) as Hh.
      destruct (WatchEffect.add_key handler key st) as [s1|s1|]; [|done|done].
      simpl in *. rewrite Hhas in Hstep. destruct Hstep as [Hreg _].
      destruct Hh as (Hkept & Hcl & Hact).
      intros Hl k c Hg.
      pose proof (WatchEffectAdding.effect_add_loop_hooks_kept handler rest s1) as Hk2.
      pose proof (effect_add_loop_keeps handler rest s1) as Hk3.
      rewrite Hl in Hk2, Hk3. simpl in Hk2, Hk3. destruct Hk3 as (Hks & _).
      pose proof (hooks_kept_length _ _ Hkept) as Hlen.
      assert (Hn : length (heap st) < length (heap s1)).
      { unfold is_active in Hact. destruct (heap s1 !! length (heap st)) eqn:E; [|done].
        by apply lookup_lt_Some in E. }
      destruct (IH _ _ Hl k c Hg) as [Hg1|(Hc & Ha & Hcc)]; [|right; split; [lia | done]].
      rewrite Hreg in Hg1. destruct (String.eqb_spec k key) as [->|Hne].
      * rewrite JsMapFacts.get_set_eq in Hg1. injection Hg1 as <-. right.
        split; [lia|]. split.
        -- by rewrite (keeps_scopes_active_eq s1 st' _ Hks Hn).
        -- by rewrite (hooks_kept_cleanups s1 st' _ Hk2 Hn).
      * rewrite JsMapFacts.get_set_ne in Hg1 by done. by left.
Qed.

(** X16. A key that is added in the [watchEffect] variant gets a scope
    of its own: take any state a session has reached in which the
    watcher is running and a key has no entry (it never had one, or it
    was removed). When the pass after a write of an object that has
    the key ends normally, the key is registered with a live scope
    that was created during the pass, was never registered before for
    any key, and carries exactly the hooks the handler registered for
    the key. *)
Theorem watch_effect_added_key_gets_new_scope fuel0 fuel handler o cs st key o' st' :
  WatchEffect.session fuel0 handler o cs = Normal st ->
  watching st = true ->
  JsMap.has key (childScopes st) = false ->
  In key (Object_keys o') ->
  WatchEffect.call fuel handler (SetValue o') st = Normal st' ->
  exists c,
    JsMap.get key (childScopes st') = Some c
    /\ is_active c st' = true
    /\ length (heap st) <= c
    /\ (forall k, ~ In c (scopes_registered_for k (trace st)))
    /\ scope_cleanups c st' = hooks_of (handler key).
Proof.
  intros Hs Hw Hhas Hin.
  pose proof (WatchEffectUniqueness.session_owns_live fuel0 handler o cs) as Hown.
  rewrite Hs in Hown. simpl in Hown. destruct Hown as (_ & Hid & _).
  unfold WatchEffect.call, WatchEffect.rerun. cbn [watching set_input]. rewrite Hw.
  unfold WatchEffect.effect_body.
  set (st0 := set_input o' st).
  set (toRemove := WatchEffect.keysToRemove _ _).
  set (toAdd := WatchEffect.keysToAdd _ _).
  destruct (WatchEffect.remove_loop fuel toRemove st0) as [st1|st1|] eqn:Hrm; [|done|done].
  intros Hl.
  assert (Hadd : In key toAdd).
  { unfold toAdd, WatchEffect.keysToAdd. apply filter_In. split; [done|].
    change (childScopes st0) with (childScopes st). by rewrite <- has_keys_includes, Hhas. }
  assert (Hhas' : JsMap.has key (childScopes st') = true).
  { rewrite (WatchEffectSetup.effect_add_loop_has _ _ _ _ Hl).
    rewrite (includes_true key toAdd Hadd). apply orb_true_r. }
  apply JsMapFacts.has_get in Hhas'. destruct Hhas' as [c Hc]. exists c.
  split; [done|].
  destruct (effect_add_loop_fresh handler toAdd st1 st' Hl key c Hc)
    as [Hold|(Hlen & Hact & Hcl)].
  - apply (remove_loop_registry_shrinks fuel toRemove st0 st1 Hrm) in Hold.
    apply JsMapFacts.has_false_get in Hhas. simpl in Hold. congruence.
  - rewrite (remove_loop_heap_length _ _ _ _ Hrm) in Hlen. simpl in Hlen.
    repeat split; [done | done | | done].
    intros k Hk. apply Hid in Hk. lia.
Qed.

Lemma watch_effect_added_key_gets_new_scope_witness :
  exists c,
    JsMap.get "c" (childScopes effect_state_later) = Some c
    /\ is_active c effect_state_later = true
    /\ length (heap effect_state) <= c
    /\ (forall k, ~ In c (scopes_registered_for k (trace effect_state)))
    /\ scope_cleanups c effect_state_later = hooks_of (marking "c").
Proof.
  apply (watch_effect_added_key_gets_new_scope 1 1 marking [("a", 1); ("b", 2)] []
           effect_state "c" [("b", 2); ("c", 3)] effect_state_later).
  - vm_compute. reflexivity.
  - reflexivity.
  - reflexivity.
  - simpl. right. by left.
  - vm_compute. reflexivity.
Defined.

(** ** Coverage in the sync variant, nested passes included *)

Lemma tracks_input_refl a : tracks_input a a.
Proof. repeat split; [apply keeps_keys_refl | by left]. Qed.

Lemma tracks_input_trans a b c :
  tracks_input a b -> tracks_input b c -> tracks_input a c.
Proof.
  intros (W1 & K1 & I1) (W2 & K2 & I2).
  split; [congruence|]. split; [by eapply keeps_keys_trans|].
  destruct I2 as [I2|I2]; [|by right].
  destruct I1 as [I1|I1]; [left; congruence|].
  right. intros k Hk. rewrite I2 in Hk. by apply K2, I1.
Qed.

Lemma pass_keeps_tracks a b : pass_keeps a b -> input b = input a -> tracks_input a b.
Proof. intros (_ & Hk & [Hw _]) Hi. repeat split; [done | done | by left]. Qed.

Section SyncCoverage.
Variable handler : Handler.
Variable notify : State -> Outcome.
Hypothesis Hnotify : forall s, outcome_rel pass_keeps s (notify s).
Hypothesis Hcovers :
  forall s s', watching s = true -> notify s = Normal s' -> covers_input s'.

Lemma run_ops_tracks ops :
  forall st st', watching st = true -> run_ops notify ops st = Normal st' ->
    tracks_input st st'.
Proof.
  induction ops as [|op ops IH]; intros st st' Hw; simpl.
  - intros [= <-]. apply tracks_input_refl.
  - destruct op as [n|o|]; [| |done].
    + intros Hr. apply tracks_input_trans with (b := onScopeDispose (UserHook n) st).
      * apply pass_keeps_tracks; [apply pass_keeps_hook|].
        unfold onScopeDispose. by destruct (activeEffectScope st).
      * apply IH; [|done]. unfold onScopeDispose. by destruct (activeEffectScope st).
    + pose proof (Hnotify (set_input o st)) as Hk.
      destruct (notify (set_input o st)) as [s1|s1|] eqn:Hn; [|done|done].
      simpl in Hk. destruct Hk as (_ & Hkeys & [Hw1 _]). simpl in Hw1.
      intros Hr. apply tracks_input_trans with (b := s1).
      * split; [done|]. split; [done|]. right. by apply (Hcovers (set_input o st)).
      * apply IH; [congruence | done].
Qed.

Lemma sync_add_key_tracks key st st' :
  watching st = true -> DeepReactivity.add_key notify handler key st = Normal st' ->
  tracks_input st st'.
Proof.
  intros Hw. rewrite DeepReactivityFacts.sync_add_key_eq. unfold call_handler.
  rewrite handler_entry_activeEffectScope.
  set (he := emit (HandlerCalled key (length (heap st))) (handler_entry key st)).
  destruct (run_ops notify (handler key) he) as [s'|s'|] eqn:Hr; [|done|done].
  intros [= <-].
  assert (H1 : tracks_input st he).
  { apply pass_keeps_tracks; [|done]. unfold he.
    eapply pass_keeps_trans; [|apply pass_keeps_called].
    apply handler_entry_rule; eauto using pass_keeps_trans with keeps. }
  assert (H2 : tracks_input he s') by (by apply (run_ops_tracks (handler key))).
  assert (H3 : tracks_input s' (set_activeEffectScope (activeEffectScope st)
                                  (onScopeDispose (SelfRemove key) s'))).
  { apply pass_keeps_tracks.
    - eapply pass_keeps_trans; [apply pass_keeps_hook | apply pass_keeps_active].
    - simpl. unfold onScopeDispose. by destruct (activeEffectScope s'). }
  eauto using tracks_input_trans.
Qed.

Lemma sync_add_loop_tracks keys :
  forall st st', watching st = true ->
    DeepReactivity.add_loop notify handler keys st = Normal st' -> tracks_input st st'.
Proof.
  induction keys as [|key rest IH]; intros st st' Hw; simpl.
  - intros [= <-]. apply tracks_input_refl.
  - destruct (DeepReactivity.add_key notify handler key st) as [s1|s1|] eqn:Hk;
      [|done|done].
    pose proof (sync_add_key_tracks key st s1 Hw Hk) as H1. intros Hl.
    apply tracks_input_trans with (b := s1); [done|].
    apply IH; [|done]. destruct H1 as [-> _]. done.
Qed.

End SyncCoverage.

(** A pass of the sync variant that runs while the watcher is running
    and ends normally leaves an entry for every key of the object the
    ref holds then, whatever the handlers wrote. *)
Lemma sync_notify_covers handler fuel :
  forall s s', watching s = true -> DeepReactivity.notify fuel handler s = Normal s' ->
    covers_input s'.
Proof.
  induction fuel as [|fuel IH]; intros s s' Hw; unfold DeepReactivity.notify; rewrite Hw.
  - done.
  - rewrite DeepReactivityFacts.watch_callback_eq. intros Hl.
    pose proof (sync_add_loop_tracks handler (DeepReactivity.notify fuel handler)
                  (sync_notify_keeps fuel handler) IH _ _ _ Hw Hl) as (_ & Hk & [Hi|Hc]);
      [|done].
    intros k Hin. rewrite Hi in Hin.
    destruct (JsMap.has k (childScopes s)) eqn:Hhas; [by apply Hk|].
    apply (sync_add_loop_registers (DeepReactivity.notify fuel handler)
             (sync_notify_keeps fuel handler) handler _ _ _ Hl).
    unfold DeepReactivity.keysToAdd. apply filter_In. by rewrite Hhas.
Qed.

(** In a session, while the watcher is running: every key of the
    object the ref holds has an entry, and the parent scope is live
    and owns the watcher. *)
Lemma sync_calls_covers fuel handler p cs :
  forall st st',
    (watching st = true ->
     covers_input st
     /\ exists sc, heap st !! p = Some sc /\ active sc = true
                   /\ In TopLevelWatch (effects sc)) ->
    DeepReactivity.calls fuel handler p cs st = Normal st' ->
    watching st' = true -> covers_input st'.
Proof.
  induction cs as [|c cs IH]; intros st st' Hst; simpl.
  - intros [= <-] Hw. by apply Hst.
  - destruct (DeepReactivity.call fuel handler p c st) as [s1|s1|] eqn:Hc; [|done|done].
    apply IH. intros Hw1. destruct c as [o|]; simpl in Hc.
    + destruct (watching st) eqn:Hw.
      * destruct (Hst eq_refl) as (_ & sc & Hsc & Hact & Heff).
        split; [by apply (sync_notify_covers handler fuel (set_input o st))|].
        pose proof (sync_notify_keeps fuel handler (set_input o st)) as Hk.
        rewrite Hc in Hk. destruct Hk as (Hks & _).
        destruct (Hks p sc Hsc) as (sc' & Hsc' & Hact' & Heff' & _).
        exists sc'. by rewrite Hact', Heff'.
      * unfold DeepReactivity.notify in Hc. simpl in Hc. rewrite Hw in Hc.
        injection Hc as <-. simpl in Hw1. congruence.
    + exfalso. unfold DeepReactivity.dispose in Hc. destruct (watching st) eqn:Hw.
      * destruct (Hst eq_refl) as (_ & sc & Hsc & Hact & Heff).
        by rewrite (dispose_stops_watcher fuel p sc st s1 Hsc Hact Heff Hc) in Hw1.
      * pose proof (stop_fuel_stays_unwatched fuel p st) as Hu. rewrite Hc in Hu.
        by rewrite (Hu Hw) in Hw1.
Qed.

(** X17. Coverage in src/deep-reactivity.ts, nested passes included:
    in a session, whatever the handler does (it may write the ref,
    which re-enters the callback), whenever a call has returned
    normally and the watcher is running, every key of the object the
    ref holds has an entry in the registry. *)
Theorem sync_registry_covers_keys fuel handler o cs st :
  DeepReactivity.session fuel handler o cs = Normal st ->
  watching st = true ->
  covers_input st.
Proof.
  unfold DeepReactivity.session.
  destruct (DeepReactivity.useScopePerKey fuel handler (initial o)) as [p0 r] eqn:Hsetup.
  destruct r as [s0|s0|]; [|done|done].
  destruct (SyncSession.sync_setup_owner fuel handler _ _ _ Hsetup) as (_ & Hw0 & Hown).
  destruct (sync_setup_unfold fuel handler _ _ _ Hsetup) as (fuel' & s' & -> & -> & Hl & ->).
  apply sync_calls_covers. intros _. split; [|done].
  set (s1 := create_watcher
               (set_activeEffectScope (Some (length (heap (initial o))))
                  (set_childScopes [] (snd (effectScope (initial o)))))) in *.
  apply (sync_notify_covers handler (S fuel') s1 s'); [done|].
  unfold DeepReactivity.notify.
  change (watching s1) with true. cbv iota.
  rewrite DeepReactivityFacts.watch_callback_eq, sync_keysToAdd_empty by done.
  exact Hl.
Qed.

Lemma sync_registry_covers_keys_witness : covers_input stale_state.
Proof.
  apply (sync_registry_covers_keys 2 writer [("a", 1); ("b", 2)] [] stale_state).
  - vm_compute. reflexivity.
  - reflexivity.
Defined.

(** ** Handler calls of the sync variant in a session *)

Lemma stop_fuel_handler_calls fuel s st st' :
  stop_fuel fuel s st = Normal st' ->
  handler_calls (trace st') = handler_calls (trace st).
Proof.
  apply (stop_fuel_Normal_rule
           (fun a b => handler_calls (trace b) = handler_calls (trace a))); try done.
  - intros a b c H1 H2. by rewrite H2.
  - intros a e He. simpl. rewrite handler_calls_app. destruct e; simpl in *;
      try done; apply app_nil_r.
Qed.

Lemma NoDup_app_disjoint {A} (l1 l2 : list A) :
  List.NoDup l1 -> List.NoDup l2 -> (forall x, In x l1 -> ~ In x l2) ->
  List.NoDup (l1 ++ l2).
Proof.
  intros H1 H2 Hd. induction H1 as [|x l1 Hx H1 IH]; [done|]. simpl. constructor.
  - rewrite in_app_iff. intros [H|H]; [done|]. apply (Hd x); [by left | done].
  - apply IH. intros y Hy. apply Hd. by right.
Qed.

(** In a session of the sync variant with a handler that never writes
    the ref: the handler was called at most once for each key, and,
    while the watcher is running, every key it was called for has an
    entry and the parent scope is live and owns the watcher. *)
Lemma sync_calls_once fuel handler p cs :
  write_free handler -> Forall distinct_keys cs ->
  forall st st',
    List.NoDup (handler_calls (trace st)) ->
    (watching st = true ->
     (forall k, In k (handler_calls (trace st)) -> JsMap.has k (childScopes st) = true)
     /\ exists sc, heap st !! p = Some sc /\ active sc = true
                   /\ In TopLevelWatch (effects sc)) ->
    DeepReactivity.calls fuel handler p cs st = Normal st' ->
    List.NoDup (handler_calls (trace st')).
Proof.
  intros Hno Hcs. induction Hcs as [|c cs Hc _ IH]; intros st st' Hnd Hst; simpl.
  - by intros [= <-].
  - destruct (DeepReactivity.call fuel handler p c st) as [s1|s1|] eqn:Hcall;
      [|done|done].
    destruct c as [o|]; simpl in Hcall, Hc.
    + unfold DeepReactivity.notify in Hcall. simpl in Hcall.
      destruct (watching st) eqn:Hw.
      * destruct (Hst eq_refl) as (Hreg & sc & Hsc & Hact & Heff).
        destruct fuel as [|fuel]; [done|].
        rewrite DeepReactivityFacts.watch_callback_eq in Hcall.
        destruct (sync_add_loop_write_free _ handler _ Hno _ _ Hcall)
          as (Hh & Hcalls & _ & Hw1).
        pose proof (sync_add_loop_rule pass_keeps pass_keeps_refl pass_keeps_trans
                      pass_keeps_effectScope pass_keeps_set pass_keeps_active
                      pass_keeps_hook pass_keeps_called pass_keeps_input
                      (DeepReactivity.notify fuel handler) (sync_notify_keeps fuel handler)
                      handler (DeepReactivity.keysToAdd (Object_keys o) (set_input o st))
                      (set_input o st)) as Hk.
        rewrite Hcall in Hk. destruct Hk as (Hks & _).
        apply IH.
        -- rewrite Hcalls. apply NoDup_app_disjoint; [done | by apply List.NoDup_filter |].
           intros k Hk Hadd. unfold DeepReactivity.keysToAdd in Hadd.
           apply filter_In in Hadd. destruct Hadd as [_ Hadd]. simpl in Hadd.
           by rewrite (Hreg k Hk) in Hadd.
        -- intros _. split.
           ++ intros k. rewrite Hcalls, in_app_iff, Hh. simpl. intros [Hk|Hk].
              ** by rewrite (Hreg k Hk).
              ** rewrite (includes_true _ _ Hk). apply orb_true_r.
           ++ destruct (Hks p sc Hsc) as (sc' & Hsc' & Hact' & Heff' & _).
              exists sc'. by rewrite Hact', Heff'.
      * injection Hcall as <-. apply IH; [done|]. simpl. congruence.
    + unfold DeepReactivity.dispose in Hcall. apply IH.
      * by rewrite (stop_fuel_handler_calls fuel p st s1 Hcall).
      * intros Hw1. exfalso. destruct (watching st) eqn:Hw.
        -- destruct (Hst eq_refl) as (_ & sc & Hsc & Hact & Heff).
           by rewrite (dispose_stops_watcher fuel p sc st s1 Hsc Hact Heff Hcall) in Hw1.
        -- pose proof (stop_fuel_stays_unwatched fuel p st) as Hu. rewrite Hcall in Hu.
           by rewrite (Hu Hw) in Hw1.
Qed.

(** X18. In a session of src/deep-reactivity.ts with a handler that
    never writes the ref, on objects whose keys are distinct (as
    [Object.keys] gives them), the handler is called at most once for
    each key in the whole session: a key that was removed from the
    object and is added again does not get the handler called again
    (the [watchEffect] variant calls it again, see X16 and X9). *)
Theorem sync_handler_called_at_most_once_per_key fuel handler o cs st :
  write_free handler ->
  List.NoDup (Object_keys o) ->
  Forall distinct_keys cs ->
  DeepReactivity.session fuel handler o cs = Normal st ->
  List.NoDup (handler_calls (trace st)).
Proof.
  intros Hno Hnd Hcs. unfold DeepReactivity.session.
  destruct (DeepReactivity.useScopePerKey fuel handler (initial o)) as [p0 r] eqn:Hsetup.
  destruct r as [s0|s0|]; [|done|done].
  destruct (SyncSession.sync_setup_owner fuel handler _ _ _ Hsetup) as (_ & _ & Hown).
  destruct (sync_setup_unfold fuel handler _ _ _ Hsetup) as (fuel' & s' & -> & -> & Hl & ->).
  destruct (sync_add_loop_write_free _ handler _ Hno _ _ Hl) as (Hh & Hc & _).
  apply (sync_calls_once (S fuel') handler _ cs Hno Hcs).
  - simpl. by rewrite Hc.
  - intros _. split; [|done]. intros k. simpl. rewrite Hc, Hh. simpl.
    intros Hk. by apply includes_true.
Qed.

Lemma sync_handler_called_at_most_once_per_key_witness :
  List.NoDup (handler_calls (trace sync_state_readded)).
Proof.
  apply (sync_handler_called_at_most_once_per_key 1 marking [("a", 1); ("b", 2)]
           [SetValue [("b", 2)]; SetValue [("a", 1); ("b", 2)]] sync_state_readded).
  - intros key o' [H|[]]. discriminate.
  - simpl. repeat constructor; simpl; intros H; repeat destruct H as [H|H];
      try discriminate; done.
  - repeat constructor; simpl; intros H; repeat destruct H as [H|H];
      try discriminate; done.
  - vm_compute. reflexivity.
Defined.
